(** * Signage player control plane: snapshot parser, snapshot manager,
      content cache, certificate renewal, playback error budget, command
      rate limiting and default-media normalisation.

    The TypeScript sources are embedded shallowly.  JavaScript values that
    reach the program as parsed JSON are modelled by [JsValue]; the host
    runtime (string-to-number conversion, [Math.random], the clock, the
    network) is a record of oracles, [Host], so every definition below is
    an executable function of its inputs.

    Scope of the model:
    - numbers are integers or [NaN];
    - objects are plain JSON objects: members inherited from a built-in
      prototype, and own properties named [toString] or [valueOf], are not
      modelled;
    - an [async] method runs to completion before the next one starts;
    - the file system is the media directory of the cache, and writes to
      it succeed. *)

From Stdlib Require Import ZArith Lia Bool List Ascii String Sorted.
From stdpp Require Import base option list strings gmap pretty.
Import ListNotations.
Set Warnings "-register-all".
Open Scope string_scope.
Open Scope Z_scope.

(* ===================================================================== *)
(** ** JavaScript values                                                   *)
(* ===================================================================== *)

(** Numbers.  The quantities the program computes with are millisecond
    counts and byte sizes; they are modelled as integers, with [NaN] for
    the result of a failed numeric conversion. *)
Inductive JsNumber :=
| NaN
| Int (z : Z).

Inductive JsValue :=
| VUndefined
| VNull
| VBool (b : bool)
| VNum (n : JsNumber)
| VStr (s : string)
| VArr (elems : list JsValue)
| VObj (fields : list (string * JsValue)).

(** Thrown values: the built-in errors, [CacheError(message, details)]
    with the [status] and [reason] of its details, and the rejection of
    an HTTP request, which carries [error.response.status]. *)
Inductive JsError :=
| TypeError (msg : string)
| Error (msg : string)
| CacheError (msg : string) (status : option Z) (reason : option string)
| HttpError (status : option Z) (msg : string).

Definition error_message (e : JsError) : string :=
  match e with
  | TypeError m | Error m | CacheError m _ _ | HttpError _ m => m
  end.

(** Outcome of evaluating an expression that may throw. *)
Inductive Completion (A : Type) :=
| Normal (a : A)
| Throw (e : JsError).
Arguments Normal {A} a.
Arguments Throw {A} e.

Definition number_truthy (n : JsNumber) : bool :=
  match n with
  | NaN => false
  | Int z => negb (z =? 0)
  end.

(** ToBoolean. *)
Definition truthy (v : JsValue) : bool :=
  match v with
  | VUndefined | VNull => false
  | VBool b => b
  | VNum n => number_truthy n
  | VStr s => negb (String.eqb s "")
  | VArr _ | VObj _ => true
  end.

(** [a || b] *)
Definition js_or (a b : JsValue) : JsValue := if truthy a then a else b.

(** [a ?? b] *)
Definition nullish (v : JsValue) : bool :=
  match v with
  | VUndefined | VNull => true
  | _ => false
  end.
Definition js_coalesce (a b : JsValue) : JsValue := if nullish a then b else a.

Infix "|||" := js_or (at level 50, left associativity).
Infix "???" := js_coalesce (at level 50, left associativity).

(** [typeof v === 'object'] (true of [null], arrays and objects). *)
Definition typeof_object (v : JsValue) : bool :=
  match v with
  | VNull | VArr _ | VObj _ => true
  | _ => false
  end.

Definition isArray (v : JsValue) : bool :=
  match v with
  | VArr _ => true
  | _ => false
  end.

Fixpoint assoc {A : Type} (k : string) (l : list (string * A)) : option A :=
  match l with
  | [] => None
  | (k', v) :: rest => if String.eqb k k' then Some v else assoc k rest
  end.

(** [obj[k] = v] on a plain object: an existing key keeps its position. *)
Fixpoint assoc_set {A : Type} (k : string) (v : A) (l : list (string * A))
  : list (string * A) :=
  match l with
  | [] => [(k, v)]
  | (k', v') :: rest =>
      if String.eqb k k' then (k, v) :: rest else (k', v') :: assoc_set k v rest
  end.

Fixpoint assoc_remove {A : Type} (k : string) (l : list (string * A))
  : list (string * A) :=
  match l with
  | [] => []
  | (k', v') :: rest =>
      if String.eqb k k' then assoc_remove k rest else (k', v') :: assoc_remove k rest
  end.

(** Own-property read [v.k] on a value that is neither [null] nor
    [undefined].  The property names the program reads (media_id, url,
    items, ...) are not members of any built-in prototype, so on arrays
    and primitives they read as [undefined]. *)
Definition prop (v : JsValue) (k : string) : JsValue :=
  match v with
  | VObj fields => default VUndefined (assoc k fields)
  | _ => VUndefined
  end.

(** [v.k], which throws on [null] and [undefined]. *)
Definition get_prop (v : JsValue) (k : string) : Completion JsValue :=
  match v with
  | VUndefined | VNull =>
      Throw (TypeError ("Cannot read properties of null or undefined (reading '" ++ k ++ "')"))
  | _ => Normal (prop v k)
  end.

(** [v?.k] *)
Definition opt_prop (v : JsValue) (k : string) : JsValue :=
  if nullish v then VUndefined else prop v k.

(** Number to string, for integers printed in full (those below 10^21
    in absolute value). *)
Definition number_to_string (n : JsNumber) : string :=
  match n with
  | NaN => "NaN"
  | Int z => pretty z
  end.

Fixpoint join_with (sep : string) (l : list string) : string :=
  match l with
  | [] => ""
  | [s] => s
  | s :: rest => s ++ sep ++ join_with sep rest
  end.

(** ToString.  Objects are the plain objects of a parsed JSON document and
    print as [[object Object]]; arrays join their elements with commas,
    printing [null] and [undefined] elements as the empty string. *)
Fixpoint ToString (v : JsValue) : string :=
  match v with
  | VUndefined => "undefined"
  | VNull => "null"
  | VBool true => "true"
  | VBool false => "false"
  | VNum n => number_to_string n
  | VStr s => s
  | VArr elems =>
      join_with ","
        ((fix each (l : list JsValue) : list string :=
            match l with
            | [] => []
            | e :: rest => (if nullish e then "" else ToString e) :: each rest
            end) elems)
  | VObj _ => "[object Object]"
  end.

(** Strict equality against a string literal: [v === 'lit']. *)
Definition strict_eq_str (v : JsValue) (lit : string) : bool :=
  match v with
  | VStr s => String.eqb s lit
  | _ => false
  end.

(* ===================================================================== *)
(** ** The host runtime                                                    *)
(* ===================================================================== *)

Inductive HttpResult :=
| HttpOk (body : JsValue)
| HttpFail (status : option Z) (message : string).

(** A downloaded buffer, seen through what the cache uses of it: its
    length and its SHA-256 digest ([calculateBufferHash]). *)
Record Buffer := { buf_length : Z; buf_sha256 : string }.

Inductive DownloadResult :=
| Downloaded (data : Buffer)
| DownloadFailed (status : option Z).

(** Oracles for everything the program asks of its environment.  The
    index is the number of environment interactions made so far, so the
    answers may change over time. *)
Record Host := {
  StringToNumber : string -> JsNumber;       (* Number(s) on a string   *)
  random_suffix : nat -> string;             (* Math.random().toString(36).slice(2, 8) *)
  Date_now : nat -> Z;                       (* Date.now()              *)
  toISOString : Z -> string;                 (* new Date(t).toISOString() *)
  http_get : nat -> string -> HttpResult;    (* httpClient.get(url)     *)
  axios_get : nat -> string -> DownloadResult; (* axios.get(url, arraybuffer) *)
  sanitizeFilename : string -> string;       (* common/utils            *)
  url_pathname : string -> option string;    (* new URL(url).pathname, None when it throws *)
  path_extname : string -> string;           (* path.extname            *)
  pathToFileURL : string -> string;          (* pathToFileURL(p).toString() *)
}.

(** ToNumber, i.e. [Number(v)]. *)
Definition ToNumber (h : Host) (v : JsValue) : JsNumber :=
  match v with
  | VUndefined => NaN
  | VNull => Int 0
  | VBool true => Int 1
  | VBool false => Int 0
  | VNum n => n
  | VStr s => StringToNumber h s
  | VArr _ => StringToNumber h (ToString v)
  | VObj _ => NaN
  end.

(** [Number(v) || dflt] *)
Definition number_or (n : JsNumber) (dflt : Z) : JsNumber :=
  if number_truthy n then n else Int dflt.

(* ===================================================================== *)
(** ** Snapshot parser (services/snapshot-parser.ts)                       *)
(* ===================================================================== *)

Inductive FitMode := contain | cover | stretch.

(** A [TimelineItem] as it exists at run time: the fields the parser copies
    from the payload without conversion hold whatever value the payload
    had. *)
Record TimelineItem := {
  ti_id : JsValue;
  ti_mediaId : JsValue;
  ti_type : JsValue;
  ti_remoteUrl : JsValue;
  ti_displayMs : JsNumber;
  ti_fit : FitMode;
  ti_muted : bool;
  ti_sha256 : JsValue;
  ti_meta : JsValue;
  ti_transitionDurationMs : JsNumber;
  ti_objectKey : JsValue;
  ti_localPath : option string;
  ti_localUrl : option string;
}.

(** The media URL map is a plain object used as a dictionary; it is read
    and written through its own properties only. *)
Definition SnapshotMediaUrlMap := list (string * JsValue).

Record NormalizedSnapshot := {
  snapshotId : JsValue;
  scheduleId : JsValue;
  items : list TimelineItem;
  emergencyItem : option TimelineItem;
  defaultItem : option TimelineItem;
  mediaUrlMap : SnapshotMediaUrlMap;
  fetchedAt : JsValue;
  raw : JsValue;
}.

Definition lower_ascii (c : ascii) : ascii :=
  let n := nat_of_ascii c in
  if (Nat.leb 65 n && Nat.leb n 90)%bool then ascii_of_nat (n + 32) else c.

(** [String.prototype.toLowerCase], on the ASCII letters the patterns
    below can match. *)
Fixpoint toLowerCase (s : string) : string :=
  match s with
  | EmptyString => EmptyString
  | String c rest => String (lower_ascii c) (toLowerCase rest)
  end.

Fixpoint strip_prefix (p s : string) : option string :=
  match p, s with
  | EmptyString, _ => Some s
  | String a p', String b s' => if Ascii.eqb a b then strip_prefix p' s' else None
  | String _ _, EmptyString => None
  end.

(** [(\?|#|$)] at the head of [s]. *)
Definition at_query_hash_or_end (s : string) : bool :=
  match s with
  | EmptyString => true
  | String c _ => (Ascii.eqb c "?" || Ascii.eqb c "#")%bool
  end.

(** [/\.(e1|e2|...)(\?|#|$)/.test(s)] *)
Fixpoint test_extension (exts : list string) (s : string) : bool :=
  match s with
  | EmptyString => false
  | String c rest =>
      (Ascii.eqb c "." &&
       existsb (fun e => match strip_prefix e rest with
                         | Some tail => at_query_hash_or_end tail
                         | None => false
                         end) exts)
      || test_extension exts rest
  end%bool.

(** [inferTypeFromUrl(url?: string)].  A truthy argument that is not a
    string has no [toLowerCase] method. *)
Definition inferTypeFromUrl (url : JsValue) : Completion JsValue :=
  if negb (truthy url) then Normal (VStr "image")
  else match url with
       | VStr u =>
           let lower := toLowerCase u in
           if test_extension ["mp4"; "webm"; "mov"; "m4v"] lower then Normal (VStr "video")
           else if test_extension ["pdf"] lower then Normal (VStr "pdf")
           else if test_extension ["jpg"; "jpeg"; "png"; "gif"; "webp"] lower
                then Normal (VStr "image")
           else Normal (VStr "image")
       | _ => Throw (TypeError "url.toLowerCase is not a function")
       end.

Definition normalizeFit (fit : JsValue) : FitMode :=
  if strict_eq_str fit "cover" then cover
  else if strict_eq_str fit "stretch" then stretch
  else contain.

(** The parser threads the number of interactions with the host made so
    far ([Math.random] and [new Date()] calls). *)
Definition Parser (A : Type) := nat -> Completion (A * nat).

Definition pret {A} (a : A) : Parser A := fun n => Normal (a, n).
Definition pbind {A B} (m : Parser A) (k : A -> Parser B) : Parser B :=
  fun n => match m n with
           | Normal (a, n') => k a n'
           | Throw e => Throw e
           end.
Definition plift {A} (c : Completion A) : Parser A :=
  fun n => match c with
           | Normal a => Normal (a, n)
           | Throw e => Throw e
           end.
Definition fresh_suffix (h : Host) : Parser string :=
  fun n => Normal (random_suffix h n, S n).

Notation "'let*' x ':=' m 'in' k" := (pbind m (fun x => k))
  (at level 10, x name, m at level 100, k at level 200).

(** The four aliases of the display duration, in the order of the [??]
    chain: the first that is neither [null] nor [undefined], if any. *)
Definition displayField (input : JsValue) : JsValue :=
  prop input "display_ms" ??? prop input "displayMs"
    ??? prop input "duration_ms" ??? prop input "durationMs".

(** [normalizeItem(input, mediaUrlMap)].  [mediaUrlMap[mediaId]] is read
    among the map's own keys: a media id that names a member of
    [Object.prototype] ([constructor], [toString], ...) reads the
    inherited member in the program, and such ids are not covered. *)
Definition normalizeItem (h : Host) (input : JsValue) (urlMap : SnapshotMediaUrlMap)
  : Parser (option TimelineItem) :=
  if (negb (truthy input) || negb (typeof_object input))%bool then pret None
  else
    let mediaId := prop input "media_id" ||| prop input "mediaId" ||| prop input "id" in
    let remoteUrl :=
      prop input "media_url" ||| prop input "url" |||
        (if truthy mediaId then default VUndefined (assoc (ToString mediaId) urlMap)
         else VUndefined) in
    let* type := (if truthy (prop input "type" ||| prop input "media_type")
                  then pret (prop input "type" ||| prop input "media_type")
                  else plift (inferTypeFromUrl remoteUrl)) in
    let displayMs :=
      number_or (ToNumber h (displayField input ??? VNum (Int 10000))) 10000 in
    let fit := normalizeFit (prop input "fit" ||| prop input "fit_mode") in
    let muted := truthy (prop input "muted" ??? VBool false) in
    let transitionDurationMs :=
      number_or (ToNumber h (prop input "transition_ms" ??? prop input "transitionDurationMs"
                               ??? VNum (Int 0))) 0 in
    let* id := (if truthy (prop input "id" ||| mediaId)
                then pret (prop input "id" ||| mediaId)
                else (let* sfx := fresh_suffix h in pret (VStr ("item-" ++ sfx)))) in
    pret (Some {|
      ti_id := id;
      ti_mediaId := mediaId ||| id;
      ti_type := type;
      ti_remoteUrl := remoteUrl;
      ti_displayMs := displayMs;
      ti_fit := fit;
      ti_muted := muted;
      ti_sha256 := prop input "sha256";
      ti_meta := prop input "meta";
      ti_transitionDurationMs := transitionDurationMs;
      ti_objectKey := VUndefined;
      ti_localPath := None;
      ti_localUrl := None;
    |}).

Fixpoint dedupe_keys {A : Type} (seen : list string) (l : list (string * A))
  : list (string * A) :=
  match l with
  | [] => []
  | (k, v) :: rest =>
      if existsb (String.eqb k) seen then dedupe_keys seen rest
      else (k, v) :: dedupe_keys (k :: seen) rest
  end.

Fixpoint index_entries (i : nat) (l : list JsValue) : list (string * JsValue) :=
  match l with
  | [] => []
  | v :: rest => (pretty (Z.of_nat i), v) :: index_entries (S i) rest
  end.

(** [Object.entries(v)] for a value with [typeof v === 'object']. *)
Definition Object_entries (v : JsValue) : list (string * JsValue) :=
  match v with
  | VObj fields => dedupe_keys [] fields
  | VArr elems => index_entries 0 elems
  | _ => []
  end.

Definition is_string (v : JsValue) : bool :=
  match v with
  | VStr _ => true
  | _ => false
  end.

(** The loop over [payload.media]: each entry's properties are read
    without a guard. *)
Fixpoint add_media_entries (entries : list JsValue) (map : SnapshotMediaUrlMap)
  : Completion SnapshotMediaUrlMap :=
  match entries with
  | [] => Normal map
  | entry :: rest =>
      match get_prop entry "media_id" with
      | Throw e => Throw e
      | Normal a =>
          let mediaId := a ||| prop entry "mediaId" in
          let url := prop entry "url" ||| prop entry "media_url" in
          add_media_entries rest
            (if (truthy mediaId && truthy url)%bool
             then assoc_set (ToString mediaId) url map else map)
      end
  end.

Definition extractMediaUrlMap (payload : JsValue) : Completion SnapshotMediaUrlMap :=
  let rawMap := prop payload "media_urls" ||| prop payload "mediaUrls" in
  let map :=
    if (truthy rawMap && typeof_object rawMap)%bool
    then fold_left (fun m kv => if is_string (snd kv) then assoc_set (fst kv) (snd kv) m else m)
                   (Object_entries rawMap) []
    else [] in
  match prop payload "media" with
  | VArr entries => add_media_entries entries map
  | _ => Normal map
  end.

(** [inputs.map((item) => normalizeItem(item, mediaUrlMap)).filter(Boolean)] *)
Fixpoint normalizeItems (h : Host) (inputs : list JsValue) (urlMap : SnapshotMediaUrlMap)
  : Parser (list TimelineItem) :=
  match inputs with
  | [] => pret []
  | input :: rest =>
      let* r := normalizeItem h input urlMap in
      let* rs := normalizeItems h rest urlMap in
      pret (match r with Some it => it :: rs | None => rs end)
  end.

Definition parseSnapshotResponse (h : Host) (raw' : JsValue) : Parser NormalizedSnapshot :=
  let payload := opt_prop raw' "snapshot" ||| opt_prop raw' "data" ||| raw' in
  if (negb (truthy payload) || negb (typeof_object payload))%bool
  then plift (Throw (Error "Snapshot payload is not an object"))
  else
    let* urlMap := plift (extractMediaUrlMap payload) in
    let schedule := prop payload "schedule" in
    let itemsSource :=
      if isArray (opt_prop schedule "items") then opt_prop schedule "items"
      else prop payload "items" in
    let* items' :=
      match itemsSource ||| VArr [] with
      | VArr inputs => normalizeItems h inputs urlMap
      | _ => plift (Throw (TypeError "(itemsSource || []).map is not a function"))
      end in
    let emergencyInput := prop payload "emergency" in
    let emergencyActive :=
      (truthy emergencyInput &&
       (match prop emergencyInput "active" with VBool true => true | _ => false end
        || truthy (prop emergencyInput "media_url" ||| prop emergencyInput "url")))%bool in
    let* emergencyItem' :=
      (if emergencyActive then normalizeItem h emergencyInput urlMap else pret None) in
    let defaultInput := prop payload "default_media" in
    let* defaultItem' :=
      (if truthy defaultInput then normalizeItem h defaultInput urlMap else pret None) in
    let* fetched :=
      (if truthy (prop payload "fetched_at" ||| prop payload "generated_at")
       then pret (prop payload "fetched_at" ||| prop payload "generated_at")
       else fun n => Normal (VStr (toISOString h (Date_now h n)), S n)) in
    pret {|
      snapshotId := prop payload "id" ||| prop payload "snapshot_id";
      scheduleId := opt_prop schedule "id";
      items := items';
      emergencyItem := emergencyItem';
      defaultItem := defaultItem';
      mediaUrlMap := urlMap;
      fetchedAt := fetched;
      raw := raw';
    |}.

(* ===================================================================== *)
(** ** Default-media normalisation (services/settings/settings-client.ts)  *)
(* ===================================================================== *)

Inductive DefaultMediaType := IMAGE | VIDEO | DOCUMENT.

Record DefaultMediaItem := {
  dm_id : JsValue;
  dm_name : JsValue;
  dm_type : JsValue;
  dm_media_url : JsValue;
  dm_source_content_type : JsValue;
}.

Record DefaultMediaResponse := {
  media_id : JsValue;
  media : option DefaultMediaItem;
}.

Definition VALID_MEDIA_TYPES : list string := ["IMAGE"; "VIDEO"; "DOCUMENT"].

(** [typeof v === 'string' ? v : dflt] *)
Definition string_or (v dflt : JsValue) : JsValue :=
  if is_string v then v else dflt.

Definition normalizeMediaItem (input : JsValue) : option DefaultMediaItem :=
  if (negb (truthy input) || negb (typeof_object input))%bool then None
  else
    let id := string_or (prop input "id") VUndefined in
    let name := string_or (prop input "name") (VStr "Untitled media") in
    let type :=
      match prop input "type" with
      | VStr t => if existsb (String.eqb t) VALID_MEDIA_TYPES then VStr t else VUndefined
      | _ => VUndefined
      end in
    let mediaUrl := string_or (prop input "media_url") VUndefined in
    let sourceContentType := string_or (prop input "source_content_type") VUndefined in
    if (negb (truthy id) || negb (truthy type) || negb (truthy mediaUrl))%bool then None
    else Some {|
      dm_id := id;
      dm_name := name;
      dm_type := type;
      dm_media_url := mediaUrl;
      dm_source_content_type := sourceContentType;
    |}.

Definition normalizeDefaultMediaResponse (raw' : JsValue) : DefaultMediaResponse :=
  if (negb (truthy raw') || negb (typeof_object raw'))%bool
  then {| media_id := VNull; media := None |}
  else
    let mediaId := string_or (prop raw' "media_id") VNull in
    let media' := normalizeMediaItem (prop raw' "media") in
    match media' with
    | Some m =>
        if truthy mediaId then {| media_id := mediaId; media := Some m |}
        else {| media_id := VNull; media := None |}
    | None => {| media_id := VNull; media := None |}
    end.

(* ===================================================================== *)
(** ** Cache manager (services/cache/cache-manager.ts)                     *)
(* ===================================================================== *)

Inductive EntryStatus := ready | quarantined.

Record CacheEntry := {
  ce_mediaId : string;
  ce_sha256 : JsValue;
  ce_size : Z;
  ce_lastUsedAt : Z;
  ce_localPath : string;
  ce_status : EntryStatus;
}.

(** The fields of the [CacheManager] instance.  [entries] is a JavaScript
    [Map], which iterates in insertion order: an association list. *)
Record CacheManager := {
  cacheDir : string;
  maxBytes : Z;
  entries : list (string * CacheEntry);
  nowPlaying : gset string;
  inFlight : gset string;
}.

Inductive PlaybackMode :=
| mode_normal | mode_emergency | mode_default | mode_offline | mode_empty.

Record PlaybackPlaylist := {
  pl_mode : PlaybackMode;
  pl_items : list TimelineItem;
  pl_scheduleId : JsValue;
  pl_snapshotId : JsValue;
  pl_lastSnapshotAt : JsValue;
}.

(** Observable effects, in the order they happen. *)
Inductive Event :=
| EvHttpGet (url : string)
| EvDownload (url : string)
| EvWriteFile (path : string) (size : Z)
| EvUnlink (path : string)
| EvPersistSnapshot (payload : JsValue)
| EvEmitPlaylistUpdated (playlist : PlaybackPlaylist)
| EvLog (level : string) (msg : string).

Record SnapshotManager := {
  currentSnapshot : option NormalizedSnapshot;
  currentPlaylist : option PlaybackPlaylist;
  lastError : option string;
}.

(** Everything the main process can change: the host interaction count,
    the files of the media directory (name and size, in directory order),
    the two service singletons, the paired device id and the effect log. *)
Record World := {
  ticks : nat;
  disk : list (string * Z);
  cache : CacheManager;
  snapshots : SnapshotManager;
  deviceId : option string;
  trace : list Event;
}.

(** Computations of the main process: they may throw, and what they did
    to the world before throwing stays done. *)
Definition M (A : Type) := World -> Completion A * World.

Definition ret {A} (a : A) : M A := fun w => (Normal a, w).
Definition throw {A} (e : JsError) : M A := fun w => (Throw e, w).
Definition bind {A B} (m : M A) (k : A -> M B) : M B :=
  fun w => match m w with
           | (Normal a, w') => k a w'
           | (Throw e, w') => (Throw e, w')
           end.
(** [try { body } catch (error) { handler }] *)
Definition try_catch {A} (body : M A) (handler : JsError -> M A) : M A :=
  fun w => match body w with
           | (Normal a, w') => (Normal a, w')
           | (Throw e, w') => handler e w'
           end.
(** [try { body } finally { cleanup }] with a cleanup that does not throw. *)
Definition try_finally {A} (body : M A) (cleanup : World -> World) : M A :=
  fun w => let '(r, w') := body w in (r, cleanup w').

Notation "'let!' x ':=' m 'in' k" := (bind m (fun x => k))
  (at level 10, x name, m at level 100, k at level 200).
Notation "m ';;' k" := (bind m (fun _ => k))
  (at level 100, k at level 200, right associativity).

Definition set_ticks (n : nat) (w : World) : World :=
  {| ticks := n; disk := disk w; cache := cache w; snapshots := snapshots w;
     deviceId := deviceId w; trace := trace w |}.
Definition set_disk (d : list (string * Z)) (w : World) : World :=
  {| ticks := ticks w; disk := d; cache := cache w; snapshots := snapshots w;
     deviceId := deviceId w; trace := trace w |}.
Definition set_cache (c : CacheManager) (w : World) : World :=
  {| ticks := ticks w; disk := disk w; cache := c; snapshots := snapshots w;
     deviceId := deviceId w; trace := trace w |}.
Definition set_snapshots (s : SnapshotManager) (w : World) : World :=
  {| ticks := ticks w; disk := disk w; cache := cache w; snapshots := s;
     deviceId := deviceId w; trace := trace w |}.
Definition emit (e : Event) (w : World) : World :=
  {| ticks := ticks w; disk := disk w; cache := cache w; snapshots := snapshots w;
     deviceId := deviceId w; trace := trace w ++ [e] |}.

Definition set_entries (es : list (string * CacheEntry)) (c : CacheManager) : CacheManager :=
  {| cacheDir := cacheDir c; maxBytes := maxBytes c; entries := es;
     nowPlaying := nowPlaying c; inFlight := inFlight c |}.
Definition set_inFlight (f : gset string) (c : CacheManager) : CacheManager :=
  {| cacheDir := cacheDir c; maxBytes := maxBytes c; entries := entries c;
     nowPlaying := nowPlaying c; inFlight := f |}.
Definition set_nowPlaying (p : gset string) (c : CacheManager) : CacheManager :=
  {| cacheDir := cacheDir c; maxBytes := maxBytes c; entries := entries c;
     nowPlaying := p; inFlight := inFlight c |}.

Definition log (level msg : string) : M unit := fun w => (Normal tt, emit (EvLog level msg) w).
Definition modify (f : World -> World) : M unit := fun w => (Normal tt, f w).
Definition gets {A} (f : World -> A) : M A := fun w => (Normal (f w), w).

(** [Date.now()] *)
Definition now (h : Host) : M Z :=
  fun w => (Normal (Date_now h (ticks w)), set_ticks (S (ticks w)) w).

(** [path.join(dir, name)] *)
Definition path_join (dir name : string) : string := dir ++ "/" ++ name.

(** [fs.existsSync(p)] for a path inside the media directory. *)
Definition existsSync (p : string) : M bool :=
  gets (fun w => existsb (fun f => String.eqb (path_join (cacheDir (cache w)) (fst f)) p) (disk w)).

(** [fs.unlinkSync(p)] *)
Definition unlinkSync (p : string) : M unit :=
  modify (fun w =>
    emit (EvUnlink p)
      (set_disk (List.filter (fun f => negb (String.eqb (path_join (cacheDir (cache w)) (fst f)) p))
                        (disk w)) w)).

(** Modelled from the spec: [atomicWrite] of common/utils is not among
    the sources; the spec has it write through a temporary file and a
    rename, so after [atomicWrite(path.join(cacheDir, name), data)] the
    file holds the data. *)
Definition atomicWrite (name : string) (data : Buffer) : M unit :=
  modify (fun w =>
    emit (EvWriteFile (path_join (cacheDir (cache w)) name) (buf_length data))
      (set_disk (assoc_set name (buf_length data) (disk w)) w)).

Definition getFileExtension (h : Host) (url : string) : string :=
  if String.eqb url "" then ""
  else match url_pathname h url with
       | Some pathname => path_extname h pathname
       | None => path_extname h url
       end.

(** The file name part of [getFilePath(mediaId, url)]. *)
Definition getFileName (h : Host) (mediaId url : string) : string :=
  sanitizeFilename h mediaId ++ getFileExtension h url.

Definition getUsedBytes (c : CacheManager) : Z :=
  fold_left (fun total e => total + ce_size (snd e)) (entries c) 0.

(** Stable sort by ascending [lastUsedAt], as [Array.prototype.sort] with
    the comparator [(a, b) => a.lastUsedAt - b.lastUsedAt]. *)
Fixpoint insert_by_lastUsedAt (x : CacheEntry) (l : list CacheEntry) : list CacheEntry :=
  match l with
  | [] => [x]
  | y :: rest =>
      if ce_lastUsedAt x <=? ce_lastUsedAt y then x :: y :: rest
      else y :: insert_by_lastUsedAt x rest
  end.
Definition sort_by_lastUsedAt (l : list CacheEntry) : list CacheEntry :=
  fold_right insert_by_lastUsedAt [] l.

Definition removeEntry (entry : CacheEntry) : M unit :=
  let! present := existsSync (ce_localPath entry) in
  (if present then unlinkSync (ce_localPath entry) else ret tt) ;;
  modify (fun w => set_cache (set_entries (assoc_remove (ce_mediaId entry) (entries (cache w)))
                                          (cache w)) w).

(** The eviction loop; it yields the space available when it stops. *)
Fixpoint evict_candidates (candidates : list CacheEntry) (sizeNeeded available : Z) : M Z :=
  match candidates with
  | [] => ret available
  | entry :: rest =>
      if available >=? sizeNeeded then ret available
      else
        removeEntry entry ;;
        let! available' := gets (fun w => maxBytes (cache w) - getUsedBytes (cache w)) in
        evict_candidates rest sizeNeeded available'
  end.

Definition evictIfNeeded (sizeNeeded : Z) : M unit :=
  let! c := gets cache in
  if ((sizeNeeded >? maxBytes c) && (maxBytes c >? 0))%bool
  then log "warn" "Item exceeds cache capacity, skipping eviction"
  else
    let available := maxBytes c - getUsedBytes c in
    if available >=? sizeNeeded then ret tt
    else
      let candidates :=
        sort_by_lastUsedAt
          (List.filter (fun e => negb (bool_decide (ce_mediaId e ∈ nowPlaying c)))
                  (map snd (entries c))) in
      let! available' := evict_candidates candidates sizeNeeded available in
      if available' <? sizeNeeded
      then log "warn" "Not enough space to evict without touching now-playing items"
      else ret tt.

(** [status === code] for an optional HTTP status. *)
Definition status_is (status : option Z) (code : Z) : bool :=
  match status with
  | Some s => s =? code
  | None => false
  end.

Definition download (h : Host) (url : string) : M Buffer :=
  fun w =>
    let w1 := emit (EvDownload url) (set_ticks (S (ticks w)) w) in
    match axios_get h (ticks w) url with
    | Downloaded data => (Normal data, w1)
    | DownloadFailed status =>
        let w2 := emit (EvLog "error" "Failed to download cache item") w1 in
        if (status_is status 401 || status_is status 403)%bool
        then (Throw (CacheError "Presigned URL expired" status (Some "URL_EXPIRED")), w2)
        else (Throw (CacheError "Failed to download cache item" status None), w2)
    end.

Definition touch (t : Z) (e : CacheEntry) : CacheEntry :=
  {| ce_mediaId := ce_mediaId e; ce_sha256 := ce_sha256 e; ce_size := ce_size e;
     ce_lastUsedAt := t; ce_localPath := ce_localPath e; ce_status := ce_status e |}.

Definition set_entry (mediaId : string) (e : CacheEntry) : M unit :=
  modify (fun w => set_cache (set_entries (assoc_set mediaId e (entries (cache w))) (cache w)) w).

Definition delete_entry (mediaId : string) : M unit :=
  modify (fun w => set_cache (set_entries (assoc_remove mediaId (entries (cache w))) (cache w)) w).

Definition startsWith (s p : string) : bool :=
  match strip_prefix p s with
  | Some _ => true
  | None => false
  end.

Definition has (h : Host) (mediaId : string) : M bool :=
  let! entry := gets (fun w => assoc mediaId (entries (cache w))) in
  let! present :=
    (match entry with
     | Some e => existsSync (ce_localPath e)
     | None => ret false
     end) in
  match entry, present with
  | Some e, true =>
      let! t := now h in
      set_entry mediaId (touch t e) ;;
      ret true
  | _, _ =>
      let safeId := sanitizeFilename h mediaId in
      let! files := gets disk in
      match find (fun f => String.eqb (fst f) safeId || startsWith (fst f) (safeId ++ "."))%bool
                 files with
      | Some (name, size) =>
          let! dir := gets (fun w => cacheDir (cache w)) in
          let! t := now h in
          set_entry mediaId
            {| ce_mediaId := mediaId; ce_sha256 := VStr ""; ce_size := size;
               ce_lastUsedAt := t; ce_localPath := path_join dir name; ce_status := ready |} ;;
          ret true
      | None =>
          delete_entry mediaId ;;
          ret false
      end
  end.

(** [get(mediaId)]: the local path, or [None] for [undefined]. *)
Definition get (h : Host) (mediaId : string) : M (option string) :=
  let! exists_ := has h mediaId in
  if negb exists_ then ret None
  else gets (fun w => ce_localPath <$> assoc mediaId (entries (cache w))).

Definition addInternal (h : Host) (mediaId url : string) (sha256 : JsValue) : M unit :=
  let! data := download h url in
  let hash := buf_sha256 data in
  if (truthy sha256 && negb (strict_eq_str sha256 hash))%bool
  then throw (CacheError "Cache item failed integrity validation" None None)
  else
    evictIfNeeded (buf_length data) ;;
    let name := getFileName h mediaId url in
    atomicWrite name data ;;
    let! dir := gets (fun w => cacheDir (cache w)) in
    let! t := now h in
    set_entry mediaId
      {| ce_mediaId := mediaId; ce_sha256 := sha256 ||| VStr hash; ce_size := buf_length data;
         ce_lastUsedAt := t; ce_localPath := path_join dir name; ce_status := ready |} ;;
    log "info" "Cached item added".

(** [add(mediaId, url, sha256?)].  A pending operation found in [inFlight]
    belongs to an interleaved call; awaiting it downloads nothing here. *)
Definition add (h : Host) (mediaId url : string) (sha256 : JsValue) : M unit :=
  let! present := has h mediaId in
  if present then ret tt
  else
    let! pending := gets (fun w => bool_decide (mediaId ∈ inFlight (cache w))) in
    if pending then ret tt
    else
      modify (fun w => set_cache (set_inFlight ({[mediaId]} ∪ inFlight (cache w)) (cache w)) w) ;;
      try_finally (addInternal h mediaId url sha256)
        (fun w => set_cache (set_inFlight (inFlight (cache w) ∖ {[mediaId]}) (cache w)) w).

Definition markNowPlaying (mediaId : string) : M unit :=
  modify (fun w => set_cache (set_nowPlaying ({[mediaId]} ∪ nowPlaying (cache w)) (cache w)) w).

Definition unmarkNowPlaying (mediaId : string) : M unit :=
  modify (fun w => set_cache (set_nowPlaying (nowPlaying (cache w) ∖ {[mediaId]}) (cache w)) w).

(* ===================================================================== *)
(** ** Snapshot manager (services/snapshot-manager.ts)                     *)
(* ===================================================================== *)

(** The cache interface is declared over strings.  An item whose id or URL
    is a truthy value of another type cannot be served by it: such a call
    is taken to fail ([add]) or to miss ([get]). *)
Definition as_string (v : JsValue) : option string :=
  match v with
  | VStr s => Some s
  | _ => None
  end.

Definition is_url_expired (e : JsError) : bool :=
  match e with
  | CacheError _ _ (Some reason) => String.eqb reason "URL_EXPIRED"
  | _ => false
  end.

(** The loop of [cacheSnapshotMedia] over [allItems].  [add] takes
    strings: for an id or URL that is truthy and not a string, what the
    call does before it fails is not followed; the failure itself is
    caught and logged by the loop like any other. *)
Fixpoint cacheItems (h : Host) (allItems : list TimelineItem) : M unit :=
  match allItems with
  | [] => ret tt
  | item :: rest =>
      (if (negb (truthy (ti_mediaId item)) || negb (truthy (ti_remoteUrl item)))%bool
       then ret tt
       else
         try_catch
           (match as_string (ti_mediaId item), as_string (ti_remoteUrl item) with
            | Some mediaId, Some url => add h mediaId url (ti_sha256 item)
            | _, _ => throw (TypeError "cache add called with a value that is not a string")
            end)
           (fun error =>
              if is_url_expired error then throw error
              else log "warn" "Failed to cache media item")) ;;
      cacheItems h rest
  end.

Definition cacheSnapshotMedia (h : Host) (snapshot : NormalizedSnapshot) : M unit :=
  cacheItems h (items snapshot ++ option_list (emergencyItem snapshot)
                               ++ option_list (defaultItem snapshot)).

Definition with_local (item : TimelineItem) (localPath localUrl : string) : TimelineItem :=
  {| ti_id := ti_id item; ti_mediaId := ti_mediaId item; ti_type := ti_type item;
     ti_remoteUrl := ti_remoteUrl item; ti_displayMs := ti_displayMs item;
     ti_fit := ti_fit item; ti_muted := ti_muted item; ti_sha256 := ti_sha256 item;
     ti_meta := ti_meta item; ti_transitionDurationMs := ti_transitionDurationMs item;
     ti_objectKey := ti_objectKey item;
     ti_localPath := Some localPath; ti_localUrl := Some localUrl |}.

Fixpoint attachLocalMedia (h : Host) (items' : list TimelineItem) : M (list TimelineItem) :=
  match items' with
  | [] => ret []
  | item :: rest =>
      let mediaId := ti_mediaId item ||| ti_objectKey item in
      let! localPath :=
        (if truthy mediaId
         then match as_string mediaId with
              | Some m => get h m
              | None => ret None
              end
         else ret None) in
      match localPath with
      | Some p =>
          if String.eqb p "" then
            log "warn" "Media not cached, skipping item" ;;
            attachLocalMedia h rest
          else
            let! hydrated := attachLocalMedia h rest in
            ret (with_local item p (pathToFileURL h p) :: hydrated)
      | None =>
          log "warn" "Media not cached, skipping item" ;;
          attachLocalMedia h rest
      end
  end.

(** The mode and the items chosen by the first four branches of
    [buildPlaylist], before local media are attached. *)
Definition selectPlaylist (snapshot : NormalizedSnapshot) (fallbackMode : PlaybackMode)
  : PlaybackMode * list TimelineItem :=
  match emergencyItem snapshot with
  | Some e => (mode_emergency, [e])
  | None =>
      if (0 <? length (items snapshot))%nat then (mode_normal, items snapshot)
      else match defaultItem snapshot with
           | Some d => (mode_default, [d])
           | None => (fallbackMode, [])
           end
  end.

Definition buildPlaylist (h : Host) (snapshot : NormalizedSnapshot) (fallbackMode : PlaybackMode)
  : M PlaybackPlaylist :=
  let '(mode, items') := selectPlaylist snapshot fallbackMode in
  let! hydrated := attachLocalMedia h items' in
  ret {| pl_mode := mode;
         pl_items := hydrated;
         pl_scheduleId := scheduleId snapshot;
         pl_snapshotId := snapshotId snapshot;
         pl_lastSnapshotAt := fetchedAt snapshot |}.

(** [applyOfflineFallback(reason)].  Here and in [refreshAttempt] the
    listeners of [playlist-updated] are taken to return, so that [emit]
    is the record of the announcement; [Listening], further down, has the
    cycle with listeners that may throw. *)
Definition applyOfflineFallback (h : Host) (reason : string) : M PlaybackPlaylist :=
  modify (fun w => set_snapshots
            {| currentSnapshot := currentSnapshot (snapshots w);
               currentPlaylist := currentPlaylist (snapshots w);
               lastError := Some reason |} w) ;;
  let! sm := gets snapshots in
  match currentSnapshot sm with
  | Some snapshot =>
      let! playlist := buildPlaylist h snapshot mode_offline in
      modify (fun w => set_snapshots
                {| currentSnapshot := currentSnapshot (snapshots w);
                   currentPlaylist := Some playlist;
                   lastError := lastError (snapshots w) |} w) ;;
      modify (emit (EvEmitPlaylistUpdated playlist)) ;;
      ret playlist
  | None =>
      let playlist :=
        {| pl_mode := mode_empty; pl_items := [];
           pl_scheduleId := VUndefined; pl_snapshotId := VUndefined;
           pl_lastSnapshotAt :=
             match currentPlaylist sm with
             | Some p => pl_lastSnapshotAt p
             | None => VUndefined
             end |} in
      modify (fun w => set_snapshots
                {| currentSnapshot := currentSnapshot (snapshots w);
                   currentPlaylist := Some playlist;
                   lastError := lastError (snapshots w) |} w) ;;
      modify (emit (EvEmitPlaylistUpdated playlist)) ;;
      ret playlist
  end.

(** [httpClient.get(url)]; a failed request rejects with an error whose
    [response.status] is the HTTP status, when there was a response. *)
Definition httpGet (h : Host) (url : string) : M JsValue :=
  fun w =>
    let w1 := emit (EvHttpGet url) (set_ticks (S (ticks w)) w) in
    match http_get h (ticks w) url with
    | HttpOk body => (Normal body, w1)
    | HttpFail status message => (Throw (HttpError status message), w1)
    end.

Definition run_parser {A} (p : Parser A) : M A :=
  fun w => match p (ticks w) with
           | Normal (a, n) => (Normal a, set_ticks n w)
           | Throw e => (Throw e, w)
           end.

(** [persistSnapshot]: the raw payload of a parsed snapshot is never
    nullish, so that is what is written. *)
Definition persistSnapshot (snapshot : NormalizedSnapshot) : M unit :=
  modify (emit (EvPersistSnapshot (raw snapshot))).

(** [error?.response?.status] *)
Definition response_status (e : JsError) : option Z :=
  match e with
  | HttpError status _ => status
  | _ => None
  end.

Definition snapshot_url (deviceId' : string) : string :=
  "/api/v1/device/" ++ deviceId' ++ "/snapshot?include_urls=true".

(** The [try] block of [refreshSnapshot]. *)
Definition refreshAttempt (h : Host) (deviceId' : string) : M (option PlaybackPlaylist) :=
  let! response := httpGet h (snapshot_url deviceId') in
  (if (truthy response && typeof_object response &&
       match prop response "success" with VBool false => true | _ => false end)%bool
   then
     let message :=
       opt_prop (prop response "error") "message" ||| VStr "Snapshot request failed" in
     throw (Error (ToString message))
   else ret tt) ;;
  let! normalized := run_parser (parseSnapshotResponse h response) in
  persistSnapshot normalized ;;
  cacheSnapshotMedia h normalized ;;
  let! playlist := buildPlaylist h normalized mode_normal in
  modify (set_snapshots {| currentSnapshot := Some normalized;
                           currentPlaylist := Some playlist;
                           lastError := None |}) ;;
  modify (emit (EvEmitPlaylistUpdated playlist)) ;;
  ret (Some playlist).

(** The offline path taken by the [catch] block. *)
Definition fallBack (h : Host) (level msg reason : string) : M (option PlaybackPlaylist) :=
  log level msg ;;
  let! p := applyOfflineFallback h reason in
  ret (Some p).

(** The [catch] block of [refreshSnapshot]; [self] stands for the method
    itself in the one place where it calls itself. *)
Definition refreshRecover (h : Host) (self : bool -> M (option PlaybackPlaylist))
  (retryOnExpired : bool) (error : JsError) : M (option PlaybackPlaylist) :=
  if status_is (response_status error) 404 then
    fallBack h "warn" "Snapshot not found (404), using offline fallback if available"
      "No published snapshot available"
  else if (is_url_expired error && retryOnExpired)%bool then
    log "warn" "Media URL expired, refetching snapshot" ;;
    self false
  else
    fallBack h "error" "Snapshot fetch failed, using offline fallback" (error_message error).

Definition refreshSnapshot_body (h : Host)
  (self : bool -> M (option PlaybackPlaylist)) (retryOnExpired : bool)
  : M (option PlaybackPlaylist) :=
  let! dev := gets deviceId in
  match dev with
  | None => ret None
  | Some deviceId' =>
      if String.eqb deviceId' "" then ret None
      else try_catch (refreshAttempt h deviceId') (refreshRecover h self retryOnExpired)
  end.

(** [refreshSnapshot(retryOnExpired = true)].  The method calls itself only
    with the flag cleared, and a call with the flag cleared never calls
    itself, so two unfoldings of the body are the whole recursion (see
    [refreshSnapshot_unfold]). *)
Definition refreshSnapshot (h : Host) (retryOnExpired : bool) : M (option PlaybackPlaylist) :=
  refreshSnapshot_body h (refreshSnapshot_body h (fun _ => ret None)) retryOnExpired.

(* ===================================================================== *)
(** ** Certificate renewal (services/cert-manager.ts)                      *)
(* ===================================================================== *)

(** Dates are held as milliseconds since the epoch ([getTime()]). *)
Record CertificateInfo := {
  subject : string;
  issuer : string;
  validFrom : Z;
  validTo : Z;
  serialNumber : string;
  fingerprint : string;
}.

(** What [getCertificateInfo] finds at [certPath]. *)
Inductive CertFile :=
| NoCertFile
| UnparsableCert
| ParsedCert (info : CertificateInfo).

Definition getCertificateInfo (f : CertFile) : option CertificateInfo :=
  match f with
  | NoCertFile => None
  | UnparsableCert => None
  | ParsedCert info => Some info
  end.

Definition MS_PER_DAY : Z := 1000 * 60 * 60 * 24.

(** [needsRenewal()], given the file, [config.mtls.renewBeforeDays] and
    the current time.  [Z.div] rounds down, as [Math.floor] does. *)
Definition needsRenewal (f : CertFile) (renewBeforeDays now' : Z) : bool :=
  match getCertificateInfo f with
  | None => true
  | Some certInfo =>
      let daysUntilExpiry := (validTo certInfo - now') / MS_PER_DAY in
      if daysUntilExpiry <=? renewBeforeDays then true else false
  end.

(** [verifyCertificate()], given whether all three files are present. *)
Definition verifyCertificate (present : bool) (f : CertFile) (now' : Z) : bool :=
  if negb present then false
  else match getCertificateInfo f with
       | None => false
       | Some certInfo =>
           if ((now' <? validFrom certInfo) || (now' >? validTo certInfo))%bool then false
           else true
       end.

(* ===================================================================== *)
(** ** Playback engine (services/playback/playback-engine.ts)              *)
(* ===================================================================== *)

Inductive PlaybackState :=
| state_stopped | state_playing | state_paused | state_error | state_emergency.

Inductive EngineEvent :=
| playback_started
| playback_stopped
| item_playing (item : TimelineItem)
| item_completed (item : TimelineItem)
| transition_start (current : TimelineItem) (next : option TimelineItem)
| playback_error (message detail : string).   (* new PlaybackError(message, { error: detail }) *)

(** Calls the engine makes on its collaborators. *)
Inductive EngineEffect :=
| SchedulerStop
| SchedulerStart (its : list TimelineItem)
| CacheMarkNowPlaying (mediaId : JsValue)
| CacheUnmarkNowPlaying (mediaId : JsValue)
| PopRecordStart (schedule mediaId : JsValue)
| PopRecordEnd (schedule mediaId : JsValue) (completed : bool)
| TelemetrySetCurrentMedia (mediaId : JsValue)
| TelemetrySetCurrentSchedule (schedule : JsValue)
| TelemetryReportError (msg : string)
| SendMediaChange (item : TimelineItem)
| SendTransitionStart (current next : TimelineItem) (durationMs : JsNumber)
| SendShowFallback (msg : string)
| Emit (e : EngineEvent).

(** The engine's fields; the scheduler is seen through whether it is
    running, the window through whether [initialize] has attached one. *)
Record PlaybackEngine := {
  pe_state : PlaybackState;
  pe_schedulerRunning : bool;
  pe_mainWindow : bool;
  pe_currentItem : option TimelineItem;
  pe_currentScheduleId : JsValue;
  pe_errorCount : Z;
  pe_effects : list EngineEffect;
}.

Definition maxErrors : Z := 5.

Definition newPlaybackEngine : PlaybackEngine :=
  {| pe_state := state_stopped; pe_schedulerRunning := false; pe_mainWindow := false;
     pe_currentItem := None; pe_currentScheduleId := VUndefined; pe_errorCount := 0;
     pe_effects := [] |}.

Definition initialize (e : PlaybackEngine) : PlaybackEngine :=
  {| pe_state := pe_state e; pe_schedulerRunning := pe_schedulerRunning e;
     pe_mainWindow := true; pe_currentItem := pe_currentItem e;
     pe_currentScheduleId := pe_currentScheduleId e; pe_errorCount := pe_errorCount e;
     pe_effects := pe_effects e |}.

Definition effect (x : EngineEffect) (e : PlaybackEngine) : PlaybackEngine :=
  {| pe_state := pe_state e; pe_schedulerRunning := pe_schedulerRunning e;
     pe_mainWindow := pe_mainWindow e; pe_currentItem := pe_currentItem e;
     pe_currentScheduleId := pe_currentScheduleId e; pe_errorCount := pe_errorCount e;
     pe_effects := pe_effects e ++ [x] |}.

Definition set_state (s : PlaybackState) (e : PlaybackEngine) : PlaybackEngine :=
  {| pe_state := s; pe_schedulerRunning := pe_schedulerRunning e;
     pe_mainWindow := pe_mainWindow e; pe_currentItem := pe_currentItem e;
     pe_currentScheduleId := pe_currentScheduleId e; pe_errorCount := pe_errorCount e;
     pe_effects := pe_effects e |}.

Definition set_running (b : bool) (e : PlaybackEngine) : PlaybackEngine :=
  {| pe_state := pe_state e; pe_schedulerRunning := b;
     pe_mainWindow := pe_mainWindow e; pe_currentItem := pe_currentItem e;
     pe_currentScheduleId := pe_currentScheduleId e; pe_errorCount := pe_errorCount e;
     pe_effects := pe_effects e |}.

Definition set_currentItem (i : option TimelineItem) (e : PlaybackEngine) : PlaybackEngine :=
  {| pe_state := pe_state e; pe_schedulerRunning := pe_schedulerRunning e;
     pe_mainWindow := pe_mainWindow e; pe_currentItem := i;
     pe_currentScheduleId := pe_currentScheduleId e; pe_errorCount := pe_errorCount e;
     pe_effects := pe_effects e |}.

Definition set_currentScheduleId (v : JsValue) (e : PlaybackEngine) : PlaybackEngine :=
  {| pe_state := pe_state e; pe_schedulerRunning := pe_schedulerRunning e;
     pe_mainWindow := pe_mainWindow e; pe_currentItem := pe_currentItem e;
     pe_currentScheduleId := v; pe_errorCount := pe_errorCount e;
     pe_effects := pe_effects e |}.

Definition set_errorCount (n : Z) (e : PlaybackEngine) : PlaybackEngine :=
  {| pe_state := pe_state e; pe_schedulerRunning := pe_schedulerRunning e;
     pe_mainWindow := pe_mainWindow e; pe_currentItem := pe_currentItem e;
     pe_currentScheduleId := pe_currentScheduleId e; pe_errorCount := n;
     pe_effects := pe_effects e |}.

(** [stop()] *)
Definition stop (e : PlaybackEngine) : PlaybackEngine :=
  effect (Emit playback_stopped)
    (set_currentItem None
       (set_state state_stopped
          (set_running false (effect SchedulerStop e)))).

(** [handleError(error)], given [error.message]. *)
Definition handleError (msg : string) (e : PlaybackEngine) : PlaybackEngine :=
  let e1 := set_errorCount (pe_errorCount e + 1) e in
  let e2 := effect (TelemetryReportError msg) e1 in
  if pe_errorCount e2 >=? maxErrors then
    effect (Emit (playback_error "Max errors reached" msg))
      (set_state state_error (stop e2))
  else
    if pe_mainWindow e2 then effect (SendShowFallback msg) e2 else e2.

(** The collaborator calls of [handlePlayItem], any of which may throw. *)
Inductive PlayStage := AtMarkNowPlaying | AtRecordStart | AtSetCurrentMedia | AtSend | AtEmit.

Definition stage_eqb (a b : PlayStage) : bool :=
  match a, b with
  | AtMarkNowPlaying, AtMarkNowPlaying | AtRecordStart, AtRecordStart
  | AtSetCurrentMedia, AtSetCurrentMedia | AtSend, AtSend | AtEmit, AtEmit => true
  | _, _ => false
  end.

(** One collaborator call: it either throws, as [failure] says, or takes
    effect. *)
Definition call (failure : option (PlayStage * string)) (stage : PlayStage)
  (x : EngineEffect) (r : Completion unit * PlaybackEngine) : Completion unit * PlaybackEngine :=
  match r with
  | (Throw err, e) => (Throw err, e)
  | (Normal _, e) =>
      match failure with
      | Some (s, msg) => if stage_eqb s stage then (Throw (Error msg), e)
                         else (Normal tt, effect x e)
      | None => (Normal tt, effect x e)
      end
  end.

Definition skip (r : Completion unit * PlaybackEngine) := r.

(** [handlePlayItem(scheduledItem)] *)
Definition handlePlayItem (item : TimelineItem) (failure : option (PlayStage * string))
  (e : PlaybackEngine) : Completion unit * PlaybackEngine :=
  let e0 := set_currentItem (Some item) e in
  let mediaId := ti_mediaId item ||| ti_objectKey item in
  let r1 := (if truthy mediaId
             then call failure AtMarkNowPlaying (CacheMarkNowPlaying mediaId)
             else skip) (Normal tt, e0) in
  let r2 := (if truthy (pe_currentScheduleId e0)
             then call failure AtRecordStart
                    (PopRecordStart (pe_currentScheduleId e0) (ti_mediaId item ||| ti_id item))
             else skip) r1 in
  let r3 := call failure AtSetCurrentMedia
              (TelemetrySetCurrentMedia (ti_mediaId item ||| ti_id item)) r2 in
  let r4 := (if pe_mainWindow e0 then call failure AtSend (SendMediaChange item) else skip) r3 in
  call failure AtEmit (Emit (item_playing item)) r4.

(** The scheduler's [play-item] listener:
    [handlePlayItem(item).catch((error) => handleError(error))]. *)
Definition onPlayItem (item : TimelineItem) (failure : option (PlayStage * string))
  (e : PlaybackEngine) : PlaybackEngine :=
  match handlePlayItem item failure e with
  | (Normal _, e') => e'
  | (Throw err, e') => handleError (error_message err) e'
  end.

Definition handleItemComplete (item : TimelineItem) (e : PlaybackEngine) : PlaybackEngine :=
  let mediaId := ti_mediaId item ||| ti_objectKey item in
  let e1 := if truthy mediaId then effect (CacheUnmarkNowPlaying mediaId) e else e in
  let e2 := if truthy (pe_currentScheduleId e1)
            then effect (PopRecordEnd (pe_currentScheduleId e1)
                           (ti_mediaId item ||| ti_id item) true) e1
            else e1 in
  effect (Emit (item_completed item)) e2.

Definition handleTransitionStart (current : TimelineItem) (next : option TimelineItem)
  (e : PlaybackEngine) : PlaybackEngine :=
  let e1 := match pe_mainWindow e, next with
            | true, Some n =>
                effect (SendTransitionStart current n
                          (number_or (ti_transitionDurationMs current) 0)) e
            | _, _ => e
            end in
  effect (Emit (transition_start current next)) e1.

(** [startPlaylist(playlist)] *)
Definition startPlaylist (playlist : PlaybackPlaylist) (e : PlaybackEngine)
  : Completion unit * PlaybackEngine :=
  let e1 := set_currentScheduleId (pl_scheduleId playlist ||| pl_snapshotId playlist) e in
  let e2 := set_running false (effect SchedulerStop e1) in
  if (length (pl_items playlist) =? 0)%nat then (Throw (Error "Playlist is empty"), e2)
  else
    let e3 := set_state (match pl_mode playlist with
                         | mode_emergency => state_emergency
                         | _ => state_playing
                         end) e2 in
    let e4 := set_running true (effect (SchedulerStart (pl_items playlist)) e3) in
    (Normal tt,
     if truthy (pe_currentScheduleId e4)
     then effect (TelemetrySetCurrentSchedule (pe_currentScheduleId e4)) e4
     else e4).

(** The snapshot manager's [playlist-updated] listener. *)
Definition onPlaylistUpdated (playlist : PlaybackPlaylist) (e : PlaybackEngine) : PlaybackEngine :=
  snd (startPlaylist playlist (stop e)).

(** [start()], given [snapshotManager.getCurrentPlaylist()]. *)
Definition start (current : option PlaybackPlaylist) (e : PlaybackEngine)
  : Completion unit * PlaybackEngine :=
  match pe_state e with
  | state_playing => (Normal tt, e)
  | _ =>
      let attempt :=
        match current with
        | None => (Throw (Error "No playlist available"), e)
        | Some playlist =>
            if (length (pl_items playlist) =? 0)%nat
            then (Throw (Error "No playlist available"), e)
            else match startPlaylist playlist e with
                 | (Normal _, e') => (Normal tt, effect (Emit playback_started) e')
                 | r => r
                 end
        end in
      match attempt with
      | (Normal _, e') => (Normal tt, e')
      | (Throw err, e') =>
          (Throw err, handleError (error_message err) (set_state state_error e'))
      end
  end.

(** What can happen to a running engine. *)
Inductive EngineInput :=
| PlayItem (item : TimelineItem) (failure : option (PlayStage * string))
| ItemComplete (item : TimelineItem)
| TransitionStart (current : TimelineItem) (next : option TimelineItem)
| TimelineComplete
| PlaylistUpdated (playlist : PlaybackPlaylist)
| Start (current : option PlaybackPlaylist)
| Stop.

Definition engine_step (e : PlaybackEngine) (i : EngineInput) : PlaybackEngine :=
  match i with
  | PlayItem item failure => onPlayItem item failure e
  | ItemComplete item => handleItemComplete item e
  | TransitionStart current next => handleTransitionStart current next e
  | TimelineComplete => e
  | PlaylistUpdated playlist => onPlaylistUpdated playlist e
  | Start current => snd (start current e)
  | Stop => stop e
  end.

Definition engine_run (e : PlaybackEngine) (inputs : list EngineInput) : PlaybackEngine :=
  fold_left engine_step inputs e.

(* ===================================================================== *)
(** ** Command processor (services/command-processor.ts)                   *)
(* ===================================================================== *)

Record Command := {
  cmd_id : string;
  cmd_type : string;
  cmd_force : bool;        (* params?.force === true *)
}.

(** A [CommandResult] without its [timestamp], an ISO rendering of the
    wall clock at the moment the result is built. *)
Record CommandResult := {
  success : bool;
  message : option string;
  error : option string;
  data : option string;
}.

(** What the collaborator called by a handler does: the schedule refresh,
    the screenshot capture and upload (which yields an object key), the
    cache clear. *)
Inductive Outcome :=
| Completed (value : string)
| Failed (msg : string).

(** [Dispatched]: the command passed both gates and entered the [switch],
    at the given time; [Acknowledged]: [acknowledgeCommand] was called
    with this result (what the call sends is [ack_request]). *)
Inductive ProcessorEvent :=
| Dispatched (type id : string) (at_ : Z)
| Acknowledged (id : string) (result : CommandResult).

Record CommandProcessor := {
  processingCommands : gset string;
  commandHistory : list (string * CommandResult);
  rateLimitMap : gmap string Z;
  cp_events : list ProcessorEvent;
}.

Definition maxHistorySize : nat := 100.
Definition rateLimitWindowMs : Z := 60000.

Definition newCommandProcessor : CommandProcessor :=
  {| processingCommands := ∅; commandHistory := []; rateLimitMap := ∅; cp_events := [] |}.

Definition ok_result (msg : string) (d : option string) : CommandResult :=
  {| success := true; message := Some msg; error := None; data := d |}.
Definition failure_result (msg : string) : CommandResult :=
  {| success := false; message := None; error := Some msg; data := None |}.

(** [isRateLimited(commandType)] with [Date.now()] returning [now'].  A
    missing timestamp and the timestamp 0 are both falsy. *)
Definition isRateLimited (p : CommandProcessor) (commandType : string) (now' : Z) : bool :=
  match rateLimitMap p !! commandType with
  | None => false
  | Some lastExecution =>
      if lastExecution =? 0 then false
      else now' - lastExecution <? rateLimitWindowMs
  end.

Definition record_event (x : ProcessorEvent) (p : CommandProcessor) : CommandProcessor :=
  {| processingCommands := processingCommands p; commandHistory := commandHistory p;
     rateLimitMap := rateLimitMap p; cp_events := cp_events p ++ [x] |}.


(** [acknowledgeCommand(commandId, result)]: the call never throws and
    leaves the processor's fields alone.  The event records the call and
    the result it was given. *)
Definition acknowledgeCommand (commandId : string) (result : CommandResult)
  (p : CommandProcessor) : CommandProcessor :=
  record_event (Acknowledged commandId result) p.

Definition updateRateLimit (commandType : string) (now' : Z) (p : CommandProcessor)
  : CommandProcessor :=
  {| processingCommands := processingCommands p; commandHistory := commandHistory p;
     rateLimitMap := <[commandType := now']> (rateLimitMap p); cp_events := cp_events p |}.

Definition set_processing (s : gset string) (p : CommandProcessor) : CommandProcessor :=
  {| processingCommands := s; commandHistory := commandHistory p;
     rateLimitMap := rateLimitMap p; cp_events := cp_events p |}.

(** [commandHistory.set(id, result)] followed by the FIFO bound. *)
Definition remember (id : string) (result : CommandResult) (p : CommandProcessor)
  : CommandProcessor :=
  let hist := assoc_set id result (commandHistory p) in
  let hist' := if (maxHistorySize <? length hist)%nat then tl hist else hist in
  {| processingCommands := processingCommands p; commandHistory := hist';
     rateLimitMap := rateLimitMap p; cp_events := cp_events p |}.

Definition of_outcome (o : Outcome) (msg : string) (with_data : bool) : CommandResult :=
  match o with
  | Completed v => ok_result msg (if with_data then Some v else None)
  | Failed m => failure_result m
  end.

(** The [switch] of [processCommand]: the result of the handler for the
    command's type. *)
Definition dispatch (command : Command) (o : Outcome) : CommandResult :=
  let t := cmd_type command in
  if String.eqb t "REBOOT" then ok_result "Reboot initiated" None
  else if String.eqb t "REFRESH_SCHEDULE" then of_outcome o "Schedule refreshed" false
  else if String.eqb t "SCREENSHOT" then of_outcome o "Screenshot captured" true
  else if String.eqb t "TEST_PATTERN" then ok_result "Test pattern displayed" None
  else if String.eqb t "CLEAR_CACHE" then of_outcome o "Cache cleared" false
  else if String.eqb t "PING" then ok_result "Pong" (Some "uptime, version")
  else failure_result ("Unknown command type: " ++ t).

(** One command as the poll loop meets it: the command, the time at which
    [processCommand] is entered, what the collaborator does, and the time at
    which the rate-limit timestamp is written. *)
Record Arrival := {
  arr_command : Command;
  arr_at : Z;
  arr_outcome : Outcome;
  arr_done : Z;
}.

(** [processCommand(command)] up to the [await] of its handler: the two
    gates, the mark in [processingCommands] and the entry into the
    [switch].  The boolean tells whether the switch was entered. *)
Definition processCommand_enter (p : CommandProcessor) (a : Arrival)
  : CommandProcessor * bool :=
  let command := arr_command a in
  if bool_decide (cmd_id command ∈ processingCommands p) then (p, false)
  else if isRateLimited p (cmd_type command) (arr_at a) then
    (acknowledgeCommand (cmd_id command) (failure_result "Rate limited") p, false)
  else
    let p1 := set_processing ({[cmd_id command]} ∪ processingCommands p) p in
    (record_event (Dispatched (cmd_type command) (cmd_id command) (arr_at a)) p1, true).

(** [processCommand(command)] from the moment its handler has settled:
    the history, the acknowledgement, the rate-limit stamp and the
    [finally] block.  The [await] of the acknowledgement, between the
    call and the stamp, is not split off. *)
Definition processCommand_settle (p : CommandProcessor) (a : Arrival) : CommandProcessor :=
  let command := arr_command a in
  let result := dispatch command (arr_outcome a) in
  let p3 := remember (cmd_id command) result p in
  let p4 := acknowledgeCommand (cmd_id command) result p3 in
  let p5 := updateRateLimit (cmd_type command) (arr_done a) p4 in
  set_processing (processingCommands p5 ∖ {[cmd_id command]}) p5.

(** [await processCommand(command)] with no other call running in
    between. *)
Definition processCommand (p : CommandProcessor) (a : Arrival) : CommandProcessor :=
  let (p1, entered) := processCommand_enter p a in
  if entered then processCommand_settle p1 a else p1.

(** [pollCommands]: the commands of one or more polls, in receive order. *)
Definition processCommands (p : CommandProcessor) (arrivals : list Arrival) : CommandProcessor :=
  fold_left processCommand arrivals p.





(* ===================================================================== *)
(** ** Player flow (services/player-flow.ts)                               *)
(* ===================================================================== *)

(** The states the flow moves between. *)
Inductive PlayerState :=
| BOOT | NEED_PAIRING | PAIRING_REQUESTED | WAITING_CONFIRMATION
| CERT_ISSUED | PLAYBACK_RUNNING | OFFLINE_FALLBACK.

Record PlayerStatus := {
  st_state : PlayerState;
  st_mode : PlaybackMode;
  st_online : bool;
  st_deviceId : JsValue;
  st_scheduleId : JsValue;
  st_currentMediaId : JsValue;
  st_lastSnapshotAt : JsValue;
  st_error : JsValue;
}.

(** A [Partial<PlayerStatus>]: [None] stands for a key the object does
    not have. *)
Record StatusUpdate := {
  up_state : option PlayerState;
  up_mode : option PlaybackMode;
  up_online : option bool;
  up_deviceId : option JsValue;
  up_scheduleId : option JsValue;
  up_currentMediaId : option JsValue;
  up_lastSnapshotAt : option JsValue;
  up_error : option JsValue;
}.

(** [{ ...status, ...update }] *)
Definition spread (status : PlayerStatus) (update : StatusUpdate) : PlayerStatus :=
  {| st_state := default (st_state status) (up_state update);
     st_mode := default (st_mode status) (up_mode update);
     st_online := default (st_online status) (up_online update);
     st_deviceId := default (st_deviceId status) (up_deviceId update);
     st_scheduleId := default (st_scheduleId status) (up_scheduleId update);
     st_currentMediaId := default (st_currentMediaId status) (up_currentMediaId update);
     st_lastSnapshotAt := default (st_lastSnapshotAt status) (up_lastSnapshotAt update);
     st_error := default (st_error status) (up_error update) |}.

(** The [status] event and the [player-status] message to the renderer. *)
Inductive FlowEvent :=
| EmitStatus (status : PlayerStatus)
| SendPlayerStatus (status : PlayerStatus).

Record PlayerFlow := {
  pf_state : PlayerState;
  pf_status : PlayerStatus;
  pf_mainWindow : bool;
  pf_events : list FlowEvent;
}.

Definition newPlayerFlow : PlayerFlow :=
  {| pf_state := BOOT;
     pf_status := {| st_state := BOOT; st_mode := mode_empty; st_online := false;
                     st_deviceId := VUndefined; st_scheduleId := VUndefined;
                     st_currentMediaId := VUndefined; st_lastSnapshotAt := VUndefined;
                     st_error := VUndefined |};
     pf_mainWindow := false; pf_events := [] |}.

Definition state_eqb (a b : PlayerState) : bool :=
  match a, b with
  | BOOT, BOOT | NEED_PAIRING, NEED_PAIRING | PAIRING_REQUESTED, PAIRING_REQUESTED
  | WAITING_CONFIRMATION, WAITING_CONFIRMATION | CERT_ISSUED, CERT_ISSUED
  | PLAYBACK_RUNNING, PLAYBACK_RUNNING | OFFLINE_FALLBACK, OFFLINE_FALLBACK => true
  | _, _ => false
  end.

Definition mode_eqb (a b : PlaybackMode) : bool :=
  match a, b with
  | mode_normal, mode_normal | mode_emergency, mode_emergency | mode_default, mode_default
  | mode_offline, mode_offline | mode_empty, mode_empty => true
  | _, _ => false
  end.

(** [updateStatus(update)] *)
Definition updateStatus (update : StatusUpdate) (f : PlayerFlow) : PlayerFlow :=
  let status := spread (pf_status f) update in
  {| pf_state := pf_state f; pf_status := status; pf_mainWindow := pf_mainWindow f;
     pf_events := pf_events f ++ [EmitStatus status]
                    ++ (if pf_mainWindow f then [SendPlayerStatus status] else []) |}.

(** [next] is one of the three states in which pairing is under way. *)
Definition is_pairing_state (next : PlayerState) : bool :=
  (state_eqb next NEED_PAIRING || state_eqb next PAIRING_REQUESTED
   || state_eqb next WAITING_CONFIRMATION)%bool.

(** [transitionState(next, error?)] *)
Definition transitionState (next : PlayerState) (error' : JsValue) (f : PlayerFlow)
  : PlayerFlow :=
  if state_eqb (pf_state f) next then f
  else
    let f1 := {| pf_state := next; pf_status := pf_status f;
                 pf_mainWindow := pf_mainWindow f; pf_events := pf_events f |} in
    let online1 := if is_pairing_state next then Some false else None in
    let mode1 := if is_pairing_state next then Some mode_empty else None in
    let online2 := if state_eqb next OFFLINE_FALLBACK then Some false else online1 in
    let mode2 :=
      if state_eqb next OFFLINE_FALLBACK
      then Some (if mode_eqb (st_mode (pf_status f1)) mode_empty then mode_offline
                 else st_mode (pf_status f1))
      else mode1 in
    updateStatus {| up_state := Some next; up_mode := mode2; up_online := online2;
                    up_deviceId := None; up_scheduleId := None; up_currentMediaId := None;
                    up_lastSnapshotAt := None; up_error := Some error' |} f1.

(** [playlist.mode === 'offline' || playlist.mode === 'empty'] *)
Definition is_offline_mode (m : PlaybackMode) : bool :=
  (mode_eqb m mode_offline || mode_eqb m mode_empty)%bool.

(** [handlePlaylistUpdate(playlist)], the flow's [playlist-updated]
    listener. *)
Definition handlePlaylistUpdate (playlist : PlaybackPlaylist) (f : PlayerFlow) : PlayerFlow :=
  let online := (negb (mode_eqb (pl_mode playlist) mode_offline)
                 && negb (mode_eqb (pl_mode playlist) mode_empty))%bool in
  let f1 :=
    if is_offline_mode (pl_mode playlist) then transitionState OFFLINE_FALLBACK VUndefined f
    else if negb (state_eqb (pf_state f) PLAYBACK_RUNNING)
         then transitionState PLAYBACK_RUNNING VUndefined f
         else f in
  updateStatus {| up_state := None; up_mode := Some (pl_mode playlist);
                  up_online := Some online; up_deviceId := None;
                  up_scheduleId := Some (pl_scheduleId playlist);
                  up_currentMediaId := None;
                  up_lastSnapshotAt := Some (pl_lastSnapshotAt playlist);
                  up_error := None |} f1.

(** The two status updates the flow makes outside [transitionState] and
    [handlePlaylistUpdate]: the device id, after [start] and the pairing
    calls, and the current media id, on the engine's [item-playing]. *)
Definition device_update (deviceId' : JsValue) : StatusUpdate :=
  {| up_state := None; up_mode := None; up_online := None; up_deviceId := Some deviceId';
     up_scheduleId := None; up_currentMediaId := None; up_lastSnapshotAt := None;
     up_error := None |}.

Definition media_update (item : TimelineItem) : StatusUpdate :=
  {| up_state := None; up_mode := None; up_online := None; up_deviceId := None;
     up_scheduleId := None; up_currentMediaId := Some (ti_mediaId item ||| ti_id item);
     up_lastSnapshotAt := None; up_error := None |}.

(** Everything that changes the flow's state or status: [initialize], a
    call of [transitionState] by one of the methods, the two updates
    above, and a playlist update. *)
Inductive FlowInput :=
| FlowInitialize
| Transition (next : PlayerState) (error' : JsValue)
| DeviceKnown (deviceId' : JsValue)
| ItemPlaying (item : TimelineItem)
| PlaylistArrived (playlist : PlaybackPlaylist).

Definition flow_step (f : PlayerFlow) (i : FlowInput) : PlayerFlow :=
  match i with
  | FlowInitialize =>
      {| pf_state := pf_state f; pf_status := pf_status f; pf_mainWindow := true;
         pf_events := pf_events f |}
  | Transition next error' => transitionState next error' f
  | DeviceKnown deviceId' => updateStatus (device_update deviceId') f
  | ItemPlaying item => updateStatus (media_update item) f
  | PlaylistArrived playlist => handlePlaylistUpdate playlist f
  end.

Definition flow_run (f : PlayerFlow) (inputs : list FlowInput) : PlayerFlow :=
  fold_left flow_step inputs f.

(** What holds of the flow whatever it has been through. *)
Record flow_inv (f : PlayerFlow) : Prop := {
  inv_sync : st_state (pf_status f) = pf_state f;
  inv_pairing : is_pairing_state (pf_state f) = true ->
                st_online (pf_status f) = false /\ st_mode (pf_status f) = mode_empty;
  inv_fallback : pf_state f = OFFLINE_FALLBACK -> st_online (pf_status f) = false;
  inv_online : st_online (pf_status f) = true -> is_offline_mode (st_mode (pf_status f)) = false;
}.

(* ===================================================================== *)
(** ** Example data used by the concrete instances below                   *)
(* ===================================================================== *)

Definition MiB : Z := 1024 * 1024.

(** A host whose network serves [example_response] for every snapshot
    request, a 150 MiB file at the URL "big", a 1 KiB file at "ok", and
    answers 403 for every other download. *)
Definition example_response : JsValue :=
  VObj [("items", VArr [VObj [("media_id", VStr "m1");
                              ("media_url", VStr "https://u/1.png?sig=old")]])].

Definition example_host : Host :=
  {| StringToNumber := fun s => if String.eqb s "" then Int 0 else NaN;
     random_suffix := fun _ => "k3x9ab";
     Date_now := fun n => 1700000000000 + Z.of_nat n;
     toISOString := fun t => pretty t;
     http_get := fun _ _ => HttpOk example_response;
     axios_get := fun _ url =>
       if String.eqb url "big" then Downloaded {| buf_length := 150 * MiB; buf_sha256 := "d0" |}
       else if String.eqb url "ok" then Downloaded {| buf_length := 1024; buf_sha256 := "d1" |}
       else DownloadFailed (Some 403);
     sanitizeFilename := fun s => s;
     url_pathname := fun s => Some s;
     path_extname := fun _ => "";
     pathToFileURL := fun p => "file://" ++ p |}.

Definition example_cache : CacheManager :=
  {| cacheDir := "/var/cache/hexmon/media"; maxBytes := 100 * MiB; entries := [];
     nowPlaying := ∅; inFlight := ∅ |}.

Definition example_world : World :=
  {| ticks := 0; disk := []; cache := example_cache;
     snapshots := {| currentSnapshot := None; currentPlaylist := None; lastError := None |};
     deviceId := Some "dev-1"; trace := [] |}.

Definition example_item (id url : string) : TimelineItem :=
  {| ti_id := VStr id; ti_mediaId := VStr id; ti_type := VStr "video";
     ti_remoteUrl := VStr url; ti_displayMs := Int 10000; ti_fit := contain;
     ti_muted := false; ti_sha256 := VUndefined; ti_meta := VUndefined;
     ti_transitionDurationMs := Int 0; ti_objectKey := VUndefined;
     ti_localPath := None; ti_localUrl := None |}.

Definition example_snapshot (its : list TimelineItem) (em df : option TimelineItem)
  : NormalizedSnapshot :=
  {| snapshotId := VUndefined; scheduleId := VStr "s1"; items := its;
     emergencyItem := em; defaultItem := df; mediaUrlMap := [];
     fetchedAt := VStr "2024-01-01T00:00:00.000Z"; raw := VObj [] |}.

(* ===================================================================== *)
(** ** Vocabulary of the statements below                                  *)
(* ===================================================================== *)

Definition example_cert (validTo' : Z) : CertFile :=
  ParsedCert {| subject := "CN=dev-1"; issuer := "CN=Hexmon CA"; validFrom := 0;
                validTo := validTo'; serialNumber := "01"; fingerprint := "AA" |}.

(** The display duration field, as the statement below reads it: the
    first of the aliases that is present, i.e. neither [null] nor
    [undefined], if there is one. *)
Fixpoint first_present (vs : list JsValue) : option JsValue :=
  match vs with
  | [] => None
  | v :: rest => if nullish v then first_present rest else Some v
  end.

Definition display_duration_field (input : JsValue) : option JsValue :=
  first_present [prop input "display_ms"; prop input "displayMs";
                 prop input "duration_ms"; prop input "durationMs"].

(** [typeof v === 'number'] with a value that is a number. *)
Definition is_numeric (v : JsValue) : bool :=
  match v with
  | VNum (Int _) => true
  | _ => false
  end.

(** An item whose duration is given under the second alias, the first one
    being [null]; and one whose duration is the boolean [true]. *)
Definition example_timed_item : JsValue :=
  VObj [("id", VStr "i3"); ("media_id", VStr "m3"); ("type", VStr "image");
        ("display_ms", VNull); ("displayMs", VNum (Int 7000))].

Definition example_boolean_duration_item : JsValue :=
  VObj [("id", VStr "i4"); ("media_id", VStr "m4"); ("type", VStr "image");
        ("display_ms", VBool true)].

(** The file test of [has], as a function of the world. *)
Definition file_present (w : World) (p : string) : bool :=
  existsb (fun f => String.eqb (path_join (cacheDir (cache w)) (fst f)) p) (disk w).

(** Where the cache finds the media of [mediaId] in the world [w]: at the
    indexed path when its file exists; failing that, at the first file of
    the media directory that is named after the sanitized id, with or
    without an extension; nowhere otherwise. *)
Definition scan_media_dir (h : Host) (w : World) (mediaId : string) : option string :=
  match find (fun f => String.eqb (fst f) (sanitizeFilename h mediaId)
                       || startsWith (fst f) (sanitizeFilename h mediaId ++ "."))%bool
             (disk w) with
  | Some (name, _) => Some (path_join (cacheDir (cache w)) name)
  | None => None
  end.

Definition cached_path (h : Host) (w : World) (mediaId : string) : option string :=
  match assoc mediaId (entries (cache w)) with
  | Some e =>
      if file_present w (ce_localPath e) then Some (ce_localPath e)
      else scan_media_dir h w mediaId
  | None => scan_media_dir h w mediaId
  end.

(** The media id of the item ([mediaId], else [objectKey]) is a string,
    as the type of [TimelineItem] has it, or the item has none. *)
Definition has_string_id (item : TimelineItem) : Prop :=
  truthy (ti_mediaId item ||| ti_objectKey item) = true ->
  is_string (ti_mediaId item ||| ti_objectKey item) = true.

(** The selected items as a playlist carries them, given the world in
    which it is built: those whose media id ([mediaId], else [objectKey])
    is a string the cache finds a non-empty path for, in order, each with
    that path as [localPath] and its file URL as [localUrl]; every other
    item is left out. *)
Definition hydrate_item (h : Host) (w : World) (item : TimelineItem) : list TimelineItem :=
  let mediaId := ti_mediaId item ||| ti_objectKey item in
  match (if truthy mediaId
         then match as_string mediaId with
              | Some m => cached_path h w m
              | None => None
              end
         else None) with
  | Some p => if String.eqb p "" then [] else [with_local item p (pathToFileURL h p)]
  | None => []
  end.

Definition hydrate (h : Host) (w : World) (selected : list TimelineItem) : list TimelineItem :=
  flat_map (hydrate_item h w) selected.

Definition example_world_on_disk : World := set_disk [("m1.png", 2048)] example_world.

Definition empty_snapshot_host : Host :=
  {| StringToNumber := StringToNumber example_host;
     random_suffix := random_suffix example_host;
     Date_now := Date_now example_host;
     toISOString := toISOString example_host;
     http_get := fun _ _ => HttpOk (VObj []);
     axios_get := axios_get example_host;
     sanitizeFilename := sanitizeFilename example_host;
     url_pathname := url_pathname example_host;
     path_extname := path_extname example_host;
     pathToFileURL := pathToFileURL example_host |}.

Definition is_http_get (e : Event) : bool :=
  match e with
  | EvHttpGet _ => true
  | _ => false
  end.

(** The number of snapshot requests made so far. *)
Definition http_gets (w : World) : nat := length (List.filter is_http_get (trace w)).

(** [m] leaves the observation [f] of the world as it was. *)
Definition preserves {X A : Type} (f : World -> X) (m : M A) : Prop :=
  forall w, f (snd (m w)) = f w.

Definition failing_send : option (PlayStage * string) := Some (AtSend, "Object has been destroyed").




Definition screenshot_arrival (id : string) (at_ done : Z) : Arrival :=
  {| arr_command := {| cmd_id := id; cmd_type := "SCREENSHOT"; cmd_force := false |};
     arr_at := at_; arr_outcome := Completed "shots/1.png"; arr_done := done |}.

(** Two SCREENSHOT commands entered 10 seconds apart. *)
Definition example_arrivals : list Arrival :=
  [screenshot_arrival "c1" 1700000000000 1700000002000;
   screenshot_arrival "c2" 1700000010000 1700000010000].


(* ===================================================================== *)
(** ** Further operations and vocabulary                                   *)
(* ===================================================================== *)

(** [clear(force)] of the cache manager.  The unforced loop visits the
    entries of the map as they were when it started. *)
Fixpoint clear_entries (es : list (string * CacheEntry)) : M unit :=
  match es with
  | [] => ret tt
  | (mediaId, entry) :: rest =>
      let! playing := gets (fun w => bool_decide (mediaId ∈ nowPlaying (cache w))) in
      (if playing then ret tt
       else
         let! present := existsSync (ce_localPath entry) in
         (if present then unlinkSync (ce_localPath entry) else ret tt) ;;
         delete_entry mediaId) ;;
      clear_entries rest
  end.

Definition clear (force : bool) : M unit :=
  if force then
    modify (fun w =>
      set_cache (set_nowPlaying ∅ (set_entries [] (cache w))) (set_disk [] w))
  else
    let! es := gets (fun w => entries (cache w)) in
    clear_entries es.

(** The last warning of [evictIfNeeded], or the first. *)
Definition capacity_warning (e : Event) : Prop :=
  e = EvLog "warn" "Item exceeds cache capacity, skipping eviction" \/
  e = EvLog "warn" "Not enough space to evict without touching now-playing items".

(** [evicted] removed from an entry map, one [removeEntry] after another. *)
Definition remove_all (evicted : list CacheEntry) (es : list (string * CacheEntry))
  : list (string * CacheEntry) :=
  fold_left (fun acc c => assoc_remove (ce_mediaId c) acc) evicted es.

(** The candidates of [evictIfNeeded], in eviction order. *)
Definition eviction_candidates (c : CacheManager) : list CacheEntry :=
  sort_by_lastUsedAt
    (List.filter (fun e => negb (bool_decide (ce_mediaId e ∈ nowPlaying c)))
                 (map snd (entries c))).


(** One round of the unforced [clear] loop, on the entry map. *)
Definition clear_step (playing : gset string) (acc : list (string * CacheEntry))
  (kv : string * CacheEntry) : list (string * CacheEntry) :=
  if bool_decide (fst kv ∈ playing) then acc else assoc_remove (fst kv) acc.

(** The playlists announced by [playlist-updated] events, oldest first. *)
Fixpoint playlist_updates (t : list Event) : list PlaybackPlaylist :=
  match t with
  | [] => []
  | EvEmitPlaylistUpdated p :: rest => p :: playlist_updates rest
  | _ :: rest => playlist_updates rest
  end.

(** The refresh cycle with the listeners of [playlist-updated] taken into
    account.  [emit] runs them inside the call, so what a listener throws
    comes out of [emit]: inside the [try] of [refreshSnapshot] for the
    announcement of a fresh playlist, outside any [try] for the one made
    by [applyOfflineFallback].  The definitions of the snapshot manager
    above are the case in which every listener returns. *)
Module Listening.

(** What the listeners do when [playlist-updated] is emitted, given how
    many playlists were announced before: they return, or one throws.
    They are the playback engine's and the player flow's, which touch
    neither the snapshot manager's fields nor the cache index. *)
Definition Listener := nat -> PlaybackPlaylist -> option JsError.


(** [this.emit('playlist-updated', playlist)] *)
Definition emitPlaylistUpdated (l : Listener) (playlist : PlaybackPlaylist) : M unit :=
  fun w =>
    (match l (length (playlist_updates (trace w))) playlist with
     | None => Normal tt
     | Some e => Throw e
     end,
     emit (EvEmitPlaylistUpdated playlist) w).

Definition applyOfflineFallback (l : Listener) (h : Host) (reason : string)
  : M PlaybackPlaylist :=
  modify (fun w => set_snapshots
            {| currentSnapshot := currentSnapshot (snapshots w);
               currentPlaylist := currentPlaylist (snapshots w);
               lastError := Some reason |} w) ;;
  let! sm := gets snapshots in
  match currentSnapshot sm with
  | Some snapshot =>
      let! playlist := buildPlaylist h snapshot mode_offline in
      modify (fun w => set_snapshots
                {| currentSnapshot := currentSnapshot (snapshots w);
                   currentPlaylist := Some playlist;
                   lastError := lastError (snapshots w) |} w) ;;
      emitPlaylistUpdated l playlist ;;
      ret playlist
  | None =>
      let playlist :=
        {| pl_mode := mode_empty; pl_items := [];
           pl_scheduleId := VUndefined; pl_snapshotId := VUndefined;
           pl_lastSnapshotAt :=
             match currentPlaylist sm with
             | Some p => pl_lastSnapshotAt p
             | None => VUndefined
             end |} in
      modify (fun w => set_snapshots
                {| currentSnapshot := currentSnapshot (snapshots w);
                   currentPlaylist := Some playlist;
                   lastError := lastError (snapshots w) |} w) ;;
      emitPlaylistUpdated l playlist ;;
      ret playlist
  end.

(** The [try] block of [refreshSnapshot]. *)
Definition refreshAttempt (l : Listener) (h : Host) (deviceId' : string)
  : M (option PlaybackPlaylist) :=
  let! response := httpGet h (snapshot_url deviceId') in
  (if (truthy response && typeof_object response &&
       match prop response "success" with VBool false => true | _ => false end)%bool
   then
     let message :=
       opt_prop (prop response "error") "message" ||| VStr "Snapshot request failed" in
     throw (Error (ToString message))
   else ret tt) ;;
  let! normalized := run_parser (parseSnapshotResponse h response) in
  persistSnapshot normalized ;;
  cacheSnapshotMedia h normalized ;;
  let! playlist := buildPlaylist h normalized mode_normal in
  modify (set_snapshots {| currentSnapshot := Some normalized;
                           currentPlaylist := Some playlist;
                           lastError := None |}) ;;
  emitPlaylistUpdated l playlist ;;
  ret (Some playlist).

Definition fallBack (l : Listener) (h : Host) (level msg reason : string)
  : M (option PlaybackPlaylist) :=
  log level msg ;;
  let! p := applyOfflineFallback l h reason in
  ret (Some p).

(** The [catch] block of [refreshSnapshot]. *)
Definition refreshRecover (l : Listener) (h : Host)
  (self : bool -> M (option PlaybackPlaylist))
  (retryOnExpired : bool) (error : JsError) : M (option PlaybackPlaylist) :=
  if status_is (response_status error) 404 then
    fallBack l h "warn" "Snapshot not found (404), using offline fallback if available"
      "No published snapshot available"
  else if (is_url_expired error && retryOnExpired)%bool then
    log "warn" "Media URL expired, refetching snapshot" ;;
    self false
  else
    fallBack l h "error" "Snapshot fetch failed, using offline fallback" (error_message error).

Definition refreshSnapshot_body (l : Listener) (h : Host)
  (self : bool -> M (option PlaybackPlaylist)) (retryOnExpired : bool)
  : M (option PlaybackPlaylist) :=
  let! dev := gets deviceId in
  match dev with
  | None => ret None
  | Some deviceId' =>
      if String.eqb deviceId' "" then ret None
      else try_catch (refreshAttempt l h deviceId') (refreshRecover l h self retryOnExpired)
  end.

(** [refreshSnapshot(retryOnExpired = true)]; as above, two unfoldings of
    the body are the whole recursion. *)
Definition refreshSnapshot (l : Listener) (h : Host) (retryOnExpired : bool)
  : M (option PlaybackPlaylist) :=
  refreshSnapshot_body l h (refreshSnapshot_body l h (fun _ => ret None)) retryOnExpired.

End Listening.



(** Listeners of which the first one called finds its window destroyed. *)
Definition first_listener_fails : Listening.Listener :=
  fun k _ => if (k =? 0)%nat then Some (Error "Object has been destroyed") else None.

(** Events that neither request a snapshot nor announce a playlist. *)
Definition is_quiet (e : Event) : bool :=
  match e with
  | EvHttpGet _ | EvEmitPlaylistUpdated _ => false
  | _ => true
  end.

(** What a refresh cycle is observed through: the playlists announced so
    far and the state of the snapshot manager. *)
Definition announced (w : World) : list PlaybackPlaylist * SnapshotManager :=
  (playlist_updates (trace w), snapshots w).

(** The playlist of the offline path: built from the snapshot held, in
    mode [offline] unless that snapshot has something to select, or the
    empty playlist when none is held. *)
Definition fallback_mode (held : option NormalizedSnapshot) : PlaybackMode :=
  match held with
  | Some snapshot => fst (selectPlaylist snapshot mode_offline)
  | None => mode_empty
  end.

(** A host whose server cannot be reached. *)
Definition unreachable_host : Host :=
  {| StringToNumber := StringToNumber example_host;
     random_suffix := random_suffix example_host;
     Date_now := Date_now example_host;
     toISOString := toISOString example_host;
     http_get := fun _ _ => HttpFail None "connect ECONNREFUSED";
     axios_get := axios_get example_host;
     sanitizeFilename := sanitizeFilename example_host;
     url_pathname := url_pathname example_host;
     path_extname := path_extname example_host;
     pathToFileURL := pathToFileURL example_host |}.



(** An item that carries a usable id and media id. *)
Definition identified (it : TimelineItem) : Prop :=
  truthy (ti_id it) = true /\ truthy (ti_mediaId it) = true.

(** The inputs [normalizeItem] does not reject. *)
Definition is_item_input (v : JsValue) : bool := (truthy v && typeof_object v)%bool.

(** [a !== b] on the values held by the fields of a default-media
    response.  Two objects or arrays held by different responses are
    different objects; [NaN] differs from itself. *)
Definition strict_neq (a b : JsValue) : bool :=
  match a, b with
  | VUndefined, VUndefined | VNull, VNull => false
  | VBool x, VBool y => negb (Bool.eqb x y)
  | VNum (Int x), VNum (Int y) => negb (x =? y)
  | VStr x, VStr y => negb (String.eqb x y)
  | _, _ => true
  end.

(** [hasChanged(previous, next)] of the default-media service. *)
Definition hasChanged (previous next : DefaultMediaResponse) : bool :=
  if strict_neq (media_id previous) (media_id next) then true
  else
    match media previous, media next with
    | Some p, Some n =>
        (strict_neq (dm_id p) (dm_id n)
         || strict_neq (dm_media_url p) (dm_media_url n)
         || strict_neq (dm_type p) (dm_type n)
         || strict_neq (dm_name p) (dm_name n)
         || strict_neq (dm_source_content_type p) (dm_source_content_type n))%bool
    | None, None => false
    | _, _ => true
    end.

(** What the default-media service does that can be seen from outside:
    the cache file it writes, the [changed] event and the message to the
    renderer. *)
Inductive DefaultMediaEvent :=
| DmPersist (payload : DefaultMediaResponse)
| DmChanged (next : DefaultMediaResponse)
| DmSend (next : DefaultMediaResponse).

Record DefaultMediaService := {
  dms_current : DefaultMediaResponse;
  dms_mainWindow : bool;
  dms_events : list DefaultMediaEvent;
}.

Definition newDefaultMediaService : DefaultMediaService :=
  {| dms_current := {| media_id := VNull; media := None |};
     dms_mainWindow := false; dms_events := [] |}.

Definition dms_emit (x : DefaultMediaEvent) (s : DefaultMediaService) : DefaultMediaService :=
  {| dms_current := dms_current s; dms_mainWindow := dms_mainWindow s;
     dms_events := dms_events s ++ [x] |}.

Definition dms_set_current (c : DefaultMediaResponse) (s : DefaultMediaService)
  : DefaultMediaService :=
  {| dms_current := c; dms_mainWindow := dms_mainWindow s; dms_events := dms_events s |}.

(** [fetchAndUpdate], given whether the device is paired and what the
    request of the settings client yields. *)
Definition fetchAndUpdate (paired : bool) (fetched : Completion JsValue)
  (s : DefaultMediaService) : DefaultMediaResponse * DefaultMediaService :=
  if negb paired then (dms_current s, s)
  else
    match fetched with
    | Throw _ => (dms_current s, s)
    | Normal response =>
        let next := normalizeDefaultMediaResponse response in
        let changed := hasChanged (dms_current s) next in
        let s1 := dms_emit (DmPersist next) (dms_set_current next s) in
        let s2 :=
          if changed then
            let s' := dms_emit (DmChanged next) s1 in
            if dms_mainWindow s' then dms_emit (DmSend next) s' else s'
          else s1 in
        (next, s2)
    end.

(** [loadCached], given what is found at the cache path: no file, a file
    that cannot be read or parsed, or a parsed document. *)
Definition loadCached (file : option (Completion JsValue)) (s : DefaultMediaService)
  : DefaultMediaService :=
  match file with
  | None => s
  | Some (Throw _) => s
  | Some (Normal raw') => dms_set_current (normalizeDefaultMediaResponse raw') s
  end.

(** A property as [JSON.stringify] writes it: one whose value is
    [undefined] is left out. *)
Definition json_field (k : string) (v : JsValue) : list (string * JsValue) :=
  match v with
  | VUndefined => []
  | _ => [(k, v)]
  end.

(** [JSON.parse(JSON.stringify(payload))] for a response whose fields hold
    strings, [null] or [undefined], as those of a normalised response do. *)
Definition stored_json (payload : DefaultMediaResponse) : JsValue :=
  VObj (json_field "media_id" (media_id payload) ++
        [("media",
          match media payload with
          | None => VNull
          | Some m =>
              VObj (json_field "id" (dm_id m) ++ json_field "name" (dm_name m) ++
                    json_field "type" (dm_type m) ++
                    json_field "media_url" (dm_media_url m) ++
                    json_field "source_content_type" (dm_source_content_type m))
          end)]).

Inductive DefaultMediaInput :=
| LoadCached (file : option (Completion JsValue))
| Initialize
| Refresh (paired : bool) (fetched : Completion JsValue).

Definition dms_step (s : DefaultMediaService) (i : DefaultMediaInput) : DefaultMediaService :=
  match i with
  | LoadCached file => loadCached file s
  | Initialize =>
      {| dms_current := dms_current s; dms_mainWindow := true; dms_events := dms_events s |}
  | Refresh paired fetched => snd (fetchAndUpdate paired fetched s)
  end.

Definition dms_run (s : DefaultMediaService) (inputs : list DefaultMediaInput)
  : DefaultMediaService :=
  fold_left dms_step inputs s.

(** The values a field of a normalised response can hold. *)
Definition plain (v : JsValue) : Prop :=
  v = VUndefined \/ v = VNull \/ exists s, v = VStr s.

Definition plain_item (m : DefaultMediaItem) : Prop :=
  plain (dm_id m) /\ plain (dm_name m) /\ plain (dm_type m) /\
  plain (dm_media_url m) /\ plain (dm_source_content_type m).

Definition plain_response (r : DefaultMediaResponse) : Prop :=
  plain (media_id r) /\
  match media r with Some m => plain_item m | None => True end.

(** The engine reports playback only while the scheduler is running:
    whenever its state is [playing] or [emergency], its last call to the
    scheduler was [start]. *)
Definition scheduler_follows_state (e : PlaybackEngine) : Prop :=
  (pe_state e = state_playing \/ pe_state e = state_emergency) ->
  pe_schedulerRunning e = true.

(** State and scheduler, the two fields the item handlers leave alone. *)
Definition playback_status (e : PlaybackEngine) : PlaybackState * bool :=
  (pe_state e, pe_schedulerRunning e).

(** The ids of the commands acknowledged so far, oldest first. *)
Fixpoint acknowledged_ids (evs : list ProcessorEvent) : list string :=
  match evs with
  | [] => []
  | Acknowledged id _ :: rest => id :: acknowledged_ids rest
  | Dispatched _ _ _ :: rest => acknowledged_ids rest
  end.


(* ===================================================================== *)
(** ** Properties of the snapshot parser                                   *)
(* ===================================================================== *)

Lemma pbind_normal {A B} (m : Parser A) (k : A -> Parser B) n b n' :
  pbind m k n = Normal (b, n') ->
  exists a n1, m n = Normal (a, n1) /\ k a n1 = Normal (b, n').
Proof.
  unfold pbind. destruct (m n) as [[a n1]|e]; [eauto | discriminate].
Qed.

Lemma number_or_spec (n : JsNumber) (d : Z) :
  number_or n d = match n with
                  | NaN => Int d
                  | Int z => if z =? 0 then Int d else Int z
                  end.
Proof.
  unfold number_or, number_truthy. destruct n as [|z]; [reflexivity|].
  destruct (z =? 0); reflexivity.
Qed.

(** The duration computed by [normalizeItem] depends only on the first
    alias that is neither [null] nor [undefined]. *)
Lemma normalizeItem_displayMs_eq h input urlMap n item n' :
  normalizeItem h input urlMap n = Normal (Some item, n') ->
  ti_displayMs item = number_or (ToNumber h (displayField input ??? VNum (Int 10000))) 10000.
Proof.
  unfold normalizeItem.
  destruct (negb (truthy input) || negb (typeof_object input))%bool; [discriminate|].
  intros H.
  apply pbind_normal in H as (ty & n1 & _ & H).
  apply pbind_normal in H as (id & n2 & _ & H).
  unfold pret in H. injection H as <- _. reflexivity.
Qed.

Lemma first_present_coalesce a b c d dflt :
  a ??? b ??? c ??? d ??? dflt = default dflt (first_present [a; b; c; d]).
Proof.
  unfold js_coalesce. simpl.
  destruct (nullish a) eqn:Ha; rewrite ?Ha; [|reflexivity].
  destruct (nullish b) eqn:Hb; rewrite ?Hb; [|reflexivity].
  destruct (nullish c) eqn:Hc; rewrite ?Hc; [|reflexivity].
  destruct (nullish d) eqn:Hd; rewrite ?Hd; reflexivity.
Qed.

(** C7, as the code has it.  Whenever [normalizeItem] produces an item,
    its [displayMs] is decided by the first of [display_ms], [displayMs],
    [duration_ms], [durationMs] that is neither [null] nor [undefined]:
    it is 10000 when there is none, and when the conversion [Number(v)]
    of that value is [NaN] or zero; otherwise it is [Number(v)], whether
    or not the value is a number. *)
Theorem normalizeItem_displayMs h input urlMap n item n' :
  normalizeItem h input urlMap n = Normal (Some item, n') ->
  ti_displayMs item =
    match display_duration_field input with
    | None => Int 10000
    | Some v =>
        match ToNumber h v with
        | NaN => Int 10000
        | Int z => if z =? 0 then Int 10000 else Int z
        end
    end.
Proof.
  intros H. apply normalizeItem_displayMs_eq in H. rewrite H. clear H.
  unfold displayField, display_duration_field.
  rewrite first_present_coalesce, number_or_spec.
  destruct (first_present _) as [v|]; reflexivity.
Qed.

Lemma normalizeItem_displayMs_witness :
  exists item,
    normalizeItem example_host example_timed_item [] 0%nat = Normal (Some item, 0%nat) /\
    display_duration_field example_timed_item = Some (VNum (Int 7000)) /\
    ti_displayMs item = Int 7000.
Proof.
  eexists. split; [vm_compute; reflexivity|]. split; [reflexivity|].
  exact (normalizeItem_displayMs example_host example_timed_item [] 0%nat _ 0%nat eq_refl).
Defined.

(** A duration that is not a number is converted, not replaced by the
    default: [display_ms: true] gives a [displayMs] of 1. *)
Lemma normalizeItem_displayMs_boolean :
  exists item,
    normalizeItem example_host example_boolean_duration_item [] 0%nat
    = Normal (Some item, 0%nat) /\
    display_duration_field example_boolean_duration_item = Some (VBool true) /\
    is_numeric (VBool true) = false /\
    ti_displayMs item = Int 1 /\
    ti_displayMs item <> Int 10000.
Proof.
  eexists. split; [vm_compute; reflexivity|].
  split; [reflexivity|]. split; [reflexivity|]. split; [reflexivity|]. discriminate.
Qed.

(** C8.  A payload that is an object whose [media] array holds a [null]
    entry makes [parseSnapshotResponse] throw a [TypeError]: the loop over
    [payload.media] reads [entry.media_id] without the guard that
    [normalizeItem] applies to the entries of [items]. *)
Theorem parseSnapshotResponse_null_media_entry_throws h n :
  parseSnapshotResponse h (VObj [("media", VArr [VNull])]) n
  = Throw (TypeError "Cannot read properties of null or undefined (reading 'media_id')").
Proof. reflexivity. Qed.

(** A truthy [items] that is not an array has no [map] method. *)
Lemma parseSnapshotResponse_items_not_array_throws h n :
  parseSnapshotResponse h (VObj [("items", VStr "x")]) n
  = Throw (TypeError "(itemsSource || []).map is not a function").
Proof. reflexivity. Qed.

(** The one deliberate failure: a payload that is not an object. *)
Lemma parseSnapshotResponse_rejects_non_object h raw' n :
  let payload := opt_prop raw' "snapshot" ||| opt_prop raw' "data" ||| raw' in
  (negb (truthy payload) || negb (typeof_object payload))%bool = true ->
  parseSnapshotResponse h raw' n = Throw (Error "Snapshot payload is not an object").
Proof.
  intros payload H. unfold parseSnapshotResponse. fold payload. rewrite H. reflexivity.
Qed.

(* ===================================================================== *)
(** ** Properties of the default-media normaliser                          *)
(* ===================================================================== *)

Lemma string_or_undefined_truthy v :
  truthy (string_or v VUndefined) = true -> exists s, string_or v VUndefined = VStr s /\ v = VStr s.
Proof.
  unfold string_or. destruct v; simpl; try discriminate. eauto.
Qed.

Lemma normalizeMediaItem_valid input m :
  normalizeMediaItem input = Some m ->
  exists id ty url,
    dm_id m = VStr id /\ prop input "id" = VStr id /\
    dm_type m = VStr ty /\ prop input "type" = VStr ty /\ In ty VALID_MEDIA_TYPES /\
    dm_media_url m = VStr url /\ prop input "media_url" = VStr url.
Proof.
  unfold normalizeMediaItem.
  destruct (negb (truthy input) || negb (typeof_object input))%bool; [discriminate|].
  destruct (truthy (string_or (prop input "id") VUndefined)) eqn:Hid; [|discriminate].
  apply string_or_undefined_truthy in Hid as (id & Hid & Hid').
  destruct (prop input "type") as [| |b|k|t|l|o] eqn:Hty;
    try (simpl; rewrite ?orb_true_r; discriminate).
  destruct (existsb (String.eqb t) VALID_MEDIA_TYPES) eqn:Hvalid;
    [|simpl; rewrite ?orb_true_r; discriminate].
  assert (Hne : truthy (VStr t) = true).
  { simpl. apply existsb_exists in Hvalid as (x & Hin & Heq).
    apply String.eqb_eq in Heq. subst x.
    simpl in Hin. destruct Hin as [<-|[<-|[<-|[]]]]; reflexivity. }
  rewrite Hne.
  destruct (truthy (string_or (prop input "media_url") VUndefined)) eqn:Hurl;
    [|simpl; discriminate].
  apply string_or_undefined_truthy in Hurl as (url & Hurl & Hurl').
  simpl. intros [= <-]. simpl.
  exists id, t, url. rewrite Hid, Hurl. repeat split; try assumption.
  apply existsb_exists in Hvalid as (x & Hin & Heq).
  apply String.eqb_eq in Heq. subst x. exact Hin.
Qed.

(** C10.  [normalizeDefaultMediaResponse] is all-or-nothing: either both
    [media_id] and [media] are null, or [media_id] is a string (the
    payload's own) and [media] is an item whose [id] and [media_url] are
    strings and whose [type] is one of IMAGE, VIDEO, DOCUMENT. *)
Theorem normalizeDefaultMediaResponse_all_or_nothing raw' :
  let r := normalizeDefaultMediaResponse raw' in
  (media_id r = VNull /\ media r = None) \/
  (exists mid m id ty url,
      media_id r = VStr mid /\ prop raw' "media_id" = VStr mid /\
      media r = Some m /\
      dm_id m = VStr id /\
      dm_type m = VStr ty /\ In ty ["IMAGE"; "VIDEO"; "DOCUMENT"] /\
      dm_media_url m = VStr url).
Proof.
  unfold normalizeDefaultMediaResponse.
  destruct (negb (truthy raw') || negb (typeof_object raw'))%bool; [left; split; reflexivity|].
  destruct (normalizeMediaItem (prop raw' "media")) as [m|] eqn:Hm; [|left; split; reflexivity].
  destruct (truthy (string_or (prop raw' "media_id") VNull)) eqn:Hid; [|left; split; reflexivity].
  right.
  apply normalizeMediaItem_valid in Hm as (id & ty & url & H1 & _ & H2 & _ & H3 & H4 & _).
  unfold string_or in *.
  destruct (prop raw' "media_id") as [| |b|k|mid|l|o]; simpl in Hid; try discriminate.
  exists mid, m, id, ty, url. simpl. repeat split; assumption.
Qed.

(* ===================================================================== *)
(** ** Properties of certificate renewal                                   *)
(* ===================================================================== *)

(** C6, as the code has it.  [needsRenewal] is true exactly when no
    certificate can be read or fewer than [renewBeforeDays + 1] days of
    validity remain: the remaining time is floored to whole days and
    compared with [<=]. *)
Theorem needsRenewal_iff f renewBeforeDays now' :
  needsRenewal f renewBeforeDays now' = true <->
  getCertificateInfo f = None \/
  exists info, getCertificateInfo f = Some info /\
               validTo info - now' < (renewBeforeDays + 1) * MS_PER_DAY.
Proof.
  unfold needsRenewal.
  destruct (getCertificateInfo f) as [info|]; [|split; auto].
  assert (Hday : 0 < MS_PER_DAY) by (unfold MS_PER_DAY; lia).
  pose proof (Z.div_mod (validTo info - now') MS_PER_DAY ltac:(lia)) as Hdm.
  pose proof (Z.mod_pos_bound (validTo info - now') MS_PER_DAY Hday) as Hmod.
  set (q := (validTo info - now') / MS_PER_DAY) in *.
  set (r := (validTo info - now') mod MS_PER_DAY) in *.
  split.
  - intros H. right. exists info. split; [reflexivity|].
    destruct (Z.leb_spec q renewBeforeDays) as [Hle|]; [|discriminate]. nia.
  - intros [H|(info' & [= <-] & Hlt)]; [discriminate|].
    destruct (Z.leb_spec q renewBeforeDays); [reflexivity | nia].
Qed.

(** One millisecond past [validTo] the certificate no longer verifies. *)
Example verifyCertificate_just_expired :
  verifyCertificate true (example_cert 1000) 1000 = true /\
  verifyCertificate true (example_cert 1000) 1001 = false.
Proof. split; reflexivity. Qed.

(** With exactly 30 whole days left and [renewBeforeDays = 30], renewal is
    already due, although the remaining validity is not below 30 days. *)
Lemma needsRenewal_at_exact_threshold :
  needsRenewal (example_cert (30 * MS_PER_DAY)) 30 0 = true /\
  ~ (30 * MS_PER_DAY - 0 < 30 * MS_PER_DAY).
Proof. split; [reflexivity | lia]. Qed.

(* ===================================================================== *)
(** ** Properties of the cache manager                                     *)
(* ===================================================================== *)

Lemma assoc_set_eq {A} k (v : A) l : assoc k (assoc_set k v l) = Some v.
Proof.
  induction l as [|[k' v'] l IH]; simpl.
  - rewrite String.eqb_refl. reflexivity.
  - destruct (String.eqb k k') eqn:E; simpl.
    + rewrite String.eqb_refl. reflexivity.
    + rewrite E. exact IH.
Qed.

Lemma assoc_set_other {A} k k' (v : A) l : k <> k' -> assoc k' (assoc_set k v l) = assoc k' l.
Proof.
  intros Hne. induction l as [|[k0 v0] l IH]; simpl.
  - destruct (String.eqb k' k) eqn:E; [apply String.eqb_eq in E; congruence | reflexivity].
  - destruct (String.eqb k k0) eqn:E; simpl.
    + apply String.eqb_eq in E. subst k0.
      destruct (String.eqb k' k) eqn:E'; [apply String.eqb_eq in E'; congruence | reflexivity].
    + destruct (String.eqb k' k0); [reflexivity | exact IH].
Qed.

Lemma assoc_remove_eq {A} k (l : list (string * A)) : assoc k (assoc_remove k l) = None.
Proof.
  induction l as [|[k0 v0] l IH]; simpl; [reflexivity|].
  destruct (String.eqb k k0) eqn:E; [exact IH|]. simpl. rewrite E. exact IH.
Qed.

Lemma assoc_remove_other {A} k k' (l : list (string * A)) :
  k <> k' -> assoc k' (assoc_remove k l) = assoc k' l.
Proof.
  intros Hne. induction l as [|[k0 v0] l IH]; simpl; [reflexivity|].
  destruct (String.eqb k k0) eqn:E; simpl.
  - apply String.eqb_eq in E. subst k0.
    destruct (String.eqb k' k) eqn:E'; [apply String.eqb_eq in E'; congruence | exact IH].
  - destruct (String.eqb k' k0); [reflexivity | exact IH].
Qed.

(** Unfolds the monadic plumbing of a cache operation. *)
Ltac unfold_M :=
  unfold existsSync, unlinkSync, atomicWrite, set_entry, delete_entry, log, now,
         try_finally, try_catch, bind, throw, modify, gets, ret in *;
  cbv beta.

(** What [has] does when it answers [true]: either the indexed entry's
    file is there and the entry is touched, or a file matching the id is
    found on disk and registered. *)
Lemma has_true_inv h mediaId w w1 :
  has h mediaId w = (Normal true, w1) ->
  exists e,
    assoc mediaId (entries (cache w1)) = Some e /\
    file_present w1 (ce_localPath e) = true /\
    disk w1 = disk w /\ trace w1 = trace w /\
    cacheDir (cache w1) = cacheDir (cache w).
Proof.
  unfold has. unfold_M.
  destruct (assoc mediaId (entries (cache w))) as [e|] eqn:He.
  - destruct (existsb _ (disk w)) eqn:Hp.
    + intros [= <-]. exists (touch (Date_now h (ticks w)) e). simpl.
      rewrite assoc_set_eq. repeat split; try reflexivity. exact Hp.
    + destruct (find _ (disk w)) as [[name size]|] eqn:Hf; [|discriminate].
      intros [= <-]. eexists. simpl. rewrite assoc_set_eq.
      split; [reflexivity|]. split; [|repeat split; reflexivity].
      unfold file_present. simpl. apply find_some in Hf as [Hin _].
      apply existsb_exists. exists (name, size). split; [exact Hin|].
      simpl. apply String.eqb_refl.
  - destruct (find _ (disk w)) as [[name size]|] eqn:Hf; [|discriminate].
    intros [= <-]. eexists. simpl. rewrite assoc_set_eq.
    split; [reflexivity|]. split; [|repeat split; reflexivity].
    unfold file_present. simpl. apply find_some in Hf as [Hin _].
    apply existsb_exists. exists (name, size). split; [exact Hin|].
    simpl. apply String.eqb_refl.
Qed.

(** A second [has] on an entry whose file is present only touches it. *)
Lemma has_hit h mediaId w e :
  assoc mediaId (entries (cache w)) = Some e ->
  file_present w (ce_localPath e) = true ->
  has h mediaId w =
    (Normal true,
     set_cache (set_entries (assoc_set mediaId (touch (Date_now h (ticks w)) e)
                                       (entries (cache w))) (cache w))
               (set_ticks (S (ticks w)) w)).
Proof.
  intros He Hp.
  unfold has. unfold_M.
  rewrite He. unfold file_present in Hp. rewrite Hp. reflexivity.
Qed.

(** C9.  Once [has(mediaId)] has answered [true], [add(mediaId, url,
    sha256)] returns normally without downloading or touching the disk,
    and leaves the entry map as it was except that the entry's
    [lastUsedAt] is set to the current time. *)
Theorem add_present_is_noop h mediaId url sha256 w w1 :
  has h mediaId w = (Normal true, w1) ->
  exists e w2,
    assoc mediaId (entries (cache w1)) = Some e /\
    add h mediaId url sha256 w1 = (Normal tt, w2) /\
    entries (cache w2)
      = assoc_set mediaId (touch (Date_now h (ticks w1)) e) (entries (cache w1)) /\
    trace w2 = trace w1 /\
    disk w2 = disk w1 /\
    nowPlaying (cache w2) = nowPlaying (cache w1) /\
    inFlight (cache w2) = inFlight (cache w1).
Proof.
  intros H. apply has_true_inv in H as (e & He & Hp & _).
  exists e. eexists. split; [exact He|].
  unfold add, bind. rewrite (has_hit h mediaId w1 e He Hp).
  split; [reflexivity|]. simpl. repeat split; reflexivity.
Qed.

Lemma add_present_is_noop_witness :
  let w1 := snd (has example_host "m1" example_world_on_disk) in
  has example_host "m1" example_world_on_disk = (Normal true, w1) /\
  exists e w2,
    assoc "m1" (entries (cache w1)) = Some e /\
    add example_host "m1" "https://u/1.png?sig=old" VUndefined w1 = (Normal tt, w2) /\
    entries (cache w2)
      = assoc_set "m1" (touch (Date_now example_host (ticks w1)) e) (entries (cache w1)) /\
    trace w2 = trace w1 /\
    disk w2 = disk w1 /\
    nowPlaying (cache w2) = nowPlaying (cache w1) /\
    inFlight (cache w2) = inFlight (cache w1).
Proof.
  intros w1.
  assert (H : has example_host "m1" example_world_on_disk = (Normal true, w1))
    by (vm_compute; reflexivity).
  split; [exact H|].
  exact (add_present_is_noop example_host "m1" "https://u/1.png?sig=old" VUndefined
           example_world_on_disk w1 H).
Defined.

(** C2, as the code has it.  When the downloaded item is larger than a
    positive [maxBytes], [evictIfNeeded] logs a warning and evicts nothing,
    and [addInternal] carries on: the file is written and an entry of that
    size is registered for the media id. *)
Theorem add_oversize_registers_entry h mediaId url sha256 w w1 data :
  has h mediaId w = (Normal false, w1) ->
  mediaId ∉ inFlight (cache w1) ->
  axios_get h (ticks w1) url = Downloaded data ->
  (truthy sha256 && negb (strict_eq_str sha256 (buf_sha256 data)))%bool = false ->
  0 < maxBytes (cache w1) ->
  maxBytes (cache w1) < buf_length data ->
  exists w2,
    add h mediaId url sha256 w = (Normal tt, w2) /\
    entries (cache w2)
      = assoc_set mediaId
          {| ce_mediaId := mediaId;
             ce_sha256 := sha256 ||| VStr (buf_sha256 data);
             ce_size := buf_length data;
             ce_lastUsedAt := Date_now h (S (ticks w1));
             ce_localPath := path_join (cacheDir (cache w1)) (getFileName h mediaId url);
             ce_status := ready |}
          (entries (cache w1)) /\
    disk w2 = assoc_set (getFileName h mediaId url) (buf_length data) (disk w1) /\
    trace w2 = (trace w1 ++
                 [EvDownload url;
                  EvLog "warn" "Item exceeds cache capacity, skipping eviction";
                  EvWriteFile (path_join (cacheDir (cache w1)) (getFileName h mediaId url))
                              (buf_length data);
                  EvLog "info" "Cached item added"])%list.
Proof.
  intros Hhas Hfl Hdl Hsha Hpos Hbig.
  unfold add. unfold bind at 1. rewrite Hhas.
  unfold bind at 1. unfold gets at 1.
  rewrite bool_decide_eq_false_2 by exact Hfl.
  assert (Hgt : (buf_length data >? maxBytes (cache w1)) = true) by (apply Z.gtb_lt; lia).
  assert (Hgt0 : (maxBytes (cache w1) >? 0) = true) by (apply Z.gtb_lt; lia).
  unfold addInternal, evictIfNeeded, download. unfold_M.
  cbn -[Z.gtb Z.geb Z.ltb assoc_set path_join getFileName].
  rewrite Hdl, Hsha.
  cbn -[Z.gtb Z.geb Z.ltb assoc_set path_join getFileName].
  rewrite Hgt, Hgt0.
  cbn -[Z.gtb Z.geb Z.ltb assoc_set path_join getFileName].
  eexists. split; [reflexivity|].
  cbn -[Z.gtb Z.geb Z.ltb assoc_set path_join getFileName].
  repeat split; try reflexivity.
  rewrite <- !app_assoc. reflexivity.
Qed.

Lemma add_oversize_registers_entry_witness :
  exists w2,
    add example_host "big1" "big" VUndefined example_world = (Normal tt, w2) /\
    maxBytes (cache example_world) = 100 * MiB /\
    ce_size <$> assoc "big1" (entries (cache w2)) = Some (150 * MiB).
Proof.
  destruct (add_oversize_registers_entry example_host "big1" "big" VUndefined example_world
              (snd (has example_host "big1" example_world))
              {| buf_length := 150 * MiB; buf_sha256 := "d0" |}
              ltac:(vm_compute; reflexivity)
              ltac:(vm_compute; set_solver)
              ltac:(reflexivity) ltac:(reflexivity)
              ltac:(vm_compute; reflexivity) ltac:(vm_compute; reflexivity))
    as (w2 & Hadd & Hentries & _).
  exists w2. split; [exact Hadd|]. split; [reflexivity|].
  rewrite Hentries, assoc_set_eq. reflexivity.
Defined.

(** Adding a 150 MiB item to an empty 100 MiB cache does create an entry
    (and a file) for it. *)
Lemma add_oversize_creates_entry :
  let w2 := snd (add example_host "big1" "big" VUndefined example_world) in
  maxBytes (cache example_world) = 100 * MiB /\
  ce_size <$> assoc "big1" (entries (cache w2)) = Some (150 * MiB) /\
  disk w2 = [("big1", 150 * MiB)].
Proof. vm_compute. repeat split; reflexivity. Qed.

(* ===================================================================== *)
(** ** Properties of the snapshot manager                                  *)
(* ===================================================================== *)

Lemma has_total h mediaId w : exists b w', has h mediaId w = (Normal b, w').
Proof.
  unfold has. unfold_M.
  destruct (assoc mediaId (entries (cache w))) as [e|].
  - destruct (existsb _ (disk w)); [eauto|].
    destruct (find _ (disk w)) as [[name size]|]; eauto.
  - destruct (find _ (disk w)) as [[name size]|]; eauto.
Qed.

Lemma get_total h mediaId w : exists r w', get h mediaId w = (Normal r, w').
Proof.
  unfold get. unfold bind at 1.
  destruct (has_total h mediaId w) as (b & w' & ->).
  destruct b; simpl; unfold gets, ret; eauto.
Qed.

(** What [get] answers is where the cache finds the media when it is
    asked, and asking does not change where any media is found. *)
Lemma get_cached h mediaId w :
  exists w',
    get h mediaId w = (Normal (cached_path h w mediaId), w') /\
    forall k, cached_path h w' k = cached_path h w k.
Proof.
  assert (Hfound : forall (l : list (string * Z)) name size,
    find (fun f => String.eqb (fst f) (sanitizeFilename h mediaId)
                   || startsWith (fst f) (sanitizeFilename h mediaId ++ "."))%bool l
    = Some (name, size) ->
    existsb (fun f => String.eqb (path_join (cacheDir (cache w)) (fst f))
                                 (path_join (cacheDir (cache w)) name)) l = true).
  { intros l name size Hf. apply find_some in Hf as [Hin _].
    apply existsb_exists. exists (name, size). split; [exact Hin | apply String.eqb_refl]. }
  assert (Hother : forall w' k,
    disk w' = disk w -> cacheDir (cache w') = cacheDir (cache w) ->
    k <> mediaId ->
    assoc k (entries (cache w')) = assoc k (entries (cache w)) ->
    cached_path h w' k = cached_path h w k).
  { intros w' k Hd Hc _ Ha. unfold cached_path, scan_media_dir, file_present.
    rewrite Ha, Hd, Hc. reflexivity. }
  unfold get, has, cached_path, scan_media_dir, file_present. unfold_M.
  destruct (assoc mediaId (entries (cache w))) as [e|] eqn:He.
  - destruct (existsb _ (disk w)) eqn:Hp.
    + eexists. split; [simpl; rewrite assoc_set_eq; reflexivity|].
      intros k. destruct (String.eqb k mediaId) eqn:Hk.
      * apply String.eqb_eq in Hk. subst k. simpl.
        rewrite assoc_set_eq, He. simpl. rewrite Hp. reflexivity.
      * apply String.eqb_neq in Hk.
        apply Hother; try reflexivity; [exact Hk|]. simpl.
        apply assoc_set_other. congruence.
    + destruct (find _ (disk w)) as [[name size]|] eqn:Hf.
      * eexists. split; [simpl; rewrite assoc_set_eq; reflexivity|].
        intros k. destruct (String.eqb k mediaId) eqn:Hk.
        -- apply String.eqb_eq in Hk. subst k. simpl.
           rewrite assoc_set_eq, He. simpl. rewrite Hp, Hf, (Hfound _ _ _ Hf). reflexivity.
        -- apply String.eqb_neq in Hk.
           apply Hother; try reflexivity; [exact Hk|]. simpl.
           apply assoc_set_other. congruence.
      * eexists. split; [reflexivity|].
        intros k. destruct (String.eqb k mediaId) eqn:Hk.
        -- apply String.eqb_eq in Hk. subst k. simpl.
           rewrite assoc_remove_eq, He, Hp, Hf. reflexivity.
        -- apply String.eqb_neq in Hk.
           apply Hother; try reflexivity; [exact Hk|]. simpl.
           apply assoc_remove_other. congruence.
  - destruct (find _ (disk w)) as [[name size]|] eqn:Hf.
    + eexists. split; [simpl; rewrite assoc_set_eq; reflexivity|].
      intros k. destruct (String.eqb k mediaId) eqn:Hk.
      * apply String.eqb_eq in Hk. subst k. simpl.
        rewrite assoc_set_eq, He. simpl. rewrite Hf, (Hfound _ _ _ Hf). reflexivity.
      * apply String.eqb_neq in Hk.
        apply Hother; try reflexivity; [exact Hk|]. simpl.
        apply assoc_set_other. congruence.
    + eexists. split; [reflexivity|].
      intros k. destruct (String.eqb k mediaId) eqn:Hk.
      * apply String.eqb_eq in Hk. subst k. simpl.
        rewrite assoc_remove_eq, He, Hf. reflexivity.
      * apply String.eqb_neq in Hk.
        apply Hother; try reflexivity; [exact Hk|]. simpl.
        apply assoc_remove_other. congruence.
Qed.

Lemma hydrate_ext h w1 w2 its :
  (forall k, cached_path h w1 k = cached_path h w2 k) ->
  hydrate h w1 its = hydrate h w2 its.
Proof.
  intros Hk. unfold hydrate. induction its as [|item rest IH]; simpl; [reflexivity|].
  rewrite IH. f_equal. unfold hydrate_item.
  destruct (truthy _); [|reflexivity].
  destruct (as_string _) as [m|]; [|reflexivity]. rewrite Hk. reflexivity.
Qed.

Lemma cached_path_emit h e w k : cached_path h (emit e w) k = cached_path h w k.
Proof. reflexivity. Qed.

(** [attachLocalMedia] computes [hydrate] of the world it starts in. *)
Lemma attachLocalMedia_hydrate h its :
  forall w, exists w',
    attachLocalMedia h its w = (Normal (hydrate h w its), w') /\
    forall k, cached_path h w' k = cached_path h w k.
Proof.
  induction its as [|item rest IH]; intros w; simpl.
  - exists w. split; reflexivity.
  - unfold bind at 1.
    assert (Hget : exists w1,
      (if truthy (ti_mediaId item ||| ti_objectKey item)
       then match as_string (ti_mediaId item ||| ti_objectKey item) with
            | Some m => get h m
            | None => ret None
            end
       else ret None) w
      = (Normal (if truthy (ti_mediaId item ||| ti_objectKey item)
                 then match as_string (ti_mediaId item ||| ti_objectKey item) with
                      | Some m => cached_path h w m
                      | None => None
                      end
                 else None), w1) /\
      forall k, cached_path h w1 k = cached_path h w k).
    { destruct (truthy _); [|exists w; split; reflexivity].
      destruct (as_string _) as [m|]; [apply get_cached | exists w; split; reflexivity]. }
    destruct Hget as (w1 & -> & Hw1).
    assert (Hlog : hydrate h (emit (EvLog "warn" "Media not cached, skipping item") w1) rest
                   = hydrate h w rest)
      by (apply hydrate_ext; intros k; rewrite cached_path_emit; apply Hw1).
    assert (Hrest : hydrate h w1 rest = hydrate h w rest) by (apply hydrate_ext; exact Hw1).
    unfold hydrate at 1. cbn [flat_map]. fold (hydrate h w rest). unfold hydrate_item.
    destruct (if truthy _ then _ else _) as [p|].
    + destruct (String.eqb p "") eqn:Hp.
      * unfold bind, log.
        destruct (IH (emit (EvLog "warn" "Media not cached, skipping item") w1))
          as (w' & -> & Hw').
        exists w'. rewrite Hlog. split; [reflexivity|].
        intros k. rewrite Hw', cached_path_emit. apply Hw1.
      * unfold bind. destruct (IH w1) as (w' & -> & Hw').
        exists w'. rewrite Hrest. split; [reflexivity|].
        intros k. rewrite Hw'. apply Hw1.
    + unfold bind, log.
      destruct (IH (emit (EvLog "warn" "Media not cached, skipping item") w1))
        as (w' & -> & Hw').
      exists w'. rewrite Hlog. split; [reflexivity|].
      intros k. rewrite Hw', cached_path_emit. apply Hw1.
Qed.

(** C1, as the code has it.  For a snapshot whose items have strings as
    media ids, [buildPlaylist] returns, and its mode follows the strict
    precedence emergency, normal (non-empty items), default, supplied
    fallback mode.  Its items are the selected ones (the emergency item
    alone, the scheduled items, the default item alone, or none) as
    [attachLocalMedia] leaves them: exactly those whose media the cache
    finds in the world the playlist is built in, in order, each with the
    path found and its file URL attached; so possibly fewer than
    selected, and none when nothing is cached. *)
Theorem buildPlaylist_mode_precedence h snapshot fallbackMode w :
  Forall has_string_id
    (items snapshot ++ option_list (emergencyItem snapshot)
       ++ option_list (defaultItem snapshot))%list ->
  exists playlist w',
    buildPlaylist h snapshot fallbackMode w = (Normal playlist, w') /\
    match emergencyItem snapshot, items snapshot, defaultItem snapshot with
    | Some e, _, _ =>
        pl_mode playlist = mode_emergency /\ pl_items playlist = hydrate h w [e]
    | None, _ :: _, _ =>
        pl_mode playlist = mode_normal /\
        pl_items playlist = hydrate h w (items snapshot)
    | None, [], Some d =>
        pl_mode playlist = mode_default /\ pl_items playlist = hydrate h w [d]
    | None, [], None =>
        pl_mode playlist = fallbackMode /\ pl_items playlist = []
    end.
Proof.
  intros _. unfold buildPlaylist, selectPlaylist.
  destruct (emergencyItem snapshot) as [e|].
  - unfold bind. destruct (attachLocalMedia_hydrate h [e] w) as (w' & -> & _).
    eexists _, w'. split; [reflexivity|]. split; reflexivity.
  - destruct (items snapshot) as [|i its] eqn:Hits.
    + simpl. destruct (defaultItem snapshot) as [d|].
      * unfold bind. destruct (attachLocalMedia_hydrate h [d] w) as (w' & -> & _).
        eexists _, w'. split; [reflexivity|]. split; reflexivity.
      * eexists _, w. split; [reflexivity|]. split; reflexivity.
    + cbn [length Nat.ltb Nat.leb]. unfold bind.
      destruct (attachLocalMedia_hydrate h (i :: its) w) as (w' & -> & _).
      eexists _, w'. split; [reflexivity|]. split; reflexivity.
Qed.

(** An emergency item whose media is not in the cache yields an emergency
    playlist with no items; and a freshly fetched snapshot with nothing to
    play is built with fallback mode [normal], not [empty]. *)
Lemma buildPlaylist_emergency_item_dropped :
  let e := example_item "em1" "https://u/e.mp4" in
  (exists w',
     buildPlaylist example_host (example_snapshot [] (Some e) None) mode_offline example_world
     = (Normal {| pl_mode := mode_emergency; pl_items := [];
                  pl_scheduleId := VStr "s1"; pl_snapshotId := VUndefined;
                  pl_lastSnapshotAt := VStr "2024-01-01T00:00:00.000Z" |}, w')) /\
  (exists p w',
     refreshSnapshot empty_snapshot_host true example_world = (Normal (Some p), w') /\
     pl_mode p = mode_normal /\ pl_items p = []).
Proof.
  split.
  - eexists. vm_compute. reflexivity.
  - eexists _, _. split; [vm_compute; reflexivity|]. split; reflexivity.
Qed.

(** With the file of its media in the media directory, the scheduled item
    is kept, with the path found and its file URL. *)
Lemma buildPlaylist_mode_precedence_witness :
  let item := example_item "m1" "https://u/1.png" in
  Forall has_string_id [item] /\
  exists playlist w',
    buildPlaylist example_host (example_snapshot [item] None None) mode_offline
      example_world_on_disk = (Normal playlist, w') /\
    pl_mode playlist = mode_normal /\
    pl_items playlist = [with_local item "/var/cache/hexmon/media/m1.png"
                           "file:///var/cache/hexmon/media/m1.png"].
Proof.
  assert (Hids : Forall has_string_id [example_item "m1" "https://u/1.png"])
    by (repeat constructor).
  split; [exact Hids|].
  destruct (buildPlaylist_mode_precedence example_host
              (example_snapshot [example_item "m1" "https://u/1.png"] None None)
              mode_offline example_world_on_disk Hids)
    as (playlist & w' & Hrun & Hmode & Hitems).
  exists playlist, w'. split; [exact Hrun|]. split; [exact Hmode|].
  rewrite Hitems. vm_compute. reflexivity.
Defined.

Create HintDb pres.

(** Observations of the world that only a snapshot request can change. *)
Section Preservation.
Context {X : Type} (f : World -> X).
Hypothesis f_ticks : forall n w, f (set_ticks n w) = f w.
Hypothesis f_disk : forall d w, f (set_disk d w) = f w.
Hypothesis f_cache : forall c w, f (set_cache c w) = f w.
Hypothesis f_snapshots : forall s w, f (set_snapshots s w) = f w.
Hypothesis f_emit : forall e w, is_http_get e = false -> f (emit e w) = f w.

Ltac stable :=
  repeat first [ rewrite f_emit by reflexivity | rewrite f_cache | rewrite f_disk
               | rewrite f_ticks | rewrite f_snapshots ];
  reflexivity.

Lemma preserves_ret {A} (a : A) : preserves f (ret a).
Proof. intros w. reflexivity. Qed.

Lemma preserves_throw {A} e : preserves f (@throw A e).
Proof. intros w. reflexivity. Qed.

Lemma preserves_gets {A} (g : World -> A) : preserves f (gets g).
Proof. intros w. reflexivity. Qed.

Lemma preserves_modify g : (forall w, f (g w) = f w) -> preserves f (modify g).
Proof. intros H w. apply H. Qed.

Lemma preserves_log level msg : preserves f (log level msg).
Proof. intros w. simpl. stable. Qed.

Lemma preserves_now h : preserves f (now h).
Proof. intros w. simpl. stable. Qed.

Lemma bind_tail {A B} (m : M A) (k : A -> M B) w :
  (forall a, preserves f (k a)) -> f (snd (bind m k w)) = f (snd (m w)).
Proof.
  intros Hk. unfold bind. destruct (m w) as [[a|e] w']; simpl; [apply Hk | reflexivity].
Qed.

Lemma preserves_bind {A B} (m : M A) (k : A -> M B) :
  preserves f m -> (forall a, preserves f (k a)) -> preserves f (bind m k).
Proof. intros Hm Hk w. rewrite bind_tail by exact Hk. apply Hm. Qed.

Lemma preserves_try_catch {A} (m : M A) handler :
  preserves f m -> (forall e, preserves f (handler e)) -> preserves f (try_catch m handler).
Proof.
  intros Hm Hh w. unfold try_catch. specialize (Hm w).
  destruct (m w) as [[a|e] w']; simpl in *; [exact Hm|].
  rewrite Hh. exact Hm.
Qed.

Lemma preserves_try_finally {A} (m : M A) cleanup :
  preserves f m -> (forall w, f (cleanup w) = f w) -> preserves f (try_finally m cleanup).
Proof.
  intros Hm Hc w. unfold try_finally. specialize (Hm w).
  destruct (m w) as [r w']; simpl in *. rewrite Hc. exact Hm.
Qed.

Ltac pres :=
  repeat (cbv zeta; first
    [ assumption
    | apply preserves_ret | apply preserves_throw | apply preserves_gets
    | apply preserves_log | apply preserves_now
    | apply preserves_modify; intros; stable
    | apply preserves_bind; [|intros]
    | apply preserves_try_catch; [|intros]
    | apply preserves_try_finally; [|intros; stable]
    | solve [auto with pres]
    | match goal with
      | |- preserves _ (if ?b then _ else _) => destruct b
      | |- preserves _ (match ?x with _ => _ end) => destruct x
      end ]).

Lemma preserves_removeEntry entry : preserves f (removeEntry entry).
Proof. unfold removeEntry, existsSync, unlinkSync. pres. Qed.
#[local] Hint Resolve preserves_removeEntry : pres.

Lemma preserves_evict_candidates cs sizeNeeded :
  forall available, preserves f (evict_candidates cs sizeNeeded available).
Proof.
  induction cs as [|c cs IH]; intros available; simpl; pres.
Qed.
#[local] Hint Resolve preserves_evict_candidates : pres.

Lemma preserves_evictIfNeeded sizeNeeded : preserves f (evictIfNeeded sizeNeeded).
Proof. unfold evictIfNeeded. pres. Qed.
#[local] Hint Resolve preserves_evictIfNeeded : pres.

Lemma preserves_download h url : preserves f (download h url).
Proof.
  intros w. unfold download.
  destruct (axios_get h (ticks w) url) as [data|status]; simpl; [stable|].
  destruct (status_is status 401 || status_is status 403)%bool; simpl; stable.
Qed.
#[local] Hint Resolve preserves_download : pres.

Lemma preserves_has h mediaId : preserves f (has h mediaId).
Proof. unfold has, existsSync, set_entry, delete_entry. pres. Qed.
#[local] Hint Resolve preserves_has : pres.

Lemma preserves_get h mediaId : preserves f (get h mediaId).
Proof. unfold get. pres. Qed.
#[local] Hint Resolve preserves_get : pres.

Lemma preserves_addInternal h mediaId url sha256 :
  preserves f (addInternal h mediaId url sha256).
Proof. unfold addInternal, atomicWrite, set_entry. pres. Qed.
#[local] Hint Resolve preserves_addInternal : pres.

Lemma preserves_add h mediaId url sha256 : preserves f (add h mediaId url sha256).
Proof. unfold add. pres. Qed.
#[local] Hint Resolve preserves_add : pres.

Lemma preserves_cacheItems h its : preserves f (cacheItems h its).
Proof. induction its as [|item rest IH]; simpl; pres. Qed.
#[local] Hint Resolve preserves_cacheItems : pres.

Lemma preserves_attachLocalMedia h its : preserves f (attachLocalMedia h its).
Proof. induction its as [|item rest IH]; simpl; pres. Qed.
#[local] Hint Resolve preserves_attachLocalMedia : pres.

Lemma preserves_buildPlaylist h snapshot mode : preserves f (buildPlaylist h snapshot mode).
Proof. unfold buildPlaylist. pres. Qed.
#[local] Hint Resolve preserves_buildPlaylist : pres.

Lemma preserves_applyOfflineFallback h reason : preserves f (applyOfflineFallback h reason).
Proof. unfold applyOfflineFallback. pres. Qed.
#[local] Hint Resolve preserves_applyOfflineFallback : pres.

Lemma preserves_fallBack h level msg reason : preserves f (fallBack h level msg reason).
Proof. unfold fallBack. pres. Qed.

Lemma preserves_run_parser {A} (p : Parser A) : preserves f (run_parser p).
Proof.
  intros w. unfold run_parser. destruct (p (ticks w)) as [[a n]|e]; simpl; [stable|reflexivity].
Qed.
#[local] Hint Resolve preserves_run_parser : pres.

(** After its request, an attempt changes nothing that is observed. *)
Lemma refreshAttempt_tail h d w :
  f (snd (refreshAttempt h d w)) = f (snd (httpGet h (snapshot_url d) w)).
Proof.
  unfold refreshAttempt. apply bind_tail. intros response.
  unfold persistSnapshot, cacheSnapshotMedia. pres.
Qed.
End Preservation.

Lemma http_gets_emit e w : is_http_get e = false -> http_gets (emit e w) = http_gets w.
Proof.
  intros H. unfold http_gets, emit. simpl.
  rewrite List.filter_app, length_app. simpl. rewrite H. simpl. lia.
Qed.

Lemma http_gets_httpGet h url w : http_gets (snd (httpGet h url w)) = S (http_gets w).
Proof.
  unfold httpGet.
  assert (H : http_gets (emit (EvHttpGet url) (set_ticks (S (ticks w)) w)) = S (http_gets w)).
  { unfold http_gets, emit. simpl. rewrite List.filter_app, length_app. simpl. lia. }
  destruct (http_get h (ticks w) url); simpl; exact H.
Qed.

Lemma deviceId_httpGet h url w : deviceId (snd (httpGet h url w)) = deviceId w.
Proof. unfold httpGet. destruct (http_get h (ticks w) url); reflexivity. Qed.

(** Every attempt makes exactly one snapshot request. *)
Lemma refreshAttempt_http_gets h d w :
  http_gets (snd (refreshAttempt h d w)) = S (http_gets w).
Proof.
  rewrite (refreshAttempt_tail http_gets); try reflexivity.
  - apply http_gets_httpGet.
  - apply http_gets_emit.
Qed.

Lemma refreshAttempt_deviceId h d w : deviceId (snd (refreshAttempt h d w)) = deviceId w.
Proof.
  rewrite (refreshAttempt_tail deviceId); try reflexivity. apply deviceId_httpGet.
Qed.

Lemma fallBack_http_gets h level msg reason w :
  http_gets (snd (fallBack h level msg reason w)) = http_gets w.
Proof. apply (preserves_fallBack http_gets); try reflexivity. apply http_gets_emit. Qed.

(** With the flag cleared the method never calls itself. *)
Lemma refreshSnapshot_body_flag_cleared h self1 self2 w :
  refreshSnapshot_body h self1 false w = refreshSnapshot_body h self2 false w.
Proof.
  unfold refreshSnapshot_body, bind, gets.
  destruct (deviceId w) as [d|]; [|reflexivity].
  destruct (String.eqb d ""); [reflexivity|].
  unfold try_catch. destruct (refreshAttempt h d w) as [[r|e] w1]; [reflexivity|].
  unfold refreshRecover. rewrite andb_false_r. reflexivity.
Qed.

Lemma refreshSnapshot_body_ext h self1 self2 retryOnExpired w :
  (forall w', self1 false w' = self2 false w') ->
  refreshSnapshot_body h self1 retryOnExpired w = refreshSnapshot_body h self2 retryOnExpired w.
Proof.
  intros Hself. unfold refreshSnapshot_body, bind, gets.
  destruct (deviceId w) as [d|]; [|reflexivity].
  destruct (String.eqb d ""); [reflexivity|].
  unfold try_catch. destruct (refreshAttempt h d w) as [[r|e] w1]; [reflexivity|].
  unfold refreshRecover.
  destruct (status_is (response_status e) 404); [reflexivity|].
  destruct (is_url_expired e && retryOnExpired)%bool; [|reflexivity].
  unfold bind, log. apply Hself.
Qed.

(** The recursion equation of [refreshSnapshot]. *)
Lemma refreshSnapshot_unfold h retryOnExpired w :
  refreshSnapshot h retryOnExpired w
  = refreshSnapshot_body h (refreshSnapshot h) retryOnExpired w.
Proof.
  unfold refreshSnapshot at 1. apply refreshSnapshot_body_ext.
  intros w'. unfold refreshSnapshot. apply refreshSnapshot_body_flag_cleared.
Qed.

(** What a call with the flag cleared does, in terms of its one attempt. *)
Lemma refreshSnapshot_flag_cleared h w d :
  deviceId w = Some d -> d <> "" ->
  refreshSnapshot h false w =
    match refreshAttempt h d w with
    | (Normal r, w1) => (Normal r, w1)
    | (Throw e, w1) =>
        if status_is (response_status e) 404
        then fallBack h "warn" "Snapshot not found (404), using offline fallback if available"
               "No published snapshot available" w1
        else fallBack h "error" "Snapshot fetch failed, using offline fallback"
               (error_message e) w1
    end.
Proof.
  intros Hd Hne. unfold refreshSnapshot, refreshSnapshot_body, bind, gets. rewrite Hd.
  apply String.eqb_neq in Hne. rewrite Hne.
  unfold try_catch. destruct (refreshAttempt h d w) as [[r|e] w1]; [reflexivity|].
  unfold refreshRecover. rewrite andb_false_r.
  destruct (status_is (response_status e) 404); reflexivity.
Qed.

Lemma refreshSnapshot_flag_cleared_http_gets h w d :
  deviceId w = Some d -> d <> "" ->
  http_gets (snd (refreshSnapshot h false w)) = S (http_gets w).
Proof.
  intros Hd Hne. rewrite (refreshSnapshot_flag_cleared h w d Hd Hne).
  pose proof (refreshAttempt_http_gets h d w) as Hn.
  destruct (refreshAttempt h d w) as [[r|e] w1]; simpl in *; [exact Hn|].
  destruct (status_is (response_status e) 404); rewrite fallBack_http_gets; exact Hn.
Qed.

Lemma url_expired_not_404 e : is_url_expired e = true -> status_is (response_status e) 404 = false.
Proof. destruct e; simpl; try discriminate. reflexivity. Qed.

(** C4.  In one refresh cycle of a paired device the snapshot is requested
    once and refetched at most once.  If caching the media of the first
    snapshot raises URL_EXPIRED, the method calls itself once with the
    retry flag cleared, so the cycle makes exactly two requests; if the
    second attempt raises URL_EXPIRED as well, there is no further request
    and the cycle ends on the offline-fallback path. *)
Theorem refreshSnapshot_refetches_once h w d :
  deviceId w = Some d -> d <> "" ->
  (http_gets w + 1 <= http_gets (snd (refreshSnapshot h true w)) <= http_gets w + 2)%nat /\
  (forall e1 w1,
      refreshAttempt h d w = (Throw e1, w1) -> is_url_expired e1 = true ->
      let w1' := emit (EvLog "warn" "Media URL expired, refetching snapshot") w1 in
      refreshSnapshot h true w = refreshSnapshot h false w1' /\
      http_gets (snd (refreshSnapshot h true w)) = (http_gets w + 2)%nat /\
      (forall e2 w2,
          refreshAttempt h d w1' = (Throw e2, w2) -> is_url_expired e2 = true ->
          refreshSnapshot h true w
          = fallBack h "error" "Snapshot fetch failed, using offline fallback"
              (error_message e2) w2 /\
          http_gets (snd (refreshSnapshot h true w)) = http_gets w2)).
Proof.
  intros Hd Hne.
  assert (Hretry : forall e1 w1,
    refreshAttempt h d w = (Throw e1, w1) -> is_url_expired e1 = true ->
    refreshSnapshot h true w
    = refreshSnapshot h false (emit (EvLog "warn" "Media URL expired, refetching snapshot") w1)).
  { intros e1 w1 Hatt Hexp. rewrite refreshSnapshot_unfold.
    unfold refreshSnapshot_body, bind, gets. rewrite Hd.
    pose proof Hne as Hne'. apply String.eqb_neq in Hne'. rewrite Hne'.
    unfold try_catch. rewrite Hatt. unfold refreshRecover.
    rewrite (url_expired_not_404 e1 Hexp), Hexp. reflexivity. }
  assert (Hdev1 : forall r w1, refreshAttempt h d w = (r, w1) ->
                    deviceId w1 = Some d /\ http_gets w1 = S (http_gets w)).
  { intros r w1 Hatt.
    pose proof (refreshAttempt_deviceId h d w) as H1.
    pose proof (refreshAttempt_http_gets h d w) as H2.
    rewrite Hatt in H1, H2. simpl in *. split; congruence. }
  split.
  - rewrite refreshSnapshot_unfold. unfold refreshSnapshot_body, bind, gets. rewrite Hd.
    pose proof Hne as Hne'. apply String.eqb_neq in Hne'. rewrite Hne'.
    unfold try_catch. destruct (refreshAttempt h d w) as [[r|e] w1] eqn:Hatt.
    + destruct (Hdev1 _ _ eq_refl) as [_ Hn1]. simpl. lia.
    + destruct (Hdev1 _ _ eq_refl) as [Hd1 Hn1]. unfold refreshRecover.
      destruct (status_is (response_status e) 404);
        [rewrite fallBack_http_gets; lia|].
      destruct (is_url_expired e); simpl; [|rewrite fallBack_http_gets; lia].
      unfold bind, log.
      rewrite (refreshSnapshot_flag_cleared_http_gets h _ d); [|exact Hd1|exact Hne].
      rewrite http_gets_emit by reflexivity. lia.
  - intros e1 w1 Hatt Hexp w1'.
    destruct (Hdev1 _ _ Hatt) as [Hd1 Hn1].
    assert (Hd1' : deviceId w1' = Some d) by exact Hd1.
    assert (Hn1' : http_gets w1' = S (http_gets w)).
    { unfold w1'. rewrite http_gets_emit by reflexivity. exact Hn1. }
    split; [exact (Hretry e1 w1 Hatt Hexp)|].
    split.
    + rewrite (Hretry e1 w1 Hatt Hexp). fold w1'.
      rewrite (refreshSnapshot_flag_cleared_http_gets h w1' d Hd1' Hne). lia.
    + intros e2 w2 Hatt2 Hexp2.
      rewrite (Hretry e1 w1 Hatt Hexp). fold w1'.
      rewrite (refreshSnapshot_flag_cleared h w1' d Hd1' Hne), Hatt2.
      rewrite (url_expired_not_404 e2 Hexp2).
      split; [reflexivity|]. apply fallBack_http_gets.
Qed.

Lemma refreshSnapshot_refetches_once_witness :
  deviceId example_world = Some "dev-1" /\
  http_gets (snd (refreshSnapshot example_host true example_world)) = 2%nat /\
  exists reason w2,
    refreshSnapshot example_host true example_world
    = fallBack example_host "error" "Snapshot fetch failed, using offline fallback" reason w2.
Proof.
  destruct (refreshSnapshot_refetches_once example_host example_world "dev-1"
              eq_refl ltac:(discriminate)) as [_ H].
  specialize (H (CacheError "Presigned URL expired" (Some 403) (Some "URL_EXPIRED"))
                (snd (refreshAttempt example_host "dev-1" example_world))
                ltac:(vm_compute; reflexivity) eq_refl).
  destruct H as (_ & Hcount & Hsecond).
  split; [reflexivity|]. split; [exact Hcount|].
  specialize (Hsecond
    (CacheError "Presigned URL expired" (Some 403) (Some "URL_EXPIRED"))
    (snd (refreshAttempt example_host "dev-1"
            (emit (EvLog "warn" "Media URL expired, refetching snapshot")
                  (snd (refreshAttempt example_host "dev-1" example_world)))))
    ltac:(vm_compute; reflexivity) eq_refl).
  destruct Hsecond as [Hfall _].
  eexists _, _. exact Hfall.
Defined.

(* ===================================================================== *)
(** ** Properties of the playback engine                                   *)
(* ===================================================================== *)

Lemma call_errorCount failure stage x r :
  pe_errorCount (snd (call failure stage x r)) = pe_errorCount (snd r).
Proof.
  unfold call. destruct r as [[u|err] e]; [|reflexivity].
  destruct failure as [[s msg]|]; [destruct (stage_eqb s stage)|]; reflexivity.
Qed.

Lemma handlePlayItem_errorCount item failure e :
  pe_errorCount (snd (handlePlayItem item failure e)) = pe_errorCount e.
Proof.
  unfold handlePlayItem, skip. rewrite call_errorCount.
  destruct (pe_mainWindow (set_currentItem (Some item) e));
    rewrite ?call_errorCount;
    destruct (truthy (pe_currentScheduleId (set_currentItem (Some item) e)));
    rewrite ?call_errorCount;
    destruct (truthy (ti_mediaId item ||| ti_objectKey item));
    rewrite ?call_errorCount; reflexivity.
Qed.

Lemma call_normal stage x r :
  fst r = Normal tt -> fst (call None stage x r) = Normal tt.
Proof. destruct r as [[[]|err] e]; simpl; [reflexivity | discriminate]. Qed.

Lemma handlePlayItem_succeeds item e : fst (handlePlayItem item None e) = Normal tt.
Proof.
  unfold handlePlayItem, skip.
  repeat first [ apply call_normal
               | match goal with |- context [if ?b then _ else _] => destruct b end
               | reflexivity ].
Qed.

Lemma startPlaylist_errorCount playlist e :
  pe_errorCount (snd (startPlaylist playlist e)) = pe_errorCount e.
Proof.
  unfold startPlaylist.
  repeat match goal with
         | |- context [if ?b then _ else _] => destruct b
         end; reflexivity.
Qed.

Lemma handleError_errorCount msg e :
  pe_errorCount (handleError msg e) = pe_errorCount e + 1.
Proof.
  unfold handleError. simpl.
  destruct (pe_errorCount e + 1 >=? maxErrors); [reflexivity|].
  destruct (pe_mainWindow e); reflexivity.
Qed.

Lemma engine_step_errorCount e i :
  pe_errorCount e <= pe_errorCount (engine_step e i).
Proof.
  destruct i as [item failure|item|current next| |playlist|current|]; simpl;
    try (unfold handleItemComplete, handleTransitionStart, stop;
         repeat match goal with
                | |- context [if ?b then _ else _] => destruct b
                | |- context [match ?x with _ => _ end] => destruct x
                end; simpl; lia).
  - unfold onPlayItem. pose proof (handlePlayItem_errorCount item failure e) as H.
    destruct (handlePlayItem item failure e) as [[u|err] e']; simpl in H;
      [|rewrite handleError_errorCount]; lia.
  - unfold onPlaylistUpdated. rewrite startPlaylist_errorCount. simpl. lia.
  - unfold start. destruct (pe_state e); simpl; try lia;
      (destruct current as [playlist|]; simpl;
       [destruct (length (pl_items playlist) =? 0)%nat; simpl;
        [rewrite handleError_errorCount; simpl; lia|];
        pose proof (startPlaylist_errorCount playlist e) as H;
        destruct (startPlaylist playlist e) as [[u|err] e']; simpl in *;
        [|rewrite handleError_errorCount; simpl]; lia
       |rewrite handleError_errorCount; simpl; lia]).
Qed.

(** C3, as the code has it.  Every playback error adds one to the error
    counter.  While the new count is below 5 the engine reports the error,
    sends [show-fallback] to the renderer if a window is attached, and
    leaves its state and the scheduler alone; from the fifth error on it
    stops playback, enters state [error] and emits [playback-error] with
    "Max errors reached".  Nothing ever lowers the counter: a successful
    play-item and a playlist update leave it unchanged, and no sequence of
    events decreases it. *)
Theorem handleError_budget e msg :
  pe_errorCount (handleError msg e) = pe_errorCount e + 1 /\
  (pe_errorCount e + 1 < 5 ->
     pe_state (handleError msg e) = pe_state e /\
     pe_schedulerRunning (handleError msg e) = pe_schedulerRunning e /\
     pe_effects (handleError msg e)
     = (pe_effects e ++ TelemetryReportError msg ::
          (if pe_mainWindow e then [SendShowFallback msg] else []))%list) /\
  (5 <= pe_errorCount e + 1 ->
     pe_state (handleError msg e) = state_error /\
     pe_schedulerRunning (handleError msg e) = false /\
     pe_effects (handleError msg e)
     = (pe_effects e ++ [TelemetryReportError msg; SchedulerStop; Emit playback_stopped;
                         Emit (playback_error "Max errors reached" msg)])%list) /\
  (forall item, pe_errorCount (onPlayItem item None e) = pe_errorCount e) /\
  (forall playlist, pe_errorCount (onPlaylistUpdated playlist e) = pe_errorCount e) /\
  (forall inputs, pe_errorCount e <= pe_errorCount (engine_run e inputs)).
Proof.
  split; [apply handleError_errorCount|].
  split; [|split; [|split; [|split]]].
  - intros Hlt. unfold handleError. simpl.
    destruct (Z.geb_spec (pe_errorCount e + 1) maxErrors) as [Hge|_];
      [unfold maxErrors in Hge; lia|].
    destruct (pe_mainWindow e); simpl; repeat split; try reflexivity.
    rewrite <- app_assoc. reflexivity.
  - intros Hge. unfold handleError. simpl.
    destruct (Z.geb_spec (pe_errorCount e + 1) maxErrors) as [_|Hlt];
      [|unfold maxErrors in Hlt; lia].
    simpl. repeat split; try reflexivity.
    rewrite <- !app_assoc. reflexivity.
  - intros item. unfold onPlayItem.
    pose proof (handlePlayItem_errorCount item None e) as H.
    pose proof (handlePlayItem_succeeds item e) as Hn.
    destruct (handlePlayItem item None e) as [[u|err] e']; simpl in *;
      [exact H | discriminate].
  - intros playlist. unfold onPlaylistUpdated. rewrite startPlaylist_errorCount. reflexivity.
  - intros inputs. unfold engine_run. revert e.
    induction inputs as [|i rest IH]; intros e; simpl; [lia|].
    specialize (IH (engine_step e i)).
    pose proof (engine_step_errorCount e i). lia.
Qed.

Lemma handleError_budget_witness :
  let e := initialize newPlaybackEngine in
  pe_errorCount e + 1 < 5 /\
  pe_state (handleError "decode failed" e) = state_stopped /\
  pe_effects (handleError "decode failed" e)
  = [TelemetryReportError "decode failed"; SendShowFallback "decode failed"] /\
  5 <= pe_errorCount (set_errorCount 4 e) + 1 /\
  pe_state (handleError "decode failed" (set_errorCount 4 e)) = state_error.
Proof.
  intros e.
  pose proof (handleError_budget e "decode failed") as (_ & Hlow & _).
  pose proof (handleError_budget (set_errorCount 4 e) "decode failed") as (_ & _ & Hhigh & _).
  assert (H1 : pe_errorCount e + 1 < 5) by (simpl; lia).
  assert (H2 : 5 <= pe_errorCount (set_errorCount 4 e) + 1) by (simpl; lia).
  destruct (Hlow H1) as (Hs & _ & Hf). destruct (Hhigh H2) as (Hs' & _).
  repeat split; try assumption.
Defined.

(** One failed play-item followed by a successful one leaves the counter
    at 1; and four failures, a success and one more failure exhaust the
    budget although no five errors were consecutive. *)
Lemma errorCount_not_reset_by_success :
  let it := example_item "m1" "https://u/1.mp4" in
  let e0 := initialize newPlaybackEngine in
  pe_errorCount (engine_run e0 [PlayItem it failing_send; PlayItem it None]) = 1 /\
  let e := engine_run e0 [PlayItem it failing_send; PlayItem it failing_send;
                          PlayItem it failing_send; PlayItem it failing_send;
                          PlayItem it None; PlayItem it failing_send] in
  pe_state e = state_error /\
  last (pe_effects e)
  = Some (Emit (playback_error "Max errors reached" "Object has been destroyed")).
Proof. vm_compute. repeat split; reflexivity. Qed.

(* ===================================================================== *)
(** ** Properties of the command processor                                 *)
(* ===================================================================== *)


(** [processCommand] in one piece. *)
Lemma processCommand_unfold p a :
  processCommand p a =
  let command := arr_command a in
  if bool_decide (cmd_id command ∈ processingCommands p) then p
  else if isRateLimited p (cmd_type command) (arr_at a) then
    acknowledgeCommand (cmd_id command) (failure_result "Rate limited") p
  else
    let p1 := set_processing ({[cmd_id command]} ∪ processingCommands p) p in
    let p2 := record_event (Dispatched (cmd_type command) (cmd_id command) (arr_at a)) p1 in
    let result := dispatch command (arr_outcome a) in
    let p3 := remember (cmd_id command) result p2 in
    let p4 := acknowledgeCommand (cmd_id command) result p3 in
    let p5 := updateRateLimit (cmd_type command) (arr_done a) p4 in
    set_processing (processingCommands p5 ∖ {[cmd_id command]}) p5.
Proof.
  unfold processCommand, processCommand_enter. cbv zeta.
  destruct (bool_decide _); [reflexivity|].
  destruct (isRateLimited _ _ _); reflexivity.
Qed.











(** The first is dispatched and acknowledged with success, the second is
    only acknowledged, with "Rate limited". *)
Example rate_limited_screenshot :
  cp_events (processCommands newCommandProcessor example_arrivals)
  = [Dispatched "SCREENSHOT" "c1" 1700000000000;
     Acknowledged "c1" (ok_result "Screenshot captured" (Some "shots/1.png"));
     Acknowledged "c2" (failure_result "Rate limited")].
Proof. vm_compute. reflexivity. Qed.

(* ===================================================================== *)
(** ** Further properties of the cache manager                             *)
(* ===================================================================== *)

(** What [removeEntry] leaves behind. *)
Lemma removeEntry_eq entry w :
  exists w' more,
    removeEntry entry w = (Normal tt, w') /\
    entries (cache w') = assoc_remove (ce_mediaId entry) (entries (cache w)) /\
    nowPlaying (cache w') = nowPlaying (cache w) /\
    maxBytes (cache w') = maxBytes (cache w) /\
    trace w' = (trace w ++ more)%list /\ Forall (fun e => ~ capacity_warning e) more.
Proof.
  unfold removeEntry. unfold_M.
  destruct (existsb _ (disk w)).
  - eexists _, [_]. split; [reflexivity|]. simpl. repeat split.
    repeat constructor. intros [H|H]; discriminate.
  - eexists _, []. split; [reflexivity|]. simpl. rewrite app_nil_r. repeat split. constructor.
Qed.

(** The eviction loop removes a prefix of its candidates, keeps [available]
    equal to the free space, and stops at the first moment there is room. *)
Lemma evict_candidates_spec cs sizeNeeded :
  forall available w,
    available = maxBytes (cache w) - getUsedBytes (cache w) ->
    exists evicted kept w' available' more,
      cs = (evicted ++ kept)%list /\
      evict_candidates cs sizeNeeded available w = (Normal available', w') /\
      entries (cache w') = remove_all evicted (entries (cache w)) /\
      nowPlaying (cache w') = nowPlaying (cache w) /\
      maxBytes (cache w') = maxBytes (cache w) /\
      available' = maxBytes (cache w') - getUsedBytes (cache w') /\
      (kept = [] \/ sizeNeeded <= available') /\
      (evicted <> [] -> available < sizeNeeded) /\
      trace w' = (trace w ++ more)%list /\ Forall (fun e => ~ capacity_warning e) more.
Proof.
  induction cs as [|c cs IH]; intros available w Hav; simpl.
  - exists [], [], w, available, [].
    repeat split; rewrite ?app_nil_r; auto; congruence.
  - destruct (Z.geb_spec available sizeNeeded) as [Hge|Hlt].
    + exists [], (c :: cs), w, available, [].
      repeat split; rewrite ?app_nil_r; auto; try congruence; try (right; lia).
    + unfold bind at 1.
      destruct (removeEntry_eq c w) as (w1 & more1 & -> & He1 & Hp1 & Hm1 & Ht1 & Hq1).
      unfold bind at 1. unfold gets at 1.
      destruct (IH (maxBytes (cache w1) - getUsedBytes (cache w1)) w1 eq_refl)
        as (evicted & kept & w' & available' & more & -> & Hrun & He & Hp & Hm & Hav' & Hstop & _
            & Ht & Hq).
      exists (c :: evicted), kept, w', available', (more1 ++ more)%list.
      split; [reflexivity|]. split; [exact Hrun|].
      split; [rewrite He, He1; reflexivity|].
      split; [congruence|]. split; [congruence|]. split; [exact Hav'|].
      split; [exact Hstop|]. split; [intros _; exact Hlt|].
      split; [rewrite Ht, Ht1, app_assoc; reflexivity|].
      apply Forall_app; split; assumption.
Qed.

Lemma insert_by_lastUsedAt_In x y l :
  In y (insert_by_lastUsedAt x l) <-> y = x \/ In y l.
Proof.
  induction l as [|z l IH]; simpl; [intuition|].
  destruct (ce_lastUsedAt x <=? ce_lastUsedAt z); simpl; [intuition|].
  rewrite IH. intuition.
Qed.

Lemma sort_by_lastUsedAt_In y l : In y (sort_by_lastUsedAt l) <-> In y l.
Proof.
  induction l as [|x l IH]; simpl; [reflexivity|].
  rewrite insert_by_lastUsedAt_In, IH. intuition.
Qed.

Lemma insert_by_lastUsedAt_sorted x l :
  StronglySorted (fun a b => ce_lastUsedAt a <= ce_lastUsedAt b) l ->
  StronglySorted (fun a b => ce_lastUsedAt a <= ce_lastUsedAt b) (insert_by_lastUsedAt x l).
Proof.
  induction l as [|z l IH]; intros Hs; simpl.
  - repeat constructor.
  - apply StronglySorted_inv in Hs as [Hs Hz].
    destruct (Z.leb_spec (ce_lastUsedAt x) (ce_lastUsedAt z)) as [Hle|Hgt].
    + constructor; [constructor; assumption|].
      constructor; [exact Hle|].
      apply Forall_forall. intros a Ha.
      rewrite Forall_forall in Hz. specialize (Hz a Ha). simpl in Hz. lia.
    + constructor; [apply IH; exact Hs|].
      apply Forall_forall. intros a Ha. apply list_elem_of_In in Ha.
      apply insert_by_lastUsedAt_In in Ha as [->|Ha]; [lia|].
      rewrite Forall_forall in Hz. specialize (Hz a). simpl in Hz.
      apply Hz, list_elem_of_In, Ha.
Qed.

Lemma sort_by_lastUsedAt_sorted l :
  StronglySorted (fun a b => ce_lastUsedAt a <= ce_lastUsedAt b) (sort_by_lastUsedAt l).
Proof.
  induction l as [|x l IH]; simpl; [constructor|].
  apply insert_by_lastUsedAt_sorted, IH.
Qed.

Lemma sorted_prefix_below (pre post : list CacheEntry) :
  StronglySorted (fun a b => ce_lastUsedAt a <= ce_lastUsedAt b) (pre ++ post) ->
  forall a b, In a pre -> In b post -> ce_lastUsedAt a <= ce_lastUsedAt b.
Proof.
  induction pre as [|x pre IH]; intros Hs a b Ha Hb; [destruct Ha|].
  simpl in Hs. apply StronglySorted_inv in Hs as [Hs Hx].
  destruct Ha as [->|Ha]; [|exact (IH Hs a b Ha Hb)].
  rewrite Forall_forall in Hx. apply Hx, list_elem_of_In, in_or_app. right. exact Hb.
Qed.

(** [evictIfNeeded] in one statement: it removes a prefix of the sorted
    candidates and either ends with room for [sizeNeeded] or logs one of
    its two warnings last. *)
Lemma evictIfNeeded_spec sizeNeeded w :
  exists evicted kept w' more,
    eviction_candidates (cache w) = (evicted ++ kept)%list /\
    evictIfNeeded sizeNeeded w = (Normal tt, w') /\
    entries (cache w') = remove_all evicted (entries (cache w)) /\
    nowPlaying (cache w') = nowPlaying (cache w) /\
    maxBytes (cache w') = maxBytes (cache w) /\
    trace w' = (trace w ++ more)%list /\
    (evicted <> [] -> maxBytes (cache w) - getUsedBytes (cache w) < sizeNeeded) /\
    ((sizeNeeded <= maxBytes (cache w') - getUsedBytes (cache w') /\
      Forall (fun e => ~ capacity_warning e) more)
     \/ exists e, last more = Some e /\ capacity_warning e).
Proof.
  unfold evictIfNeeded. unfold bind at 1. unfold gets at 1.
  destruct ((sizeNeeded >? maxBytes (cache w)) && (maxBytes (cache w) >? 0))%bool.
  - exists [], (eviction_candidates (cache w)). eexists _, [_].
    split; [reflexivity|]. split; [reflexivity|]. simpl.
    repeat split; try congruence.
    right. eexists. split; [reflexivity|]. left. reflexivity.
  - destruct (Z.geb_spec (maxBytes (cache w) - getUsedBytes (cache w)) sizeNeeded) as [Hge|Hlt].
    + exists [], (eviction_candidates (cache w)), w, [].
      rewrite app_nil_r. repeat split; try congruence.
      left. split; [lia | constructor].
    + destruct (evict_candidates_spec (eviction_candidates (cache w)) sizeNeeded
                  (maxBytes (cache w) - getUsedBytes (cache w)) w eq_refl)
        as (evicted & kept & w1 & available' & more & Hsplit & Hrun & He & Hp & Hm & Hav
            & Hstop & Hwhy & Ht & Hq).
      unfold bind. fold (eviction_candidates (cache w)). rewrite Hrun.
      destruct (Z.ltb_spec available' sizeNeeded) as [Hshort|Hroom].
      * exists evicted, kept. eexists _, (more ++ [_])%list.
        split; [exact Hsplit|]. split; [reflexivity|]. simpl.
        split; [exact He|]. split; [exact Hp|]. split; [exact Hm|].
        split; [rewrite Ht, app_assoc; reflexivity|].
        split; [intros _; exact Hlt|].
        right. eexists. split; [apply last_snoc|]. right. reflexivity.
      * exists evicted, kept, w1, more.
        split; [exact Hsplit|]. split; [reflexivity|].
        split; [exact He|]. split; [exact Hp|]. split; [exact Hm|].
        split; [exact Ht|]. split; [intros _; exact Hlt|].
        left. split; [lia | exact Hq].
Qed.

Lemma remove_all_spares evicted k :
  Forall (fun c => ce_mediaId c <> k) evicted ->
  forall es, assoc k (remove_all evicted es) = assoc k es.
Proof.
  unfold remove_all. induction evicted as [|c evicted IH]; intros Hne es; simpl; [reflexivity|].
  apply Forall_cons_1 in Hne as [Hc Hrest].
  rewrite (IH Hrest). apply assoc_remove_other. exact Hc.
Qed.

Lemma eviction_candidates_In c a :
  In a (eviction_candidates c) <->
  In a (map snd (entries c)) /\ ce_mediaId a ∉ nowPlaying c.
Proof.
  unfold eviction_candidates. rewrite sort_by_lastUsedAt_In, filter_In.
  rewrite negb_true_iff, bool_decide_eq_false. reflexivity.
Qed.

(** X1.  Eviction never takes an entry that is marked now-playing: whatever
    size is asked for, the now-playing set is unchanged and every media id
    in it is indexed after [evictIfNeeded] exactly as before. *)
Theorem evictIfNeeded_spares_now_playing sizeNeeded w :
  let w' := snd (evictIfNeeded sizeNeeded w) in
  nowPlaying (cache w') = nowPlaying (cache w) /\
  forall k, k ∈ nowPlaying (cache w) ->
            assoc k (entries (cache w')) = assoc k (entries (cache w)).
Proof.
  destruct (evictIfNeeded_spec sizeNeeded w)
    as (evicted & kept & w' & more & Hsplit & Hrun & He & Hp & _).
  rewrite Hrun. simpl. split; [exact Hp|].
  intros k Hk. rewrite He. apply remove_all_spares.
  apply Forall_forall. intros c Hc Heq. apply list_elem_of_In in Hc.
  assert (Hin : In c (eviction_candidates (cache w))).
  { rewrite Hsplit. apply in_or_app. left. exact Hc. }
  apply eviction_candidates_In in Hin as [_ Hnot]. apply Hnot. rewrite Heq. exact Hk.
Qed.

(** X2.  Eviction is least-recently-used first: the candidates (the entries
    not marked now-playing) split into the evicted ones and the kept ones,
    the evicted ones are what is removed from the index, and no evicted
    entry was used more recently than a kept candidate.  Nothing is
    evicted unless the free space was short of the requested size. *)
Theorem eviction_is_least_recently_used sizeNeeded w :
  let w' := snd (evictIfNeeded sizeNeeded w) in
  exists evicted kept,
    (forall a, In a (evicted ++ kept) <->
               In a (map snd (entries (cache w))) /\ ce_mediaId a ∉ nowPlaying (cache w)) /\
    entries (cache w') = remove_all evicted (entries (cache w)) /\
    (forall a b, In a evicted -> In b kept -> ce_lastUsedAt a <= ce_lastUsedAt b) /\
    (evicted <> [] -> maxBytes (cache w) - getUsedBytes (cache w) < sizeNeeded).
Proof.
  destruct (evictIfNeeded_spec sizeNeeded w)
    as (evicted & kept & w' & more & Hsplit & Hrun & He & _ & _ & _ & Hwhy & _).
  rewrite Hrun. simpl. exists evicted, kept.
  split; [intros a; rewrite <- Hsplit; apply eviction_candidates_In|].
  split; [exact He|]. split; [|exact Hwhy].
  apply sorted_prefix_below. rewrite <- Hsplit.
  apply sort_by_lastUsedAt_sorted.
Qed.

(** X3.  [evictIfNeeded] never fails, and when it returns either the free
    space covers the requested size or the last thing it logged is one of
    its two capacity warnings. *)
Theorem evictIfNeeded_room_or_warning sizeNeeded w :
  exists w' more,
    evictIfNeeded sizeNeeded w = (Normal tt, w') /\
    trace w' = (trace w ++ more)%list /\
    (sizeNeeded <= maxBytes (cache w') - getUsedBytes (cache w') \/
     exists e, last more = Some e /\ capacity_warning e).
Proof.
  destruct (evictIfNeeded_spec sizeNeeded w)
    as (evicted & kept & w' & more & _ & Hrun & _ & _ & _ & Ht & _ & Hend).
  exists w', more. split; [exact Hrun|]. split; [exact Ht|].
  destruct Hend as [[Hroom _]|Hwarn]; [left; exact Hroom | right; exact Hwarn].
Qed.

Lemma removeEntry_static entry w :
  cacheDir (cache (snd (removeEntry entry w))) = cacheDir (cache w) /\
  inFlight (cache (snd (removeEntry entry w))) = inFlight (cache w).
Proof.
  unfold removeEntry. unfold_M. destruct (existsb _ (disk w)); simpl; auto.
Qed.

Lemma evict_candidates_static cs sizeNeeded :
  forall available w,
    cacheDir (cache (snd (evict_candidates cs sizeNeeded available w))) = cacheDir (cache w) /\
    inFlight (cache (snd (evict_candidates cs sizeNeeded available w))) = inFlight (cache w).
Proof.
  induction cs as [|c cs IH]; intros available w; simpl; [auto|].
  destruct (available >=? sizeNeeded); [simpl; auto|].
  unfold bind at 1 3.
  destruct (removeEntry_eq c w) as (w1 & more & Hrun & _).
  pose proof (removeEntry_static c w) as [Hd Hf]. rewrite Hrun in *. simpl in Hd, Hf.
  unfold bind, gets.
  destruct (IH (maxBytes (cache w1) - getUsedBytes (cache w1)) w1) as [Hd' Hf'].
  split; congruence.
Qed.

Lemma evictIfNeeded_static sizeNeeded w :
  cacheDir (cache (snd (evictIfNeeded sizeNeeded w))) = cacheDir (cache w) /\
  inFlight (cache (snd (evictIfNeeded sizeNeeded w))) = inFlight (cache w).
Proof.
  unfold evictIfNeeded. unfold bind at 1 3. unfold gets at 1 2.
  destruct ((sizeNeeded >? maxBytes (cache w)) && (maxBytes (cache w) >? 0))%bool;
    [simpl; auto|].
  destruct (maxBytes (cache w) - getUsedBytes (cache w) >=? sizeNeeded); [simpl; auto|].
  unfold bind.
  match goal with
  | |- context [evict_candidates ?cs ?s ?a w] =>
      pose proof (evict_candidates_static cs s a w) as [Hd Hf];
      destruct (evict_candidates_spec cs s a w eq_refl)
        as (ev & kp & w1 & a' & more & _ & Hrun & _)
  end.
  rewrite Hrun in *. simpl in Hd, Hf.
  destruct (a' <? sizeNeeded); simpl; auto.
Qed.

Lemma assoc_set_fresh {A} k (v : A) l : assoc k l = None -> assoc_set k v l = (l ++ [(k, v)])%list.
Proof.
  induction l as [|[k0 v0] l IH]; simpl; [reflexivity|].
  destruct (String.eqb k k0); [discriminate|]. intros H. rewrite (IH H). reflexivity.
Qed.

Lemma assoc_remove_none {A} k k' (l : list (string * A)) :
  assoc k l = None -> assoc k (assoc_remove k' l) = None.
Proof.
  intros H. destruct (decide (k' = k)) as [->|Hne]; [apply assoc_remove_eq|].
  rewrite assoc_remove_other by exact Hne. exact H.
Qed.

Lemma remove_all_none evicted k :
  forall es, assoc k es = None -> assoc k (remove_all evicted es) = None.
Proof.
  unfold remove_all. induction evicted as [|c evicted IH]; intros es H; simpl; [exact H|].
  apply IH, assoc_remove_none, H.
Qed.

Lemma sum_sizes_shift (l : list (string * CacheEntry)) a :
  fold_left (fun total e => total + ce_size (snd e)) l a
  = a + fold_left (fun total e => total + ce_size (snd e)) l 0.
Proof.
  revert a. induction l as [|x l IH]; intros a; simpl; [lia|].
  rewrite (IH (a + ce_size (snd x))), (IH (0 + ce_size (snd x))). lia.
Qed.

Lemma getUsedBytes_fresh c k e :
  assoc k (entries c) = None ->
  getUsedBytes (set_entries (assoc_set k e (entries c)) c) = getUsedBytes c + ce_size e.
Proof.
  intros H. unfold getUsedBytes. simpl. rewrite (assoc_set_fresh k e _ H).
  rewrite fold_left_app. simpl. reflexivity.
Qed.

(** The part of [addInternal] after a download that passes the integrity
    check, given what [evictIfNeeded] does. *)
Lemma addInternal_downloaded h mediaId url sha256 w data w_e :
  axios_get h (ticks w) url = Downloaded data ->
  (truthy sha256 && negb (strict_eq_str sha256 (buf_sha256 data)))%bool = false ->
  evictIfNeeded (buf_length data) (emit (EvDownload url) (set_ticks (S (ticks w)) w))
  = (Normal tt, w_e) ->
  exists w2,
    addInternal h mediaId url sha256 w = (Normal tt, w2) /\
    entries (cache w2)
    = assoc_set mediaId
        {| ce_mediaId := mediaId; ce_sha256 := sha256 ||| VStr (buf_sha256 data);
           ce_size := buf_length data; ce_lastUsedAt := Date_now h (ticks w_e);
           ce_localPath := path_join (cacheDir (cache w_e)) (getFileName h mediaId url);
           ce_status := ready |}
        (entries (cache w_e)) /\
    disk w2 = assoc_set (getFileName h mediaId url) (buf_length data) (disk w_e) /\
    cacheDir (cache w2) = cacheDir (cache w_e) /\
    maxBytes (cache w2) = maxBytes (cache w_e) /\
    nowPlaying (cache w2) = nowPlaying (cache w_e) /\
    inFlight (cache w2) = inFlight (cache w_e) /\
    ticks w2 = S (ticks w_e) /\
    trace w2 = (trace w_e ++
                  [EvWriteFile (path_join (cacheDir (cache w_e)) (getFileName h mediaId url))
                               (buf_length data);
                   EvLog "info" "Cached item added"])%list.
Proof.
  intros Hdl Hsha Hev. unfold addInternal. unfold bind at 1.
  unfold download. rewrite Hdl, Hsha. unfold bind at 1. rewrite Hev.
  unfold_M. cbn -[assoc_set path_join getFileName].
  eexists. split; [reflexivity|].
  cbn -[assoc_set path_join getFileName].
  repeat split; try reflexivity. rewrite <- app_assoc. reflexivity.
Qed.

Lemma has_false_inv h mediaId w w1 :
  has h mediaId w = (Normal false, w1) ->
  assoc mediaId (entries (cache w1)) = None /\
  disk w1 = disk w /\ trace w1 = trace w /\
  cacheDir (cache w1) = cacheDir (cache w) /\
  maxBytes (cache w1) = maxBytes (cache w) /\
  nowPlaying (cache w1) = nowPlaying (cache w) /\
  (forall k, k <> mediaId -> assoc k (entries (cache w1)) = assoc k (entries (cache w))) /\
  find (fun f => String.eqb (fst f) (sanitizeFilename h mediaId)
                 || startsWith (fst f) (sanitizeFilename h mediaId ++ "."))%bool (disk w)
  = None.
Proof.
  unfold has. unfold_M.
  destruct (assoc mediaId (entries (cache w))) as [e|] eqn:He.
  - destruct (existsb _ (disk w)) eqn:Hp; [discriminate|].
    destruct (find _ (disk w)) as [[name size]|] eqn:Hf; [discriminate|].
    intros [= <-]. simpl. rewrite assoc_remove_eq. repeat split; try reflexivity.
    intros k Hk. apply assoc_remove_other. congruence.
  - destruct (find _ (disk w)) as [[name size]|] eqn:Hf; [discriminate|].
    intros [= <-]. simpl. rewrite assoc_remove_eq. repeat split; try reflexivity.
    intros k Hk. apply assoc_remove_other. congruence.
Qed.

(** X4.  A cache add that downloads keeps the index within capacity or
    says so: after [add] has downloaded and registered an item, either the
    sizes of the indexed entries sum to at most [maxBytes], or one of the
    two capacity warnings was logged during the call. *)
Theorem add_within_capacity_or_warns h mediaId url sha256 w w1 data :
  has h mediaId w = (Normal false, w1) ->
  mediaId ∉ inFlight (cache w1) ->
  axios_get h (ticks w1) url = Downloaded data ->
  (truthy sha256 && negb (strict_eq_str sha256 (buf_sha256 data)))%bool = false ->
  exists w2 more,
    add h mediaId url sha256 w = (Normal tt, w2) /\
    trace w2 = (trace w1 ++ more)%list /\
    (getUsedBytes (cache w2) <= maxBytes (cache w2) \/
     exists e, In e more /\ capacity_warning e).
Proof.
  intros Hhas Hfl Hdl Hsha.
  apply has_false_inv in Hhas as Hinv. destruct Hinv as (Hnone & _).
  unfold add. unfold bind at 1. rewrite Hhas.
  unfold bind at 1. unfold gets at 1.
  rewrite bool_decide_eq_false_2 by exact Hfl.
  unfold bind at 1. unfold modify at 1. unfold try_finally.
  set (w1' := set_cache (set_inFlight ({[mediaId]} ∪ inFlight (cache w1)) (cache w1)) w1).
  destruct (evictIfNeeded_spec (buf_length data)
              (emit (EvDownload url) (set_ticks (S (ticks w1')) w1')))
    as (evicted & kept & w_e & more & _ & Hrun & He & _ & Hm & Ht & _ & Hend).
  destruct (addInternal_downloaded h mediaId url sha256 w1' data w_e Hdl Hsha Hrun)
    as (w2 & Hadd & He2 & _ & _ & Hm2 & _ & _ & _ & Ht2).
  rewrite Hadd. eexists _, _. split; [reflexivity|]. simpl.
  split.
  - rewrite Ht2, Ht. simpl. rewrite <- !app_assoc. reflexivity.
  - destruct Hend as [[Hroom _]|(e & Hlast & Hwarn)].
    + left. rewrite Hm2.
      assert (Hfresh : assoc mediaId (entries (cache w_e)) = None).
      { rewrite He. apply remove_all_none. exact Hnone. }
      assert (Hused : getUsedBytes (cache w2) = getUsedBytes (cache w_e) + buf_length data).
      { unfold getUsedBytes at 1. rewrite He2.
        rewrite (assoc_set_fresh _ _ _ Hfresh), fold_left_app. simpl. reflexivity. }
      unfold getUsedBytes in *. simpl. lia.
    + right. exists e. split; [|exact Hwarn].
      apply in_or_app. right. apply in_or_app. left.
      apply list_elem_of_In, last_Some_elem_of. exact Hlast.
Qed.

Lemma add_within_capacity_or_warns_witness :
  exists w2 more,
    add example_host "ok1" "ok" VUndefined example_world = (Normal tt, w2) /\
    trace w2 = (trace (snd (has example_host "ok1" example_world)) ++ more)%list /\
    (getUsedBytes (cache w2) <= maxBytes (cache w2) \/
     exists e, In e more /\ capacity_warning e).
Proof.
  exact (add_within_capacity_or_warns example_host "ok1" "ok" VUndefined example_world
           (snd (has example_host "ok1" example_world))
           {| buf_length := 1024; buf_sha256 := "d1" |}
           ltac:(vm_compute; reflexivity) ltac:(vm_compute; set_solver)
           ltac:(reflexivity) ltac:(reflexivity)).
Defined.

(** The cases of [has]. *)
Lemma has_cases h mediaId w :
  exists b w',
    has h mediaId w = (Normal b, w') /\
    disk w' = disk w /\ trace w' = trace w /\
    cacheDir (cache w') = cacheDir (cache w) /\
    (forall k, k <> mediaId -> assoc k (entries (cache w')) = assoc k (entries (cache w))) /\
    if b then
      exists e, assoc mediaId (entries (cache w')) = Some e /\
                file_present w' (ce_localPath e) = true /\
                ce_lastUsedAt e = Date_now h (ticks w)
    else
      assoc mediaId (entries (cache w')) = None /\
      forall name size, In (name, size) (disk w) ->
        name <> sanitizeFilename h mediaId /\
        startsWith name (sanitizeFilename h mediaId ++ ".") = false.
Proof.
  assert (Hmiss : forall l : list (string * Z),
    find (fun f => String.eqb (fst f) (sanitizeFilename h mediaId)
                   || startsWith (fst f) (sanitizeFilename h mediaId ++ "."))%bool l = None ->
    forall name size, In (name, size) l ->
      name <> sanitizeFilename h mediaId /\
      startsWith name (sanitizeFilename h mediaId ++ ".") = false).
  { intros l Hf name size Hin. pose proof (find_none _ _ Hf _ Hin) as Hno. simpl in Hno.
    apply orb_false_iff in Hno as [Hn Hs]. split; [|exact Hs].
    apply String.eqb_neq. exact Hn. }
  assert (Hfound : forall (l : list (string * Z)) name size,
    find (fun f => String.eqb (fst f) (sanitizeFilename h mediaId)
                   || startsWith (fst f) (sanitizeFilename h mediaId ++ "."))%bool l
    = Some (name, size) ->
    existsb (fun f => String.eqb (path_join (cacheDir (cache w)) (fst f))
                                 (path_join (cacheDir (cache w)) name)) l = true).
  { intros l name size Hf. apply find_some in Hf as [Hin _].
    apply existsb_exists. exists (name, size). split; [exact Hin | apply String.eqb_refl]. }
  unfold has. unfold_M.
  destruct (assoc mediaId (entries (cache w))) as [e|] eqn:He.
  - destruct (existsb _ (disk w)) eqn:Hp.
    + exists true. eexists. split; [reflexivity|]. simpl.
      repeat split; try reflexivity.
      * intros k Hk. apply assoc_set_other. congruence.
      * eexists. rewrite assoc_set_eq. split; [reflexivity|]. split; [exact Hp | reflexivity].
    + destruct (find _ (disk w)) as [[name size]|] eqn:Hf.
      * exists true. eexists. split; [reflexivity|]. simpl.
        repeat split; try reflexivity.
        -- intros k Hk. apply assoc_set_other. congruence.
        -- eexists. rewrite assoc_set_eq. split; [reflexivity|].
           split; [exact (Hfound _ _ _ Hf) | reflexivity].
      * exists false. eexists. split; [reflexivity|]. simpl.
        repeat split; try reflexivity.
        -- intros k Hk. apply assoc_remove_other. congruence.
        -- apply assoc_remove_eq.
        -- apply (Hmiss _ Hf name size H).
        -- apply (Hmiss _ Hf name size H).
  - destruct (find _ (disk w)) as [[name size]|] eqn:Hf.
    + exists true. eexists. split; [reflexivity|]. simpl.
      repeat split; try reflexivity.
      * intros k Hk. apply assoc_set_other. congruence.
      * eexists. rewrite assoc_set_eq. split; [reflexivity|].
        split; [exact (Hfound _ _ _ Hf) | reflexivity].
    + exists false. eexists. split; [reflexivity|]. simpl.
      repeat split; try reflexivity.
      * intros k Hk. apply assoc_remove_other. congruence.
      * apply assoc_remove_eq.
      * apply (Hmiss _ Hf name size H).
      * apply (Hmiss _ Hf name size H).
Qed.

(** X5.  [has] answers by what is on disk and never changes the disk or
    logs.  When it answers [true] the id is indexed, the indexed file
    exists and the entry's [lastUsedAt] is the current time; when it
    answers [false] the id is not indexed afterwards and no file of the
    media directory is named after the sanitized id.  Entries of other ids
    are left alone either way. *)
Theorem has_reflects_files h mediaId w :
  exists b w',
    has h mediaId w = (Normal b, w') /\
    disk w' = disk w /\ trace w' = trace w /\
    (forall k, k <> mediaId -> assoc k (entries (cache w')) = assoc k (entries (cache w))) /\
    if b then
      exists e, assoc mediaId (entries (cache w')) = Some e /\
                file_present w' (ce_localPath e) = true /\
                ce_lastUsedAt e = Date_now h (ticks w)
    else
      assoc mediaId (entries (cache w')) = None /\
      forall name size, In (name, size) (disk w) ->
        name <> sanitizeFilename h mediaId /\
        startsWith name (sanitizeFilename h mediaId ++ ".") = false.
Proof.
  destruct (has_cases h mediaId w) as (b & w' & Hrun & Hdisk & Htrace & _ & Hother & Hb).
  exists b, w'. auto.
Qed.

Lemma existsb_assoc_set (p : string -> bool) name (v : Z) l :
  p name = true -> existsb (fun f => p (fst f)) (assoc_set name v l) = true.
Proof.
  intros Hp. induction l as [|[k0 v0] l IH]; simpl.
  - rewrite Hp. reflexivity.
  - destruct (String.eqb name k0); simpl; [rewrite Hp; reflexivity|].
    rewrite IH. apply orb_true_r.
Qed.

(** X6.  What [add] stores, [get] finds: right after an [add] that
    downloaded the item, [get] of the same media id returns the path of the
    written file, the media directory joined with the sanitized id and the
    extension taken from the URL. *)
Theorem add_then_get h mediaId url sha256 w w1 data :
  has h mediaId w = (Normal false, w1) ->
  mediaId ∉ inFlight (cache w1) ->
  axios_get h (ticks w1) url = Downloaded data ->
  (truthy sha256 && negb (strict_eq_str sha256 (buf_sha256 data)))%bool = false ->
  exists w2 w3,
    add h mediaId url sha256 w = (Normal tt, w2) /\
    get h mediaId w2
    = (Normal (Some (path_join (cacheDir (cache w)) (getFileName h mediaId url))), w3).
Proof.
  intros Hhas Hfl Hdl Hsha.
  apply has_false_inv in Hhas as Hinv. destruct Hinv as (_ & _ & _ & Hdir & _).
  unfold add. unfold bind at 1. rewrite Hhas.
  unfold bind at 1. unfold gets at 1.
  rewrite bool_decide_eq_false_2 by exact Hfl.
  unfold bind at 1. unfold modify at 1. unfold try_finally.
  set (w1' := set_cache (set_inFlight ({[mediaId]} ∪ inFlight (cache w1)) (cache w1)) w1).
  destruct (evictIfNeeded_spec (buf_length data)
              (emit (EvDownload url) (set_ticks (S (ticks w1')) w1')))
    as (evicted & kept & w_e & more & _ & Hrun & _).
  pose proof (evictIfNeeded_static (buf_length data)
                (emit (EvDownload url) (set_ticks (S (ticks w1')) w1'))) as [Hdir_e _].
  rewrite Hrun in Hdir_e. simpl in Hdir_e.
  destruct (addInternal_downloaded h mediaId url sha256 w1' data w_e Hdl Hsha Hrun)
    as (w2 & Hadd & He2 & Hdisk2 & Hdir2 & _).
  rewrite Hadd. eexists _, _. split; [reflexivity|].
  set (wf := set_cache _ w2).
  set (entry := {| ce_mediaId := mediaId; ce_sha256 := sha256 ||| VStr (buf_sha256 data);
                   ce_size := buf_length data; ce_lastUsedAt := Date_now h (ticks w_e);
                   ce_localPath := path_join (cacheDir (cache w_e)) (getFileName h mediaId url);
                   ce_status := ready |}) in *.
  assert (Hentry : assoc mediaId (entries (cache wf)) = Some entry).
  { unfold wf. simpl. rewrite He2. apply assoc_set_eq. }
  assert (Hfile : file_present wf (ce_localPath entry) = true).
  { unfold file_present, wf. simpl. rewrite Hdisk2, Hdir2.
    apply (existsb_assoc_set
             (fun n => String.eqb (path_join (cacheDir (cache w_e)) n)
                         (path_join (cacheDir (cache w_e)) (getFileName h mediaId url)))).
    apply String.eqb_refl. }
  unfold get. unfold bind at 1. rewrite (has_hit h mediaId wf entry Hentry Hfile).
  simpl. unfold gets. simpl. rewrite assoc_set_eq. simpl.
  rewrite Hdir_e. simpl. rewrite Hdir. reflexivity.
Qed.

Lemma add_then_get_witness :
  exists w2 w3,
    add example_host "ok1" "ok" VUndefined example_world = (Normal tt, w2) /\
    get example_host "ok1" w2 = (Normal (Some "/var/cache/hexmon/media/ok1"), w3).
Proof.
  exact (add_then_get example_host "ok1" "ok" VUndefined example_world
           (snd (has example_host "ok1" example_world))
           {| buf_length := 1024; buf_sha256 := "d1" |}
           ltac:(vm_compute; reflexivity) ltac:(vm_compute; set_solver)
           ltac:(reflexivity) ltac:(reflexivity)).
Defined.





Lemma assoc_remove_filter {A} k (l : list (string * A)) :
  assoc_remove k l = List.filter (fun kv => negb (String.eqb k (fst kv))) l.
Proof.
  induction l as [|[k0 v0] l IH]; simpl; [reflexivity|].
  destruct (String.eqb k k0); simpl; rewrite IH; reflexivity.
Qed.

Lemma filter_twice {A} (p q : A -> bool) l :
  List.filter p (List.filter q l) = List.filter (fun x => q x && p x)%bool l.
Proof.
  induction l as [|x l IH]; simpl; [reflexivity|].
  destruct (q x); simpl; [destruct (p x)|]; rewrite IH; reflexivity.
Qed.

Lemma clear_entries_spec es :
  forall w, exists w',
    clear_entries es w = (Normal tt, w') /\
    nowPlaying (cache w') = nowPlaying (cache w) /\
    entries (cache w') = fold_left (clear_step (nowPlaying (cache w))) es (entries (cache w)).
Proof.
  induction es as [|[k e] es IH]; intros w; simpl.
  - exists w. repeat split.
  - unfold bind at 1. unfold gets at 1. unfold clear_step at 2. simpl.
    destruct (bool_decide (k ∈ nowPlaying (cache w))).
    + unfold bind, ret. apply IH.
    + unfold_M.
      destruct (existsb _ (disk w)); simpl;
        match goal with
        | |- context [clear_entries es ?w1] =>
            destruct (IH w1) as (w' & Hrun & Hp & He)
        end;
        exists w'; (split; [exact Hrun|]); split; assumption.
Qed.

Lemma clear_fold playing es :
  forall l,
    fold_left (clear_step playing) es l
    = List.filter (fun kv => bool_decide (fst kv ∈ playing)
                             || negb (existsb (String.eqb (fst kv)) (map fst es)))%bool l.
Proof.
  induction es as [|x es IH]; intros l; simpl.
  - rewrite (filter_ext _ (fun _ => true)); [|intros a; apply orb_true_r].
    induction l as [|y l IHl]; simpl; [reflexivity | f_equal; exact IHl].
  - rewrite IH. unfold clear_step. destruct (bool_decide (fst x ∈ playing)) eqn:Hx.
    + apply filter_ext. intros a.
      destruct (String.eqb (fst a) (fst x)) eqn:Ha; [|reflexivity].
      apply String.eqb_eq in Ha. rewrite Ha, Hx. reflexivity.
    + rewrite assoc_remove_filter, filter_twice. apply filter_ext. intros a.
      rewrite (String.eqb_sym (fst x) (fst a)).
      destruct (String.eqb (fst a) (fst x)) eqn:Ha; simpl; [|reflexivity].
      apply String.eqb_eq in Ha. rewrite Ha, Hx. reflexivity.
Qed.

(** X8.  [clear] without force removes from the index exactly the entries
    that are not marked now-playing, leaving the marked ones and the marks
    as they were; [clear] with force leaves no entry, no mark and no file. *)
Theorem clear_keeps_now_playing w :
  exists w1 w2,
    clear false w = (Normal tt, w1) /\
    entries (cache w1)
    = List.filter (fun kv => bool_decide (fst kv ∈ nowPlaying (cache w))) (entries (cache w)) /\
    nowPlaying (cache w1) = nowPlaying (cache w) /\
    clear true w = (Normal tt, w2) /\
    entries (cache w2) = [] /\ nowPlaying (cache w2) = ∅ /\ disk w2 = [].
Proof.
  destruct (clear_entries_spec (entries (cache w)) w) as (w1 & Hrun & Hp & He).
  exists w1. eexists. split; [exact Hrun|].
  split; [|split; [exact Hp|repeat split]].
  rewrite He, clear_fold. apply filter_ext_in. intros [k e] Hin. simpl.
  assert (Hk : existsb (String.eqb k) (map fst (entries (cache w))) = true).
  { apply existsb_exists. exists k. split; [|apply String.eqb_refl].
    apply in_map_iff. exists (k, e). auto. }
  rewrite Hk. apply orb_false_r.
Qed.

(* ===================================================================== *)
(** ** Further properties of the snapshot manager                          *)
(* ===================================================================== *)

(** Observations that caching and playlist building cannot change. *)
Section Quiet.
Context {X : Type} (f : World -> X).
Hypothesis q_ticks : forall n w, f (set_ticks n w) = f w.
Hypothesis q_disk : forall d w, f (set_disk d w) = f w.
Hypothesis q_cache : forall c w, f (set_cache c w) = f w.
Hypothesis q_emit : forall e w, is_quiet e = true -> f (emit e w) = f w.

Ltac settled :=
  repeat first [ rewrite q_emit by reflexivity | rewrite q_cache | rewrite q_disk
               | rewrite q_ticks ];
  reflexivity.

Lemma keeps_log level msg : preserves f (log level msg).
Proof. intros w. simpl. settled. Qed.

Lemma keeps_now h : preserves f (now h).
Proof. intros w. simpl. settled. Qed.

Ltac keeps :=
  repeat (cbv zeta; first
    [ assumption
    | apply preserves_ret | apply preserves_throw | apply preserves_gets
    | apply keeps_log | apply keeps_now
    | apply preserves_modify; intros; settled
    | apply preserves_bind; [|intros]
    | apply preserves_try_catch; [|intros]
    | apply preserves_try_finally; [|intros; settled]
    | solve [auto with pres]
    | match goal with
      | |- preserves _ (if ?b then _ else _) => destruct b
      | |- preserves _ (match ?x with _ => _ end) => destruct x
      end ]).

Lemma keeps_removeEntry entry : preserves f (removeEntry entry).
Proof. unfold removeEntry, existsSync, unlinkSync. keeps. Qed.
#[local] Hint Resolve keeps_removeEntry : pres.

Lemma keeps_evict_candidates cs sizeNeeded :
  forall available, preserves f (evict_candidates cs sizeNeeded available).
Proof. induction cs as [|c cs IH]; intros available; simpl; keeps. Qed.
#[local] Hint Resolve keeps_evict_candidates : pres.

Lemma keeps_evictIfNeeded sizeNeeded : preserves f (evictIfNeeded sizeNeeded).
Proof. unfold evictIfNeeded. keeps. Qed.
#[local] Hint Resolve keeps_evictIfNeeded : pres.

Lemma keeps_download h url : preserves f (download h url).
Proof.
  intros w. unfold download.
  destruct (axios_get h (ticks w) url) as [data|status]; simpl; [settled|].
  destruct (status_is status 401 || status_is status 403)%bool; simpl; settled.
Qed.
#[local] Hint Resolve keeps_download : pres.

Lemma keeps_has h mediaId : preserves f (has h mediaId).
Proof. unfold has, existsSync, set_entry, delete_entry. keeps. Qed.
#[local] Hint Resolve keeps_has : pres.

Lemma keeps_get h mediaId : preserves f (get h mediaId).
Proof. unfold get. keeps. Qed.
#[local] Hint Resolve keeps_get : pres.

Lemma keeps_addInternal h mediaId url sha256 : preserves f (addInternal h mediaId url sha256).
Proof. unfold addInternal, atomicWrite, set_entry. keeps. Qed.
#[local] Hint Resolve keeps_addInternal : pres.

Lemma keeps_add h mediaId url sha256 : preserves f (add h mediaId url sha256).
Proof. unfold add. keeps. Qed.
#[local] Hint Resolve keeps_add : pres.


Lemma keeps_attachLocalMedia h its : preserves f (attachLocalMedia h its).
Proof. induction its as [|item rest IH]; simpl; keeps. Qed.
#[local] Hint Resolve keeps_attachLocalMedia : pres.

Lemma keeps_buildPlaylist h snapshot mode : preserves f (buildPlaylist h snapshot mode).
Proof. unfold buildPlaylist. keeps. Qed.


Lemma keeps_persistSnapshot snapshot : preserves f (persistSnapshot snapshot).
Proof. intros w. unfold persistSnapshot, modify. simpl. settled. Qed.
End Quiet.

Lemma playlist_updates_app a b :
  playlist_updates (a ++ b) = (playlist_updates a ++ playlist_updates b)%list.
Proof.
  induction a as [|e a IH]; simpl; [reflexivity|].
  destruct e; simpl; rewrite IH; reflexivity.
Qed.

Lemma announced_quiet e w : is_quiet e = true -> announced (emit e w) = announced w.
Proof.
  intros H. unfold announced, emit. simpl. rewrite playlist_updates_app.
  destruct e; try discriminate; simpl; rewrite app_nil_r; reflexivity.
Qed.


(** [buildPlaylist] returns, with the mode and ids of its selection, and
    announces nothing. *)
Lemma buildPlaylist_returns h snapshot mode w :
  exists playlist w',
    buildPlaylist h snapshot mode w = (Normal playlist, w') /\
    announced w' = announced w /\
    pl_mode playlist = fst (selectPlaylist snapshot mode) /\
    (snd (selectPlaylist snapshot mode) = [] -> pl_items playlist = []) /\
    pl_lastSnapshotAt playlist = fetchedAt snapshot.
Proof.
  assert (Hk : preserves announced (buildPlaylist h snapshot mode))
    by (apply keeps_buildPlaylist; try reflexivity; apply announced_quiet).
  specialize (Hk w). unfold buildPlaylist in *. destruct (selectPlaylist snapshot mode) as [m its].
  unfold bind in *. destruct (attachLocalMedia_hydrate h its w) as (w' & Hrun & _).
  rewrite Hrun in *. simpl in Hk.
  eexists _, w'. split; [reflexivity|]. split; [exact Hk|]. simpl.
  repeat split. intros ->. reflexivity.
Qed.

Lemma applyOfflineFallback_returns h reason w :
  exists p w',
    applyOfflineFallback h reason w = (Normal p, w') /\
    playlist_updates (trace w') = (playlist_updates (trace w) ++ [p])%list /\
    snapshots w' = {| currentSnapshot := currentSnapshot (snapshots w);
                      currentPlaylist := Some p;
                      lastError := Some reason |} /\
    pl_mode p = fallback_mode (currentSnapshot (snapshots w)) /\
    (currentSnapshot (snapshots w) = None -> pl_items p = []) /\
    http_gets w' = http_gets w /\ deviceId w' = deviceId w.
Proof.
  unfold applyOfflineFallback. unfold bind at 1. unfold modify at 1.
  unfold bind at 1. unfold gets at 1. simpl.
  destruct (currentSnapshot (snapshots w)) as [s|] eqn:Hs.
  - set (w0 := set_snapshots _ w).
    destruct (buildPlaylist_returns h s mode_offline w0) as (p & w1 & Hrun & Hann & Hmode & _).
    assert (Hg : preserves http_gets (buildPlaylist h s mode_offline))
      by (apply preserves_buildPlaylist; try reflexivity; apply http_gets_emit).
    assert (Hd : preserves deviceId (buildPlaylist h s mode_offline))
      by (apply preserves_buildPlaylist; reflexivity).
    specialize (Hg w0). specialize (Hd w0).
    unfold bind at 1. rewrite Hrun in *. simpl in Hg, Hd.
    unfold_M. eexists p, _. split; [reflexivity|]. simpl.
    injection Hann as Hup Hsn. rewrite Hsn. unfold w0 in *. simpl in *.
    rewrite playlist_updates_app, Hup. simpl.
    repeat split; try assumption; try discriminate.
    rewrite http_gets_emit by reflexivity. exact Hg.
  - unfold_M. eexists _, _. split; [reflexivity|]. simpl.
    rewrite playlist_updates_app. simpl. repeat split.
    rewrite http_gets_emit by reflexivity. reflexivity.
Qed.

Lemma fallBack_returns h level msg reason w :
  exists p w',
    fallBack h level msg reason w = (Normal (Some p), w') /\
    playlist_updates (trace w') = (playlist_updates (trace w) ++ [p])%list /\
    snapshots w' = {| currentSnapshot := currentSnapshot (snapshots w);
                      currentPlaylist := Some p;
                      lastError := Some reason |} /\
    pl_mode p = fallback_mode (currentSnapshot (snapshots w)) /\
    (currentSnapshot (snapshots w) = None -> pl_items p = []).
Proof.
  unfold fallBack. unfold bind at 1. unfold log at 1.
  destruct (applyOfflineFallback_returns h reason (emit (EvLog level msg) w))
    as (p & w' & Hrun & Hup & Hsn & Hmode & Hempty & _).
  unfold bind. rewrite Hrun. exists p, w'. split; [reflexivity|].
  assert (Ha : playlist_updates (trace (emit (EvLog level msg) w))
               = playlist_updates (trace w)).
  { simpl. rewrite playlist_updates_app. simpl. apply app_nil_r. }
  rewrite Ha in Hup.
  split; [exact Hup|]. split; [exact Hsn|]. split; [exact Hmode | exact Hempty].
Qed.


(** The offline path after a failed attempt that stored and announced
    nothing. *)
Lemma fallBack_after h level msg reason w w1 :
  announced w1 = announced w ->
  exists p w',
    fallBack h level msg reason w1 = (Normal (Some p), w') /\
    playlist_updates (trace w') = (playlist_updates (trace w) ++ [p])%list /\
    snapshots w' = {| currentSnapshot := currentSnapshot (snapshots w);
                      currentPlaylist := Some p;
                      lastError := Some reason |} /\
    pl_mode p = fallback_mode (currentSnapshot (snapshots w)) /\
    (currentSnapshot (snapshots w) = None -> pl_items p = []).
Proof.
  intros Ha. injection Ha as Hup Hsn.
  destruct (fallBack_returns h level msg reason w1) as (p & w' & Hrun & H1 & H2 & H3 & H4).
  exists p, w'. rewrite Hup, Hsn in *. auto.
Qed.





















(** A listener that throws at the playlist of a fresh snapshot sends the
    cycle to its [catch] block: the snapshot is already stored, an error
    is recorded, and a second playlist, built from the new snapshot in
    fallback mode [offline], is announced and returned. *)
Example listener_failure_announces_twice :
  exists p1 p2 w',
    Listening.refreshSnapshot first_listener_fails empty_snapshot_host true example_world
    = (Normal (Some p2), w') /\
    playlist_updates (trace w') = [p1; p2] /\
    pl_mode p1 = mode_normal /\ pl_mode p2 = mode_offline /\
    lastError (snapshots w') = Some "Object has been destroyed" /\
    currentSnapshot (snapshots w') <> None.
Proof.
  eexists _, _, _. split; [vm_compute; reflexivity|].
  split; [reflexivity|]. split; [reflexivity|]. split; [reflexivity|].
  split; [reflexivity | discriminate].
Qed.



(** X12.  Caching the media of a snapshot fails only with URL_EXPIRED:
    every other error of an [add] is logged and the loop goes on to the
    next item. *)
Theorem cacheItems_throws_only_url_expired h allItems w e w' :
  cacheItems h allItems w = (Throw e, w') -> is_url_expired e = true.
Proof.
  revert w. induction allItems as [|item rest IH]; intros w; simpl.
  - discriminate.
  - unfold bind at 1.
    destruct (negb (truthy (ti_mediaId item)) || negb (truthy (ti_remoteUrl item)))%bool.
    + simpl. apply IH.
    + unfold try_catch.
      destruct (match as_string (ti_mediaId item), as_string (ti_remoteUrl item) with
                | Some mediaId, Some url => add h mediaId url (ti_sha256 item)
                | _, _ => throw (TypeError "cache add called with a value that is not a string")
                end w) as [[u|err] w1].
      * apply IH.
      * destruct (is_url_expired err) eqn:Hexp.
        -- simpl. intros H. injection H as <- _. exact Hexp.
        -- unfold log. simpl. apply IH.
Qed.

Lemma cacheItems_throws_only_url_expired_witness :
  exists e w',
    cacheItems example_host [example_item "m1" "https://u/1.png?sig=old"] example_world
    = (Throw e, w') /\ is_url_expired e = true.
Proof.
  eexists _, _. split; [vm_compute; reflexivity|].
  apply (cacheItems_throws_only_url_expired example_host
           [example_item "m1" "https://u/1.png?sig=old"] example_world _
           (snd (cacheItems example_host [example_item "m1" "https://u/1.png?sig=old"]
                   example_world))).
  vm_compute. reflexivity.
Defined.

(* ===================================================================== *)
(** ** Further properties of the snapshot parser                           *)
(* ===================================================================== *)

Lemma js_or_truthy a b : truthy b = true -> truthy (a ||| b) = true.
Proof. unfold js_or. destruct (truthy a) eqn:Ha; auto. Qed.

Lemma normalizeItem_identified h input urlMap n it n' :
  normalizeItem h input urlMap n = Normal (Some it, n') ->
  truthy (ti_id it) = true /\ truthy (ti_mediaId it) = true.
Proof.
  unfold normalizeItem.
  destruct (negb (truthy input) || negb (typeof_object input))%bool; [discriminate|].
  set (mediaId := prop input "media_id" ||| prop input "mediaId" ||| prop input "id").
  unfold pbind at 1.
  destruct ((if truthy (prop input "type" ||| prop input "media_type")
             then pret (prop input "type" ||| prop input "media_type")
             else plift (inferTypeFromUrl _)) n) as [[ty n1]|e]; [|discriminate].
  unfold pbind at 1.
  destruct (truthy (prop input "id" ||| mediaId)) eqn:Hid.
  - unfold pret. intros H. injection H as <- _. simpl.
    split; [exact Hid|]. apply js_or_truthy. exact Hid.
  - unfold pbind, fresh_suffix, pret. intros H. injection H as <- _. simpl.
    split; [reflexivity|]. apply js_or_truthy. reflexivity.
Qed.

Lemma normalizeItem_some_iff h input urlMap n r n' :
  normalizeItem h input urlMap n = Normal (r, n') ->
  (is_item_input input = true -> exists it, r = Some it /\ ti_sha256 it = prop input "sha256")
  /\ (is_item_input input = false -> r = None).
Proof.
  unfold normalizeItem, is_item_input.
  destruct (truthy input), (typeof_object input); simpl;
    try (unfold pret; intros H; injection H as <- _; split; [discriminate|reflexivity]).
  unfold pbind at 1.
  destruct ((if truthy (prop input "type" ||| prop input "media_type")
             then pret (prop input "type" ||| prop input "media_type")
             else plift (inferTypeFromUrl _)) n) as [[ty n1]|e]; [|discriminate].
  unfold pbind at 1.
  destruct (truthy (prop input "id" ||| _)).
  - unfold pret. intros H. injection H as <- _.
    split; [|discriminate]. intros _. eexists. split; reflexivity.
  - unfold pbind, fresh_suffix, pret. intros H. injection H as <- _.
    split; [|discriminate]. intros _. eexists. split; reflexivity.
Qed.

Lemma normalizeItems_spec h inputs urlMap n its n' :
  normalizeItems h inputs urlMap n = Normal (its, n') ->
  Forall identified its /\
  map ti_sha256 its = map (fun v => prop v "sha256") (List.filter is_item_input inputs).
Proof.
  revert n its n'. induction inputs as [|input rest IH]; intros n its n'; simpl.
  - unfold pret. intros H. injection H as <- _. split; [constructor|reflexivity].
  - unfold pbind at 1.
    destruct (normalizeItem h input urlMap n) as [[r n1]|e] eqn:Hitem; [|discriminate].
    unfold pbind at 1.
    destruct (normalizeItems h rest urlMap n1) as [[rs n2]|e] eqn:Hrest; [|discriminate].
    unfold pret. intros H. injection H as <- _.
    destruct (IH _ _ _ Hrest) as [Hall Hmap].
    destruct (normalizeItem_some_iff _ _ _ _ _ _ Hitem) as [Hsome Hnone].
    destruct (is_item_input input).
    + destruct (Hsome eq_refl) as (it & -> & Hsha).
      split.
      * constructor; [|exact Hall]. exact (normalizeItem_identified _ _ _ _ _ _ Hitem).
      * simpl. rewrite Hsha, Hmap. reflexivity.
    + rewrite (Hnone eq_refl). split; assumption.
Qed.

Lemma normalizeItem_option_identified h input urlMap n r n' :
  normalizeItem h input urlMap n = Normal (r, n') -> Forall identified (option_list r).
Proof.
  intros H. destruct r as [it|]; simpl; [|constructor].
  constructor; [|constructor]. exact (normalizeItem_identified _ _ _ _ _ _ H).
Qed.

(** X13.  Every item of a parsed snapshot, the emergency and the default
    item included, has a truthy id and a truthy media id: an input without
    any of [media_id], [mediaId], [id] gets a generated ["item-..."] id,
    which also becomes its media id. *)
Theorem parseSnapshotResponse_items_identified h raw' n s n' :
  parseSnapshotResponse h raw' n = Normal (s, n') ->
  Forall identified
    (items s ++ option_list (emergencyItem s) ++ option_list (defaultItem s))%list.
Proof.
  unfold parseSnapshotResponse.
  set (payload := opt_prop raw' "snapshot" ||| opt_prop raw' "data" ||| raw').
  destruct (negb (truthy payload) || negb (typeof_object payload))%bool; [discriminate|].
  unfold pbind at 1.
  destruct (plift (extractMediaUrlMap payload) n) as [[urlMap n0]|e]; [|discriminate].
  unfold pbind at 1.
  destruct (match _ ||| VArr [] with
            | VArr inputs => normalizeItems h inputs urlMap
            | _ => plift (Throw (TypeError "(itemsSource || []).map is not a function"))
            end n0) as [[its n1]|e] eqn:Hits; [|discriminate].
  assert (Hall : Forall identified its).
  { destruct (_ ||| VArr []); try discriminate.
    exact (proj1 (normalizeItems_spec _ _ _ _ _ _ Hits)). }
  unfold pbind at 1.
  destruct ((if (truthy (prop payload "emergency") && _)%bool
             then normalizeItem h (prop payload "emergency") urlMap
             else pret None) n1) as [[em n2]|e] eqn:Hem; [|discriminate].
  assert (Hem' : Forall identified (option_list em)).
  { destruct (truthy (prop payload "emergency") && _)%bool.
    - exact (normalizeItem_option_identified _ _ _ _ _ _ Hem).
    - unfold pret in Hem. injection Hem as <- _. constructor. }
  unfold pbind at 1.
  destruct ((if truthy (prop payload "default_media")
             then normalizeItem h (prop payload "default_media") urlMap
             else pret None) n2) as [[df n3]|e] eqn:Hdf; [|discriminate].
  assert (Hdf' : Forall identified (option_list df)).
  { destruct (truthy (prop payload "default_media")).
    - exact (normalizeItem_option_identified _ _ _ _ _ _ Hdf).
    - unfold pret in Hdf. injection Hdf as <- _. constructor. }
  unfold pbind at 1.
  destruct ((if truthy (prop payload "fetched_at" ||| prop payload "generated_at")
             then pret (prop payload "fetched_at" ||| prop payload "generated_at")
             else fun n => Normal (VStr (toISOString h (Date_now h n)), S n)) n3)
    as [[fetched n4]|e]; [|discriminate].
  unfold pret. intros H. injection H as <- _. simpl.
  apply Forall_app. split; [exact Hall|]. apply Forall_app. split; assumption.
Qed.

Lemma parseSnapshotResponse_items_identified_witness :
  exists s n',
    parseSnapshotResponse example_host example_response 0%nat = Normal (s, n') /\
    Forall identified (items s).
Proof.
  eexists _, _. split; [vm_compute; reflexivity|].
  pose proof (parseSnapshotResponse_items_identified example_host example_response 0%nat
                _ _ ltac:(vm_compute; reflexivity)) as H.
  apply Forall_app in H. exact (proj1 H).
Defined.

(** X14.  The items of a snapshot are made from the entries of the item
    array that are objects, in payload order: every entry that is not an
    object (null, a number, a string) is dropped and no other entry is,
    as the [sha256] each item copies from its entry shows. *)
Theorem normalizeItems_keeps_objects_in_order h inputs urlMap n its n' :
  normalizeItems h inputs urlMap n = Normal (its, n') ->
  length its = length (List.filter is_item_input inputs) /\
  map ti_sha256 its = map (fun v => prop v "sha256") (List.filter is_item_input inputs).
Proof.
  intros H. destruct (normalizeItems_spec _ _ _ _ _ _ H) as [_ Hmap].
  split; [|exact Hmap].
  rewrite <- (length_map ti_sha256), Hmap. apply length_map.
Qed.

Lemma normalizeItems_keeps_objects_in_order_witness :
  exists its n',
    normalizeItems example_host
      [VNull; VObj [("id", VStr "a"); ("sha256", VStr "s1")]; VNum (Int 3);
       VObj [("id", VStr "b"); ("sha256", VStr "s2")]] [] 0%nat = Normal (its, n') /\
    map ti_sha256 its = [VStr "s1"; VStr "s2"].
Proof.
  eexists _, _. split; [vm_compute; reflexivity|].
  exact (proj2 (normalizeItems_keeps_objects_in_order example_host
                  [VNull; VObj [("id", VStr "a"); ("sha256", VStr "s1")]; VNum (Int 3);
                   VObj [("id", VStr "b"); ("sha256", VStr "s2")]] [] 0%nat _ _
                  ltac:(vm_compute; reflexivity))).
Defined.

Lemma toLowerCase_app a b : toLowerCase (a ++ b) = toLowerCase a ++ toLowerCase b.
Proof. induction a as [|c a IH]; simpl; [reflexivity|]. rewrite IH. reflexivity. Qed.

Lemma lower_ascii_mark c :
  (Ascii.eqb (lower_ascii c) "?" || Ascii.eqb (lower_ascii c) "#")%bool
  = (Ascii.eqb c "?" || Ascii.eqb c "#")%bool.
Proof.
  destruct c as [[] [] [] [] [] [] [] []]; vm_compute; reflexivity.
Qed.

Lemma at_query_hash_or_end_lower s :
  at_query_hash_or_end (toLowerCase s) = at_query_hash_or_end s.
Proof. destruct s as [|c s]; simpl; [reflexivity|]. apply lower_ascii_mark. Qed.

Lemma strip_prefix_app p s : strip_prefix p (p ++ s) = Some s.
Proof.
  induction p as [|c p IH]; simpl; [destruct s; reflexivity|].
  rewrite Ascii.eqb_refl. exact IH.
Qed.

Lemma test_extension_hit exts p e tail :
  In e exts -> at_query_hash_or_end tail = true ->
  test_extension exts (p ++ "." ++ e ++ tail) = true.
Proof.
  intros Hin Hend. induction p as [|c p IH]; simpl.
  - apply orb_true_iff. left. apply existsb_exists. exists e.
    split; [exact Hin|]. cbv beta. replace ("" ++ e ++ tail) with (e ++ tail) by reflexivity. rewrite strip_prefix_app. exact Hend.
  - rewrite IH. apply orb_true_r.
Qed.

(** X15.  A URL is typed as video whenever a video extension, in any
    letter case, is followed by the end of the URL, a [?] or a [#]: what
    comes before it does not matter, not even another recognised
    extension, since the video pattern is tested first. *)
Theorem inferTypeFromUrl_video prefix ext rest :
  In (toLowerCase ext) ["mp4"; "webm"; "mov"; "m4v"] ->
  at_query_hash_or_end rest = true ->
  inferTypeFromUrl (VStr (prefix ++ "." ++ ext ++ rest)) = Normal (VStr "video").
Proof.
  intros Hext Hend. unfold inferTypeFromUrl.
  assert (Ht : truthy (VStr (prefix ++ "." ++ ext ++ rest)) = true)
    by (destruct prefix; reflexivity).
  rewrite Ht. simpl negb. cbv iota.
  rewrite !toLowerCase_app.
  change (toLowerCase ".") with ".".
  rewrite test_extension_hit; [reflexivity|exact Hext|].
  rewrite at_query_hash_or_end_lower. exact Hend.
Qed.

Lemma inferTypeFromUrl_video_witness :
  inferTypeFromUrl (VStr "https://cdn/a.pdf/clip.MP4?sig=1.png") = Normal (VStr "video").
Proof.
  apply (inferTypeFromUrl_video "https://cdn/a.pdf/clip" "MP4" "?sig=1.png").
  - simpl. auto.
  - reflexivity.
Defined.

(* ===================================================================== *)
(** ** Further properties of the default-media service                     *)
(* ===================================================================== *)

Lemma strict_neq_plain a b : plain a -> plain b -> (strict_neq a b = false <-> a = b).
Proof.
  intros [->|[->|[x ->]]] [->|[->|[y ->]]]; simpl; split; try discriminate; try reflexivity.
  - intros H. apply negb_false_iff, String.eqb_eq in H. congruence.
  - intros H. injection H as ->. rewrite String.eqb_refl. reflexivity.
Qed.

Lemma string_or_plain v d : plain d -> plain (string_or v d).
Proof.
  unfold string_or. destruct v; simpl; auto. intros _. right. right. eauto.
Qed.

Lemma plain_undefined : plain VUndefined.
Proof. left. reflexivity. Qed.

Lemma plain_null : plain VNull.
Proof. right. left. reflexivity. Qed.

Lemma plain_str s : plain (VStr s).
Proof. right. right. eauto. Qed.

Lemma normalizeMediaItem_plain input m :
  normalizeMediaItem input = Some m -> plain_item m.
Proof.
  unfold normalizeMediaItem.
  destruct (negb (truthy input) || negb (typeof_object input))%bool; [discriminate|].
  destruct (negb _ || negb _ || negb _)%bool; [discriminate|].
  intros H. injection H as <-. unfold plain_item. simpl.
  repeat split; try (apply string_or_plain; auto using plain_undefined, plain_str).
  destruct (prop input "type") as [| | | |t| |]; auto using plain_undefined.
  all: match goal with |- plain (if ?c then _ else _) => destruct c end;
    auto using plain_undefined, plain_str.
Qed.

Lemma normalizeDefaultMediaResponse_plain raw' :
  plain_response (normalizeDefaultMediaResponse raw').
Proof.
  unfold normalizeDefaultMediaResponse, plain_response.
  destruct (negb (truthy raw') || negb (typeof_object raw'))%bool;
    [simpl; auto using plain_null|].
  destruct (normalizeMediaItem (prop raw' "media")) as [m|] eqn:Hm;
    [|simpl; auto using plain_null].
  destruct (truthy _); simpl; [|auto using plain_null].
  split; [apply string_or_plain, plain_null|].
  exact (normalizeMediaItem_plain _ _ Hm).
Qed.

Lemma hasChanged_plain a b :
  plain_response a -> plain_response b -> (hasChanged a b = false <-> a = b).
Proof.
  destruct a as [ia ma], b as [ib mb]. unfold plain_response, hasChanged. simpl.
  intros [Hia Hma] [Hib Hmb].
  pose proof (strict_neq_plain ia ib Hia Hib) as Hid.
  destruct (strict_neq ia ib).
  - split; [discriminate|]. intros H. injection H as H _. apply Hid in H. discriminate.
  - assert (ia = ib) as -> by (apply Hid; reflexivity).
    destruct ma as [[a1 a2 a3 a4 a5]|], mb as [[b1 b2 b3 b4 b5]|];
      try (split; [discriminate|intros H; discriminate]); [|split; reflexivity].
    unfold plain_item in *. simpl in *.
    destruct Hma as (P1 & P2 & P3 & P4 & P5), Hmb as (Q1 & Q2 & Q3 & Q4 & Q5).
    pose proof (strict_neq_plain a1 b1 P1 Q1) as H1.
    pose proof (strict_neq_plain a2 b2 P2 Q2) as H2.
    pose proof (strict_neq_plain a3 b3 P3 Q3) as H3.
    pose proof (strict_neq_plain a4 b4 P4 Q4) as H4.
    pose proof (strict_neq_plain a5 b5 P5 Q5) as H5.
    rewrite !orb_false_iff. split.
    + intros ((((E1 & E4) & E3) & E2) & E5).
      apply H1 in E1. apply H2 in E2. apply H3 in E3. apply H4 in E4. apply H5 in E5.
      congruence.
    + intros H. injection H as -> -> -> -> ->.
      repeat split; [apply H1|apply H4|apply H3|apply H2|apply H5]; reflexivity.
Qed.

(** X16.  On normalised responses [hasChanged] is exact: it answers false
    if and only if the two responses are the same, field by field. *)
Theorem hasChanged_normalized_iff raw1 raw2 :
  hasChanged (normalizeDefaultMediaResponse raw1) (normalizeDefaultMediaResponse raw2) = false
  <-> normalizeDefaultMediaResponse raw1 = normalizeDefaultMediaResponse raw2.
Proof.
  apply hasChanged_plain; apply normalizeDefaultMediaResponse_plain.
Qed.

Lemma normalizeMediaItem_shape input m :
  normalizeMediaItem input = Some m ->
  exists id name ty url sct,
    m = {| dm_id := VStr id; dm_name := VStr name; dm_type := VStr ty;
           dm_media_url := VStr url; dm_source_content_type := sct |} /\
    String.eqb id "" = false /\ In ty VALID_MEDIA_TYPES /\ String.eqb url "" = false /\
    (sct = VUndefined \/ exists c, sct = VStr c).
Proof.
  intros H.
  destruct (normalizeMediaItem_valid input m H)
    as (id & ty & url & _ & H1' & _ & H2' & H3 & _ & H4').
  assert (Hv : existsb (String.eqb ty) VALID_MEDIA_TYPES = true).
  { apply existsb_exists. exists ty. split; [exact H3|apply String.eqb_refl]. }
  revert H. unfold normalizeMediaItem.
  destruct (negb (truthy input) || negb (typeof_object input))%bool; [discriminate|].
  rewrite H1', H2', H4', Hv.
  change (string_or (VStr id) VUndefined) with (VStr id).
  change (string_or (VStr url) VUndefined) with (VStr url).
  destruct (negb (truthy (VStr id)) || negb (truthy (VStr ty)) || negb (truthy (VStr url)))%bool
    eqn:Hg; [discriminate|].
  intros H. injection H as <-.
  apply orb_false_iff in Hg as [Hg Hurl]. apply orb_false_iff in Hg as [Hid _].
  apply negb_false_iff in Hid, Hurl. unfold truthy in Hid, Hurl.
  apply negb_true_iff in Hid, Hurl.
  assert (Hname : exists name, string_or (prop input "name") (VStr "Untitled media") = VStr name)
    by (unfold string_or; destruct (prop input "name"); simpl; eauto).
  destruct Hname as (name & Hname).
  exists id, name, ty, url, (string_or (prop input "source_content_type") VUndefined).
  split; [rewrite Hname; reflexivity|].
  repeat split; try assumption.
  unfold string_or. destruct (prop input "source_content_type"); simpl; eauto.
Qed.

Lemma normalizeMediaItem_stored id name ty url sct :
  String.eqb id "" = false -> In ty VALID_MEDIA_TYPES -> String.eqb url "" = false ->
  (sct = VUndefined \/ exists c, sct = VStr c) ->
  normalizeMediaItem
    (VObj (json_field "id" (VStr id) ++ json_field "name" (VStr name) ++
           json_field "type" (VStr ty) ++ json_field "media_url" (VStr url) ++
           json_field "source_content_type" sct))
  = Some {| dm_id := VStr id; dm_name := VStr name; dm_type := VStr ty;
            dm_media_url := VStr url; dm_source_content_type := sct |}.
Proof.
  intros Hid Hty Hurl Hsct.
  assert (Hv : existsb (String.eqb ty) VALID_MEDIA_TYPES = true).
  { apply existsb_exists. exists ty. split; [exact Hty|apply String.eqb_refl]. }
  assert (Ht : String.eqb ty "" = false).
  { simpl in Hty. destruct Hty as [<-|[<-|[<-|[]]]]; reflexivity. }
  set (o := VObj _).
  assert (P0 : (negb (truthy o) || negb (typeof_object o))%bool = false) by reflexivity.
  assert (P1 : prop o "id" = VStr id) by (destruct Hsct as [->|[c ->]]; reflexivity).
  assert (P2 : prop o "name" = VStr name) by (destruct Hsct as [->|[c ->]]; reflexivity).
  assert (P3 : prop o "type" = VStr ty) by (destruct Hsct as [->|[c ->]]; reflexivity).
  assert (P4 : prop o "media_url" = VStr url) by (destruct Hsct as [->|[c ->]]; reflexivity).
  assert (P5 : string_or (prop o "source_content_type") VUndefined = sct)
    by (destruct Hsct as [->|[c ->]]; reflexivity).
  clearbody o. unfold normalizeMediaItem.
  rewrite P0, P1, P2, P3, P4, P5, Hv. unfold string_or, is_string, truthy.
  rewrite Hid, Hurl, Ht. reflexivity.
Qed.

(** X17.  What [persistCache] writes is what [loadCached] restores: a
    normalised response survives the round trip through its JSON document
    unchanged, so a restart brings back the value in use. *)
Theorem loadCached_restores_persisted raw' :
  let current := normalizeDefaultMediaResponse raw' in
  dms_current (loadCached (Some (Normal (stored_json current))) newDefaultMediaService)
  = current.
Proof.
  simpl. unfold normalizeDefaultMediaResponse at 2 3.
  destruct (negb (truthy raw') || negb (typeof_object raw'))%bool; [reflexivity|].
  destruct (normalizeMediaItem (prop raw' "media")) as [m|] eqn:Hm; [|reflexivity].
  destruct (truthy (string_or (prop raw' "media_id") VNull)) eqn:Hid; [|reflexivity].
  destruct (normalizeMediaItem_shape _ _ Hm) as (id & name & ty & url & sct & -> & H1 & H2 & H3 & H4).
  unfold string_or in *.
  destruct (prop raw' "media_id") as [| |b|k|mid|l|o]; simpl in Hid; try discriminate.
  set (doc := stored_json _).
  assert (Q0 : (negb (truthy doc) || negb (typeof_object doc))%bool = false) by reflexivity.
  assert (Q1 : prop doc "media_id" = VStr mid) by reflexivity.
  assert (Q2 : prop doc "media"
               = VObj (json_field "id" (VStr id) ++ json_field "name" (VStr name) ++
                       json_field "type" (VStr ty) ++ json_field "media_url" (VStr url) ++
                       json_field "source_content_type" sct)) by reflexivity.
  clearbody doc. unfold normalizeDefaultMediaResponse.
  rewrite Q0, Q1, Q2, (normalizeMediaItem_stored id name ty url sct H1 H2 H3 H4).
  unfold string_or, is_string, truthy. rewrite Hid. reflexivity.
Qed.

Lemma dms_step_normalized s i :
  (exists raw', dms_current s = normalizeDefaultMediaResponse raw') ->
  exists raw', dms_current (dms_step s i) = normalizeDefaultMediaResponse raw'.
Proof.
  intros Hs. destruct i as [[[raw'|e]|]| |paired fetched]; simpl; try exact Hs.
  - exists raw'. reflexivity.
  - unfold fetchAndUpdate. destruct paired; simpl; [|exact Hs].
    destruct fetched as [response|e]; simpl; [|exact Hs].
    exists response.
    destruct (hasChanged _ _); simpl; [|reflexivity].
    destruct (dms_mainWindow s); reflexivity.
Qed.

Lemma dms_run_normalized inputs s :
  (exists raw', dms_current s = normalizeDefaultMediaResponse raw') ->
  exists raw', dms_current (dms_run s inputs) = normalizeDefaultMediaResponse raw'.
Proof.
  revert s. induction inputs as [|i rest IH]; intros s Hs; simpl; [exact Hs|].
  apply IH. apply dms_step_normalized. exact Hs.
Qed.

Lemma newDefaultMediaService_normalized :
  exists raw', dms_current newDefaultMediaService = normalizeDefaultMediaResponse raw'.
Proof. exists VNull. reflexivity. Qed.

(** X18.  Whatever the service has been through since it was created, a
    refresh returns the value it leaves as current, that value is a
    normalised response, and the [changed] event is raised exactly when
    the current value has become a different one, carrying the new value;
    the renderer is told only of values announced by [changed].  An
    unpaired device or a failed request leaves the service as it was. *)
Theorem fetchAndUpdate_changed_iff inputs paired fetched :
  let s := dms_run newDefaultMediaService inputs in
  let s' := snd (fetchAndUpdate paired fetched s) in
  fst (fetchAndUpdate paired fetched s) = dms_current s' /\
  (exists raw', dms_current s' = normalizeDefaultMediaResponse raw') /\
  (exists news,
      dms_events s' = (dms_events s ++ news)%list /\
      (forall x, In (DmChanged x) news <->
                 x = dms_current s' /\ dms_current s' <> dms_current s) /\
      (forall x, In (DmSend x) news -> In (DmChanged x) news)) /\
  ((paired = false \/ exists e, fetched = Throw e) -> s' = s).
Proof.
  intros s s'.
  pose proof (dms_run_normalized inputs _ newDefaultMediaService_normalized) as Hs.
  fold s in Hs.
  pose proof (dms_step_normalized s (Refresh paired fetched) Hs) as Hs'.
  simpl in Hs'. fold s' in Hs'.
  split; [|split; [exact Hs'|]].
  { unfold s', fetchAndUpdate. destruct paired; simpl; [|reflexivity].
    destruct fetched as [response|e]; simpl; [|reflexivity].
    destruct (hasChanged _ _); simpl; [|reflexivity].
    destruct (dms_mainWindow s); reflexivity. }
  split.
  - unfold s', fetchAndUpdate. destruct paired; simpl.
    2:{ exists []. rewrite app_nil_r. split; [reflexivity|].
        split; [|intros x []]. intros x. split; [intros []|intros [_ H]; congruence]. }
    destruct fetched as [response|e]; simpl.
    2:{ exists []. rewrite app_nil_r. split; [reflexivity|].
        split; [|intros x []]. intros x. split; [intros []|intros [_ H]; congruence]. }
    destruct Hs as (raw0 & Hs).
    pose proof (hasChanged_plain (dms_current s) (normalizeDefaultMediaResponse response)) as Hc.
    rewrite Hs in Hc. specialize (Hc (normalizeDefaultMediaResponse_plain raw0)
                                     (normalizeDefaultMediaResponse_plain response)).
    rewrite <- Hs in Hc.
    destruct (hasChanged (dms_current s) (normalizeDefaultMediaResponse response)) eqn:Hch; simpl.
    + assert (Hne : normalizeDefaultMediaResponse response <> dms_current s).
      { intros Heq. symmetry in Heq. apply Hc in Heq. discriminate. }
      destruct (dms_mainWindow s); simpl.
      * exists [DmPersist (normalizeDefaultMediaResponse response);
                DmChanged (normalizeDefaultMediaResponse response);
                DmSend (normalizeDefaultMediaResponse response)].
        split; [rewrite <- !app_assoc; reflexivity|]. split.
        -- intros x. simpl. split.
           ++ intros [H|[H|[H|[]]]]; try discriminate. injection H as <-. auto.
           ++ intros [-> _]. auto.
        -- intros x. simpl. intros [H|[H|[H|[]]]]; try discriminate.
           injection H as <-. auto.
      * exists [DmPersist (normalizeDefaultMediaResponse response);
                DmChanged (normalizeDefaultMediaResponse response)].
        split; [rewrite <- !app_assoc; reflexivity|]. split.
        -- intros x. simpl. split.
           ++ intros [H|[H|[]]]; try discriminate. injection H as <-. auto.
           ++ intros [-> _]. auto.
        -- intros x. simpl. intros [H|[H|[]]]; discriminate.
    + assert (Heq : dms_current s = normalizeDefaultMediaResponse response)
        by (apply Hc; reflexivity).
      exists [DmPersist (normalizeDefaultMediaResponse response)].
      split; [reflexivity|]. split.
      * intros x. simpl. split.
        -- intros [H|[]]. discriminate.
        -- intros [_ H]. congruence.
      * intros x. simpl. intros [H|[]]. discriminate.
  - unfold s', fetchAndUpdate. intros [->|[e ->]]; [reflexivity|].
    destruct paired; reflexivity.
Qed.

(* ===================================================================== *)
(** ** Further properties of certificate renewal                           *)
(* ===================================================================== *)

Lemma MS_PER_DAY_pos : 0 < MS_PER_DAY.
Proof. reflexivity. Qed.

(** X19.  Renewal, once due, stays due: [needsRenewal] cannot go back to
    false as time passes, nor when [renewBeforeDays] is raised. *)
Theorem needsRenewal_monotone f renewBeforeDays renewBeforeDays' now' later :
  now' <= later -> renewBeforeDays <= renewBeforeDays' ->
  needsRenewal f renewBeforeDays now' = true ->
  needsRenewal f renewBeforeDays' later = true.
Proof.
  intros Ht Hr. unfold needsRenewal.
  destruct (getCertificateInfo f) as [certInfo|]; [|reflexivity].
  cbv zeta.
  destruct ((validTo certInfo - now') / MS_PER_DAY <=? renewBeforeDays) eqn:H1; [|discriminate].
  intros _. apply Z.leb_le in H1.
  assert (H2 : (validTo certInfo - later) / MS_PER_DAY <= (validTo certInfo - now') / MS_PER_DAY)
    by (apply Z.div_le_mono; [exact MS_PER_DAY_pos|lia]).
  destruct ((validTo certInfo - later) / MS_PER_DAY <=? renewBeforeDays') eqn:H3;
    [reflexivity|].
  apply Z.leb_gt in H3. lia.
Qed.

Lemma needsRenewal_monotone_witness :
  needsRenewal (example_cert (1700000000000 + 30 * MS_PER_DAY)) 30 1700000000999 = true.
Proof.
  apply (needsRenewal_monotone (example_cert (1700000000000 + 30 * MS_PER_DAY))
           30 30 1700000000000 1700000000999); [lia|lia|reflexivity].
Defined.

(** X20.  A certificate for which renewal is not due (with a threshold
    that is not negative) has more than [renewBeforeDays] whole days left,
    now and at any earlier time; so [verifyCertificate], when the files
    are present, can reject it only as not yet valid, never as expired. *)
Theorem no_renewal_due_means_not_expired f renewBeforeDays earlier now' :
  0 <= renewBeforeDays -> earlier <= now' ->
  needsRenewal f renewBeforeDays now' = false ->
  exists certInfo,
    f = ParsedCert certInfo /\
    (renewBeforeDays + 1) * MS_PER_DAY <= validTo certInfo - now' /\
    verifyCertificate true f earlier = negb (earlier <? validFrom certInfo).
Proof.
  intros Hr Ht. unfold needsRenewal, verifyCertificate.
  destruct f as [| |certInfo]; simpl; try discriminate.
  destruct ((validTo certInfo - now') / MS_PER_DAY <=? renewBeforeDays) eqn:H1; [discriminate|].
  intros _. apply Z.leb_gt in H1.
  pose proof (Z.mul_div_le (validTo certInfo - now') MS_PER_DAY MS_PER_DAY_pos) as H2.
  assert (H3 : (renewBeforeDays + 1) * MS_PER_DAY <= validTo certInfo - now').
  { pose proof MS_PER_DAY_pos. nia. }
  exists certInfo. split; [reflexivity|]. split; [exact H3|].
  assert (H4 : (earlier >? validTo certInfo) = false).
  { pose proof MS_PER_DAY_pos. rewrite Z.gtb_ltb. apply Z.ltb_ge. nia. }
  rewrite H4, orb_false_r. destruct (earlier <? validFrom certInfo); reflexivity.
Qed.

Lemma no_renewal_due_means_not_expired_witness :
  verifyCertificate true (example_cert (1700000000000 + 31 * MS_PER_DAY)) 1600000000000 = true.
Proof.
  destruct (no_renewal_due_means_not_expired
              (example_cert (1700000000000 + 31 * MS_PER_DAY)) 30 1600000000000 1700000000000
              ltac:(lia) ltac:(lia) eq_refl) as (certInfo & Hf & _ & Hv).
  rewrite Hv. injection Hf as <-. reflexivity.
Defined.

(* ===================================================================== *)
(** ** Further properties of the playback engine                           *)
(* ===================================================================== *)

Lemma call_status failure stage x r :
  playback_status (snd (call failure stage x r)) = playback_status (snd r).
Proof.
  unfold call. destruct r as [[u|err] e]; [|reflexivity].
  destruct failure as [[s msg]|]; [destruct (stage_eqb s stage)|]; reflexivity.
Qed.

Lemma handlePlayItem_status item failure e :
  playback_status (snd (handlePlayItem item failure e)) = playback_status e.
Proof.
  unfold handlePlayItem, skip. rewrite call_status.
  destruct (pe_mainWindow (set_currentItem (Some item) e));
    rewrite ?call_status;
    destruct (truthy (pe_currentScheduleId (set_currentItem (Some item) e)));
    rewrite ?call_status;
    destruct (truthy (ti_mediaId item ||| ti_objectKey item));
    rewrite ?call_status; reflexivity.
Qed.

Lemma handleError_follows msg e :
  scheduler_follows_state e -> scheduler_follows_state (handleError msg e).
Proof.
  unfold scheduler_follows_state, handleError. simpl.
  destruct (pe_errorCount e + 1 >=? maxErrors); simpl.
  - intros _ [H|H]; discriminate.
  - destruct (pe_mainWindow e); simpl; auto.
Qed.

Lemma status_follows e e' :
  playback_status e' = playback_status e ->
  scheduler_follows_state e -> scheduler_follows_state e'.
Proof.
  unfold playback_status, scheduler_follows_state. intros H. injection H as -> ->. auto.
Qed.

Lemma startPlaylist_follows playlist e :
  pe_state e = state_stopped \/ pl_items playlist <> [] ->
  scheduler_follows_state (snd (startPlaylist playlist e)).
Proof.
  unfold startPlaylist, scheduler_follows_state.
  destruct (pl_items playlist) as [|it its]; simpl.
  - intros [H|H]; [|congruence]. rewrite H. intros [H'|H']; discriminate.
  - intros _.
    destruct (truthy (pl_scheduleId playlist ||| pl_snapshotId playlist)); reflexivity.
Qed.

Lemma engine_step_follows e i :
  scheduler_follows_state e -> scheduler_follows_state (engine_step e i).
Proof.
  intros He. destruct i as [item failure|item|current next| |playlist|current|]; simpl.
  - unfold onPlayItem.
    pose proof (handlePlayItem_status item failure e) as Hs.
    destruct (handlePlayItem item failure e) as [[u|err] e1]; simpl in Hs.
    + exact (status_follows _ _ Hs He).
    + apply handleError_follows. exact (status_follows _ _ Hs He).
  - apply (status_follows e); [|exact He].
    unfold handleItemComplete.
    destruct (truthy (ti_mediaId item ||| ti_objectKey item)); simpl;
      destruct (truthy (pe_currentScheduleId e)); reflexivity.
  - apply (status_follows e); [|exact He].
    unfold handleTransitionStart. destruct (pe_mainWindow e), next; reflexivity.
  - exact He.
  - unfold onPlaylistUpdated. apply startPlaylist_follows. left. reflexivity.
  - unfold start. destruct (pe_state e) eqn:Hst; try exact He;
      (destruct current as [playlist|];
       [|apply handleError_follows; intros [H|H]; discriminate];
       destruct (length (pl_items playlist) =? 0)%nat eqn:Hlen;
       [apply handleError_follows; intros [H|H]; discriminate|];
       assert (Hne : pl_items playlist <> [])
         by (intros Hnil; rewrite Hnil in Hlen; discriminate);
       pose proof (startPlaylist_follows playlist e (or_intror Hne)) as Hp;
       destruct (startPlaylist playlist e) as [[u|err] e1]; simpl in *;
       [exact Hp|apply handleError_follows; intros [H|H]; discriminate]).
  - intros [H|H]; discriminate.
Qed.

(** X21.  Whatever happens to an engine after it is created, while its
    state is [playing] or [emergency] its scheduler has been started and
    not stopped since. *)
Theorem playing_means_scheduler_started inputs :
  scheduler_follows_state (engine_run newPlaybackEngine inputs).
Proof.
  unfold engine_run.
  assert (H0 : scheduler_follows_state newPlaybackEngine) by (intros [H|H]; discriminate).
  revert H0. generalize newPlaybackEngine.
  induction inputs as [|i rest IH]; intros e He; simpl; [exact He|].
  apply IH. apply engine_step_follows. exact He.
Qed.

Lemma onPlaylistUpdated_empty playlist e :
  pl_items playlist = [] ->
  let e' := onPlaylistUpdated playlist e in
  pe_state e' = state_stopped /\ pe_schedulerRunning e' = false /\
  pe_currentItem e' = None /\ pe_errorCount e' = pe_errorCount e /\
  pe_effects e' = (pe_effects e ++ [SchedulerStop; Emit playback_stopped; SchedulerStop])%list.
Proof.
  intros Hnil. unfold onPlaylistUpdated, startPlaylist. rewrite Hnil. simpl.
  repeat split. rewrite <- !app_assoc. reflexivity.
Qed.



(** X23.  When the snapshot request fails and no snapshot is held, the
    refresh cycle announces a playlist that leaves every engine listening
    to it stopped, with its error count untouched. *)
Theorem unreachable_server_stops_playback h retryOnExpired w d status message e :
  deviceId w = Some d -> d <> "" ->
  http_get h (ticks w) (snapshot_url d) = HttpFail status message ->
  currentSnapshot (snapshots w) = None ->
  exists p,
    playlist_updates (trace (snd (refreshSnapshot h retryOnExpired w)))
    = (playlist_updates (trace w) ++ [p])%list /\
    pl_mode p = mode_empty /\
    pe_state (onPlaylistUpdated p e) = state_stopped /\
    pe_schedulerRunning (onPlaylistUpdated p e) = false /\
    pe_errorCount (onPlaylistUpdated p e) = pe_errorCount e.
Proof.
  intros Hd Hne Hfail Hnone.
  assert (Hatt : refreshAttempt h d w
                 = (Throw (HttpError status message),
                    emit (EvHttpGet (snapshot_url d)) (set_ticks (S (ticks w)) w))).
  { unfold refreshAttempt, bind, httpGet. rewrite Hfail. reflexivity. }
  set (w1 := emit (EvHttpGet (snapshot_url d)) (set_ticks (S (ticks w)) w)) in *.
  assert (Ha : announced w1 = announced w).
  { unfold w1, announced. simpl. rewrite playlist_updates_app. simpl.
    rewrite app_nil_r. reflexivity. }
  assert (Hrun : exists level msg reason,
             refreshSnapshot h retryOnExpired w = fallBack h level msg reason w1).
  { rewrite refreshSnapshot_unfold. unfold refreshSnapshot_body, bind, gets. rewrite Hd.
    pose proof Hne as Hne'. apply String.eqb_neq in Hne'. rewrite Hne'.
    unfold try_catch. rewrite Hatt. unfold refreshRecover. simpl.
    destruct (status_is status 404); eauto. }
  destruct Hrun as (level & msg & reason & Hrun). rewrite Hrun.
  destruct (fallBack_after h level msg reason w w1 Ha)
    as (p & w' & Hfb & Hup & _ & Hmode & Hempty).
  rewrite Hfb. simpl. exists p. split; [exact Hup|].
  rewrite Hnone in Hmode. split; [exact Hmode|].
  destruct (onPlaylistUpdated_empty p e (Hempty Hnone)) as (H1 & H2 & _ & H4 & _).
  auto.
Qed.

Lemma unreachable_server_stops_playback_witness :
  exists p,
    playlist_updates (trace (snd (refreshSnapshot unreachable_host true example_world))) = [p] /\
    pe_state (onPlaylistUpdated p (initialize newPlaybackEngine)) = state_stopped.
Proof.
  destruct (unreachable_server_stops_playback unreachable_host true example_world "dev-1"
              None "connect ECONNREFUSED" (initialize newPlaybackEngine)
              eq_refl ltac:(discriminate) eq_refl eq_refl)
    as (p & Hup & _ & Hst & _).
  exists p. split; [exact Hup | exact Hst].
Defined.

(* ===================================================================== *)
(** ** Further properties of the command processor                         *)
(* ===================================================================== *)

Lemma acknowledged_ids_app evs evs' :
  acknowledged_ids (evs ++ evs') = (acknowledged_ids evs ++ acknowledged_ids evs')%list.
Proof.
  induction evs as [|[ty id t|id r] evs IH]; simpl; [reflexivity|exact IH|].
  rewrite IH. reflexivity.
Qed.

Lemma processCommand_idle p a :
  processingCommands p = ∅ ->
  processingCommands (processCommand p a) = ∅ /\
  acknowledged_ids (cp_events (processCommand p a))
  = (acknowledged_ids (cp_events p) ++ [cmd_id (arr_command a)])%list.
Proof.
  intros Hidle. rewrite processCommand_unfold. cbv zeta. rewrite Hidle.
  rewrite bool_decide_eq_false_2 by apply not_elem_of_empty.
  destruct (isRateLimited p (cmd_type (arr_command a)) (arr_at a)); simpl.
  - split; [exact Hidle|]. rewrite acknowledged_ids_app. reflexivity.
  - split.
    + rewrite union_empty_r_L. apply difference_diag_L.
    + rewrite !acknowledged_ids_app. simpl. rewrite app_nil_r. reflexivity.
Qed.

(** X24.  Every command handed to an idle processor is acknowledged
    exactly once, in the order received, whether it was carried out,
    failed, was of an unknown type or was turned away by the rate limit. *)
Theorem every_command_acknowledged_once p arrivals :
  processingCommands p = ∅ ->
  acknowledged_ids (cp_events (processCommands p arrivals))
  = (acknowledged_ids (cp_events p) ++ map (fun a => cmd_id (arr_command a)) arrivals)%list.
Proof.
  unfold processCommands. revert p.
  induction arrivals as [|a rest IH]; intros p Hidle; simpl.
  - rewrite app_nil_r. reflexivity.
  - destruct (processCommand_idle p a Hidle) as [Hidle' Hack].
    rewrite (IH _ Hidle'), Hack, <- app_assoc. reflexivity.
Qed.

Lemma every_command_acknowledged_once_witness :
  acknowledged_ids (cp_events (processCommands newCommandProcessor example_arrivals))
  = ["c1"; "c2"].
Proof.
  exact (every_command_acknowledged_once newCommandProcessor example_arrivals eq_refl).
Defined.

Lemma assoc_set_length {A} k (v : A) l :
  length (assoc_set k v l) = match assoc k l with
                             | Some _ => length l
                             | None => S (length l)
                             end.
Proof.
  induction l as [|[k0 v0] l IH]; simpl; [reflexivity|].
  destruct (String.eqb k k0); simpl; [reflexivity|].
  rewrite IH. destruct (assoc k l); reflexivity.
Qed.

Lemma remember_spec id result p :
  (length (commandHistory p) <= maxHistorySize)%nat ->
  (length (commandHistory (remember id result p)) <= maxHistorySize)%nat /\
  assoc id (commandHistory (remember id result p)) = Some result.
Proof.
  intros Hlen. unfold remember. simpl.
  pose proof (assoc_set_length id result (commandHistory p)) as Hl.
  pose proof (assoc_set_eq id result (commandHistory p)) as Hget.
  destruct (maxHistorySize <? length (assoc_set id result (commandHistory p)))%nat eqn:Hover.
  - apply Nat.ltb_lt in Hover.
    destruct (assoc id (commandHistory p)) eqn:Hold; [lia|].
    destruct (commandHistory p) as [|[k0 v0] rest] eqn:Hh; simpl in *.
    + unfold maxHistorySize in Hover. lia.
    + destruct (String.eqb id k0) eqn:E; [discriminate|]. simpl in *.
      rewrite E in Hget. split; [lia|exact Hget].
  - apply Nat.ltb_ge in Hover. split; [exact Hover|exact Hget].
Qed.

Lemma processCommand_history_bound p a :
  (length (commandHistory p) <= maxHistorySize)%nat ->
  (length (commandHistory (processCommand p a)) <= maxHistorySize)%nat.
Proof.
  intros Hlen. rewrite processCommand_unfold. cbv zeta.
  destruct (bool_decide _); [exact Hlen|].
  destruct (isRateLimited _ _ _); [exact Hlen|].
  exact (proj1 (remember_spec (cmd_id (arr_command a))
                  (dispatch (arr_command a) (arr_outcome a))
                  (record_event
                     (Dispatched (cmd_type (arr_command a)) (cmd_id (arr_command a)) (arr_at a))
                     (set_processing ({[cmd_id (arr_command a)]} ∪ processingCommands p) p))
                  Hlen)).
Qed.

Lemma processCommands_history_bound arrivals p :
  (length (commandHistory p) <= maxHistorySize)%nat ->
  (length (commandHistory (processCommands p arrivals)) <= maxHistorySize)%nat.
Proof.
  unfold processCommands. revert p.
  induction arrivals as [|a rest IH]; intros p Hlen; simpl; [exact Hlen|].
  apply IH. apply processCommand_history_bound. exact Hlen.
Qed.

Lemma processCommands_idle arrivals p :
  processingCommands p = ∅ -> processingCommands (processCommands p arrivals) = ∅.
Proof.
  unfold processCommands. revert p.
  induction arrivals as [|a rest IH]; intros p Hidle; simpl; [exact Hidle|].
  apply IH. exact (proj1 (processCommand_idle p a Hidle)).
Qed.

(** X25.  The command history never holds more than 100 results, and the
    result of a command that has just been carried out is always in it:
    when the bound is exceeded it is the oldest entry that goes, never the
    one just stored.  A command turned away by the rate limit leaves the
    history as it was. *)
Theorem history_bounded_and_latest_kept arrivals a :
  let p := processCommands newCommandProcessor arrivals in
  let p' := processCommand p a in
  (length (commandHistory p') <= maxHistorySize)%nat /\
  (if isRateLimited p (cmd_type (arr_command a)) (arr_at a)
   then commandHistory p' = commandHistory p
   else assoc (cmd_id (arr_command a)) (commandHistory p')
        = Some (dispatch (arr_command a) (arr_outcome a))).
Proof.
  intros p p'.
  assert (Hlen : (length (commandHistory p) <= maxHistorySize)%nat).
  { apply processCommands_history_bound. simpl. unfold maxHistorySize. lia. }
  assert (Hidle : processingCommands p = ∅) by (apply processCommands_idle; reflexivity).
  split; [apply processCommand_history_bound; exact Hlen|].
  unfold p'. rewrite processCommand_unfold. cbv zeta. rewrite Hidle.
  rewrite bool_decide_eq_false_2 by apply not_elem_of_empty.
  destruct (isRateLimited p (cmd_type (arr_command a)) (arr_at a)); [reflexivity|].
  exact (proj2 (remember_spec (cmd_id (arr_command a))
                  (dispatch (arr_command a) (arr_outcome a))
                  (record_event
                     (Dispatched (cmd_type (arr_command a)) (cmd_id (arr_command a)) (arr_at a))
                     (set_processing ({[cmd_id (arr_command a)]} ∪ ∅) p))
                  Hlen)).
Qed.

(* ===================================================================== *)
(** ** Properties of the player flow                                       *)
(* ===================================================================== *)

Lemma state_eqb_eq a b : state_eqb a b = true <-> a = b.
Proof. destruct a, b; simpl; split; try discriminate; reflexivity. Qed.

Lemma flow_inv_new : flow_inv newPlayerFlow.
Proof. constructor; simpl; try discriminate; reflexivity. Qed.

Lemma transitionState_state next error' f : pf_state (transitionState next error' f) = next.
Proof.
  unfold transitionState. destruct (state_eqb (pf_state f) next) eqn:E; [|reflexivity].
  apply state_eqb_eq. exact E.
Qed.

Lemma transitionState_inv next error' f : flow_inv f -> flow_inv (transitionState next error' f).
Proof.
  intros [Hsync Hpair Hfall Honline]. unfold transitionState.
  destruct (state_eqb (pf_state f) next) eqn:E; [constructor; assumption|].
  destruct next; constructor; simpl; try discriminate; try reflexivity; auto;
    try (destruct (st_mode (pf_status f)); simpl in *; auto; discriminate).
  all: try (intros _; split; reflexivity).
Qed.

Lemma handlePlaylistUpdate_state playlist f :
  pf_state (handlePlaylistUpdate playlist f)
  = if is_offline_mode (pl_mode playlist) then OFFLINE_FALLBACK else PLAYBACK_RUNNING.
Proof.
  unfold handlePlaylistUpdate.
  destruct (is_offline_mode (pl_mode playlist)); simpl.
  - apply transitionState_state.
  - destruct (state_eqb (pf_state f) PLAYBACK_RUNNING) eqn:E; simpl.
    + apply state_eqb_eq. exact E.
    + apply transitionState_state.
Qed.

Lemma handlePlaylistUpdate_inv playlist f :
  flow_inv f -> flow_inv (handlePlaylistUpdate playlist f).
Proof.
  intros Hf.
  pose proof (handlePlaylistUpdate_state playlist f) as Hst.
  assert (Hf1 : flow_inv
                  (if is_offline_mode (pl_mode playlist)
                   then transitionState OFFLINE_FALLBACK VUndefined f
                   else if negb (state_eqb (pf_state f) PLAYBACK_RUNNING)
                        then transitionState PLAYBACK_RUNNING VUndefined f
                        else f)).
  { destruct (is_offline_mode (pl_mode playlist)); [apply transitionState_inv; exact Hf|].
    destruct (negb _); [apply transitionState_inv; exact Hf|exact Hf]. }
  unfold handlePlaylistUpdate in *.
  set (f1 := if is_offline_mode (pl_mode playlist) then _ else _) in *.
  destruct Hf1 as [Hsync _ _ _]. simpl in Hst.
  constructor; simpl.
  - exact Hsync.
  - rewrite Hst. destruct (is_offline_mode (pl_mode playlist)); discriminate.
  - rewrite Hst. unfold is_offline_mode.
    destruct (pl_mode playlist); simpl; try discriminate; reflexivity.
  - unfold is_offline_mode. destruct (pl_mode playlist); simpl; try discriminate; reflexivity.
Qed.

Lemma flow_step_inv f i : flow_inv f -> flow_inv (flow_step f i).
Proof.
  intros Hf. destruct i as [|next error'|deviceId'|item|playlist]; simpl.
  - destruct Hf. constructor; assumption.
  - apply transitionState_inv. exact Hf.
  - destruct Hf. constructor; assumption.
  - destruct Hf. constructor; assumption.
  - apply handlePlaylistUpdate_inv. exact Hf.
Qed.

(** X26.  Whatever the flow has been through since it was created: the
    state in its status is its state; in the three pairing states the
    status says not online and mode [empty]; in OFFLINE_FALLBACK it says
    not online; and it never says online with mode [offline] or
    [empty]. *)
Theorem player_status_consistent inputs :
  let f := flow_run newPlayerFlow inputs in
  st_state (pf_status f) = pf_state f /\
  (is_pairing_state (pf_state f) = true ->
   st_online (pf_status f) = false /\ st_mode (pf_status f) = mode_empty) /\
  (pf_state f = OFFLINE_FALLBACK -> st_online (pf_status f) = false) /\
  (st_online (pf_status f) = true -> is_offline_mode (st_mode (pf_status f)) = false).
Proof.
  assert (H : flow_inv (flow_run newPlayerFlow inputs)).
  { unfold flow_run. pose proof flow_inv_new as H0. revert H0. generalize newPlayerFlow.
    induction inputs as [|i rest IH]; intros f Hf; simpl; [exact Hf|].
    apply IH. apply flow_step_inv. exact Hf. }
  destruct H as [H1 H2 H3 H4]. simpl. auto.
Qed.






